(** * SAML provider configuration client (auth/provider_config.go)

    A shallow embedding of the nested key-path store, the create and update
    request builders, the transfer-object mapper and the four client
    operations, followed by the properties established about them.

    Conventions of the embedding:
    - Go strings are byte strings: [string] (a list of [ascii] bytes).
    - [interface{}] values are a tagged tree [value]; a Go map is a
      [gmap string value].  Maps are finite trees: the builders only ever
      store maps freshly made by [Set], so every nested map is non-nil and
      no two keys hold the same map.
    - The store is also given as the program holds it, with maps held by
      reference in a [heap], where a nested map can be nil or held under two
      keys.  On a heap that holds a tree the loops of [Get] and [Set] on the
      heap do what the loops on the tree do ([heap_Get_loop_tree],
      [heap_Set_loop_tree]).
    - A run-time panic (failed unchecked type assertion) is the [Panic]
      outcome; everything else is [Done].
    - A slice is [option (list A)]: [None] is the nil slice.
    - An [error] is modelled by its message. *)

From Stdlib Require Import Ascii String.
From stdpp Require Import gmap strings list fin_maps.

Local Open Scope string_scope.
Local Open Scope list_scope.

(** ** Outcomes of a call: normal return or panic *)

Inductive outcome (A : Type) : Type :=
  | Done (a : A)
  | Panic.
Arguments Done {A} a.
Arguments Panic {A}.

Definition bind {A B} (o : outcome A) (f : A → outcome B) : outcome B :=
  match o with
  | Done a => f a
  | Panic => Panic
  end.

Notation "'do' x <- e ; k" := (bind e (λ x, k))
  (at level 10, x pattern, e at level 100, k at level 200).

(** Go's [(T, error)] results: [error] is the message of the error value. *)
Definition error := string.

Inductive result (A : Type) : Type :=
  | Ok (a : A)
  | Err (e : error).
Arguments Ok {A} a.
Arguments Err {A} e.

(** ** Slices *)

Definition slice (A : Type) : Type := option (list A).

Definition slice_elems {A} (s : slice A) : list A := default [] s.

(** [len(s)] *)
Definition len {A} (s : slice A) : nat := length (slice_elems s).

(** [append(s, x)]: appending to the nil slice allocates. *)
Definition append {A} (s : slice A) (x : A) : slice A := Some (slice_elems s ++ [x]).

(** ** The parts of the [strings] and [fmt] packages the file uses *)

(** [strings.Split(s, sep)] for the one-byte separators the callers pass
    (["."] and ["/"]).  The result is never empty: [Split("", sep)] is [[""]]. *)
Fixpoint strings_Split (s : string) (sep : ascii) : list string :=
  match s with
  | EmptyString => [""]
  | String c s' =>
      if Ascii.eqb c sep then "" :: strings_Split s' sep
      else match strings_Split s' sep with
           | seg :: rest => String c seg :: rest
           | [] => [String c ""]
           end
  end.

(** [strings.Join(elems, sep)] *)
Fixpoint strings_Join (elems : list string) (sep : string) : string :=
  match elems with
  | [] => ""
  | [e] => e
  | e :: rest => e +:+ sep +:+ strings_Join rest sep
  end.

(** [strings.HasPrefix(s, prefix)] *)
Definition strings_HasPrefix (s prefix : string) : bool := String.prefix prefix s.

(** ** Field paths *)

Definition providerConfigEndpoint := "https://identitytoolkit.googleapis.com/v2beta1".

Definition idpEntityIDKey := "idpConfig.idpEntityId".
Definition ssoURLKey := "idpConfig.ssoUrl".
Definition signRequestKey := "idpConfig.signRequest".
Definition idpCertsKey := "idpConfig.idpCertificates".

Definition spEntityIDKey := "spConfig.spEntityId".
Definition callbackURIKey := "spConfig.callbackUri".

Definition displayNameKey := "displayName".
Definition enabledKey := "enabled".

(** ** Values held in the store *)

Record idpCertificate := { X509Certificate : string }.

(** The dynamic types that reach an [interface{}] slot of the store: the nil
    interface, [string], [bool], [[]idpCertificate] and
    [map[string]interface{}].  A [VMap] is a non-nil map held under its key
    only, as [make] in [Set] creates them. *)
#[warnings="-register-all"]
Inductive value : Type :=
  | VNil
  | VString (s : string)
  | VBool (b : bool)
  | VCerts (certs : slice idpCertificate)
  | VMap (m : gmap string value).

(** [_, ok := v.(map[string]interface{})] *)
Definition is_map (v : value) : bool :=
  match v with
  | VMap _ => true
  | _ => false
  end.

(** [val, ok := curr[segment]]: an absent key reads as the nil interface. *)
Definition index (curr : gmap string value) (segment : string) : value * bool :=
  match curr !! segment with
  | Some val => (val, true)
  | None => (VNil, false)
  end.

(** ** nestedMap *)

(** The loop of [Get] over the remaining segments. [rest = []] is
    [idx == len(segments)-1]. *)
Fixpoint Get_loop (curr : gmap string value) (segments : list string)
  : outcome (value * bool) :=
  match segments with
  | [] => Done (VNil, false)
  | segment :: rest =>
      let '(val, ok) := index curr segment in
      match rest with
      | [] => Done (val, ok)
      | _ :: _ =>
          if negb ok then Done (val, ok)
          else match val with
               | VMap child => Get_loop child rest
               | _ => Panic
               end
      end
  end.

(** A [nestedMap] is a Go map, hence possibly nil: [None] is the nil map,
    which reads as the empty map and cannot be written to. *)
Abbreviation nestedMap := (option (gmap string value)).

Definition entries (nm : nestedMap) : gmap string value := default ∅ nm.

(** [len(nm)] *)
Definition nestedMap_len (nm : nestedMap) : nat := size (entries nm).

Definition nestedMap_Get (nm : nestedMap) (key : string) : outcome (value * bool) :=
  Get_loop (entries nm) (strings_Split key ".").

Definition nestedMap_GetString (nm : nestedMap) (key : string)
  : outcome (string * bool) :=
  do (val, ok) <- nestedMap_Get nm key;
  if ok then
    match val with
    | VString s => Done (s, true)
    | _ => Panic
    end
  else Done ("", false).

(** The loop of [Set].  The Go code updates the maps in place; here the
    updated child is written back into its parent, which is the same store
    afterwards as long as every nested map is non-nil and held under one key
    only ([heap_Set_loop] below is the loop on maps held by reference, where
    a write below a nil nested map panics at the assignment and a write
    through a map held under two keys shows under both).  A panic can only
    happen while walking levels that already exist, so nothing has been
    written when it does. *)
Fixpoint Set_loop (curr : gmap string value) (segments : list string) (v : value)
  : outcome (gmap string value) :=
  match segments with
  | [] => Done curr
  | segment :: rest =>
      match rest with
      | [] => Done (<[segment := v]> curr)
      | _ :: _ =>
          match curr !! segment with
          | Some (VMap child) =>
              do child' <- Set_loop child rest v;
              Done (<[segment := VMap child']> curr)
          | Some _ => Panic
          | None =>
              do newChild <- Set_loop ∅ rest v;
              Done (<[segment := VMap newChild]> curr)
          end
      end
  end.

(** [Set] leaves the store [nm'] behind.  Every path has at least one
    segment, so a nil receiver always reaches an assignment into a nil map. *)
Definition nestedMap_Set (nm : nestedMap) (key : string) (v : value)
  : outcome nestedMap :=
  match nm with
  | None => Panic
  | Some curr =>
      do curr' <- Set_loop curr (strings_Split key ".") v;
      Done (Some curr')
  end.

(** ** nestedMap, with maps by reference

    A Go map value is a reference to the map, or nil, and [Set] writes through
    the reference.  Here the maps live in a [heap], an [interface{}] value
    that is a map is [IMap] of a location or of nil, and [heap_Get_loop] and
    [heap_Set_loop] are the loops of [Get] and [Set] on that heap.  A nested
    map can be nil, and two keys can hold the same map.  A location the heap
    does not hold reads as an empty map; Go has no such reference, and none
    arises in a store that is a tree. *)

Abbreviation loc := positive.

Inductive iface : Type :=
  | INil
  | IString (s : string)
  | IBool (b : bool)
  | ICerts (certs : slice idpCertificate)
  | IMap (r : option loc).

Abbreviation heap := (gmap loc (gmap string iface)).

(** The entries of the map [curr]; the nil map has none. *)
Definition heap_entries (h : heap) (curr : option loc) : gmap string iface :=
  default ∅ (curr ≫= (h !!.)).

(** [val, ok := curr[segment]] *)
Definition heap_index (h : heap) (curr : option loc) (segment : string) : iface * bool :=
  match heap_entries h curr !! segment with
  | Some val => (val, true)
  | None => (INil, false)
  end.

(** [curr[segment] = v]: assignment to an entry of a nil map panics. *)
Definition heap_assign (h : heap) (curr : option loc) (segment : string) (v : iface)
  : outcome heap :=
  match curr with
  | None => Panic
  | Some l => Done (<[l := <[segment := v]> (heap_entries h curr)]> h)
  end.

(** [make(map[string]interface{})]: an empty map at a location not in use. *)
Definition heap_make (h : heap) : loc * heap :=
  let l := fresh (dom h : gset loc) in (l, <[l := ∅]> h).

Fixpoint heap_Get_loop (h : heap) (curr : option loc) (segments : list string)
  : outcome (iface * bool) :=
  match segments with
  | [] => Done (INil, false)
  | segment :: rest =>
      let '(val, ok) := heap_index h curr segment in
      match rest with
      | [] => Done (val, ok)
      | _ :: _ =>
          if negb ok then Done (val, ok)
          else match val with
               | IMap child => heap_Get_loop h child rest
               | _ => Panic
               end
      end
  end.

Definition heap_Get (h : heap) (nm : option loc) (key : string) : outcome (iface * bool) :=
  heap_Get_loop h nm (strings_Split key ".").

Fixpoint heap_Set_loop (h : heap) (curr : option loc) (segments : list string) (v : iface)
  : outcome heap :=
  match segments with
  | [] => Done h
  | segment :: rest =>
      match rest with
      | [] => heap_assign h curr segment v
      | _ :: _ =>
          let '(child, ok) := heap_index h curr segment in
          if ok then
            match child with
            | IMap child => heap_Set_loop h child rest v
            | _ => Panic
            end
          else
            let '(newChild, h1) := heap_make h in
            do h2 <- heap_assign h1 curr segment (IMap (Some newChild));
            heap_Set_loop h2 (Some newChild) rest v
      end
  end.

(** [nm.Set(key, v)] leaves the heap it returns behind. *)
Definition heap_Set (h : heap) (nm : option loc) (key : string) (v : iface) : outcome heap :=
  heap_Set_loop h nm (strings_Split key ".") v.

(** [buildMask].  Go leaves the iteration order of a map unspecified; the
    fold below visits the entries in one fixed order.  The masks of the other
    orders are those of [buildMask_returns] further down, rearrangements of
    this one. *)
Fixpoint buildMask_value (v : value) : list string :=
  match v with
  | VMap data =>
      map_fold (λ k child mask,
        match child with
        | VMap _ => mask ++ ((λ item, k +:+ "." +:+ item) <$> buildMask_value child)
        | _ => mask ++ [k]
        end) [] data
  | _ => []
  end.

Definition buildMask (data : gmap string value) : list string :=
  buildMask_value (VMap data).

Definition nestedMap_UpdateMask (nm : nestedMap) : result (list string) :=
  Ok (buildMask (entries nm)).

(** ** Iteration order

    Go iterates a map in an order it does not specify, and [buildMask]
    appends to the mask in that order.  [buildMask_over entries mask] holds
    when [mask] is what the loop builds on visiting [entries] in the order
    given, each nested map in turn visited in some order of its entries;
    [buildMask_returns data mask] when [mask] is what [buildMask(data)] can
    return. *)
Inductive buildMask_over : list (string * value) → list string → Prop :=
  | over_nil : buildMask_over [] []
  | over_leaf k v rest mask :
      is_map v = false →
      buildMask_over rest mask →
      buildMask_over ((k, v) :: rest) ([k] ++ mask)
  | over_map k child rest entries childMask mask :
      entries ≡ₚ map_to_list child →
      buildMask_over entries childMask →
      buildMask_over rest mask →
      buildMask_over ((k, VMap child) :: rest)
                     (((λ item, k +:+ "." +:+ item) <$> childMask) ++ mask).

Definition buildMask_returns (data : gmap string value) (mask : list string) : Prop :=
  ∃ entries, entries ≡ₚ map_to_list data ∧ buildMask_over entries mask.

(** [UpdateMask] as one call runs it.  The runtime picks the order in which
    [buildMask] ranges over each map, anew on every call, so all that is known
    of the mask a call returns is that [buildMask] can return it
    ([buildMask_returns]); [nestedMap_UpdateMask] above is the call under the
    order of the fold. *)
Class MapIteration := {
  UpdateMask_run : nestedMap → result (list string);
  UpdateMask_run_returns :
    ∀ nm, ∃ mask, UpdateMask_run nm = Ok mask ∧ buildMask_returns (entries nm) mask;
}.

(** ** What the file takes from outside

    [url.ParseRequestURI] and the [%q] verb ([strconv.Quote]) belong to the Go
    standard library, and [internal.HTTPClient] is the transport.  They are
    parameters of the development. *)

Class GoLib := {
  (** the error of [url.ParseRequestURI(rawurl)], [None] when it is nil *)
  url_ParseRequestURI : string → option error;
  (** [fmt.Sprintf("%q", s)] *)
  strconv_Quote : string → string;
}.

Section validate.
Context {lib : GoLib}.

Definition validateSAMLConfigID (id : string) : option error :=
  if negb (strings_HasPrefix id "saml.") then
    Some ("invalid SAML provider id: " +:+ strconv_Quote id)
  else None.
End validate.

(** [segments[len(segments)-1]] panics on an empty slice. *)
Definition extractResourceID (name : string) : outcome string :=
  let segments := strings_Split name "/" in
  match last segments with
  | Some segment => Done segment
  | None => Panic
  end.

(** The loop shared by the two [X509Certificates] setters. *)
Definition wrap_certs (certs : slice string) : slice idpCertificate :=
  foldl (λ result cert, append result {| X509Certificate := cert |}) None
        (slice_elems certs).

(** ** SAMLProviderConfigToCreate *)

Module SAMLProviderConfigToCreate.
Record t := { id : string; params : nestedMap }.

(** [&SAMLProviderConfigToCreate{}] *)
Definition new : t := {| id := ""; params := None |}.

Definition set (config : t) (key : string) (v : value) : outcome t :=
  let params := match params config with
                | None => Some ∅
                | Some m => Some m
                end in
  do params' <- nestedMap_Set params key v;
  Done {| id := id config; params := params' |}.

Definition ID (config : t) (id : string) : outcome t :=
  Done {| id := id; params := params config |}.

Definition IDPEntityID (config : t) (entityID : string) : outcome t :=
  set config idpEntityIDKey (VString entityID).

Definition SSOURL (config : t) (url : string) : outcome t :=
  set config ssoURLKey (VString url).

Definition RequestSigningEnabled (config : t) (enabled : bool) : outcome t :=
  set config signRequestKey (VBool enabled).

Definition X509Certificates (config : t) (certs : slice string) : outcome t :=
  set config idpCertsKey (VCerts (wrap_certs certs)).

Definition RPEntityID (config : t) (entityID : string) : outcome t :=
  set config spEntityIDKey (VString entityID).

Definition CallbackURL (config : t) (url : string) : outcome t :=
  set config callbackURIKey (VString url).

Definition DisplayName (config : t) (name : string) : outcome t :=
  set config displayNameKey (VString name).

Definition Enabled (config : t) (enabled : bool) : outcome t :=
  set config enabledKey (VBool enabled).

Section buildRequest.
Context {lib : GoLib}.

Definition buildRequest (config : t) : outcome (result (nestedMap * string)) :=
  match validateSAMLConfigID (id config) with
  | Some err => Done (Err err)
  | None =>
  if Nat.eqb (nestedMap_len (params config)) 0 then
    Done (Err "no parameters specified in the create request")
  else
  do (val, ok) <- nestedMap_GetString (params config) idpEntityIDKey;
  if negb ok || String.eqb val "" then
    Done (Err "IDPEntityID must not be empty")
  else
  do (val, ok) <- nestedMap_GetString (params config) ssoURLKey;
  if negb ok || String.eqb val "" then
    Done (Err "SSOURL must not be empty")
  else
  match url_ParseRequestURI val with
  | Some err => Done (Err ("failed to parse SSOURL: " +:+ err))
  | None =>
  do (certs, ok) <- nestedMap_Get (params config) idpCertsKey;
  do empty <- (if negb ok then Done true
               else match certs with
                    | VCerts cs => Done (Nat.eqb (len cs) 0)
                    | _ => Panic
                    end);
  if empty : bool then
    Done (Err "X509Certificates must not be empty")
  else
  match certs with
  | VCerts cs =>
  if existsb (λ cert, String.eqb (X509Certificate cert) "") (slice_elems cs) then
    Done (Err "X509Certificates must not contain empty strings")
  else
  do (val, ok) <- nestedMap_GetString (params config) spEntityIDKey;
  if negb ok || String.eqb val "" then
    Done (Err "RPEntityID must not be empty")
  else
  do (val, ok) <- nestedMap_GetString (params config) callbackURIKey;
  if negb ok || String.eqb val "" then
    Done (Err "CallbackURL must not be empty")
  else
  match url_ParseRequestURI val with
  | Some err => Done (Err ("failed to parse CallbackURL: " +:+ err))
  | None => Done (Ok (params config, id config))
  end
  | _ => Panic
  end
  end
  end.
End buildRequest.
End SAMLProviderConfigToCreate.

(** ** SAMLProviderConfigToUpdate *)

Module SAMLProviderConfigToUpdate.
Record t := { params : nestedMap }.

(** [&SAMLProviderConfigToUpdate{}] *)
Definition new : t := {| params := None |}.

Definition set (config : t) (key : string) (v : value) : outcome t :=
  let params := match params config with
                | None => Some ∅
                | Some m => Some m
                end in
  do params' <- nestedMap_Set params key v;
  Done {| params := params' |}.

Definition IDPEntityID (config : t) (entityID : string) : outcome t :=
  set config idpEntityIDKey (VString entityID).

Definition SSOURL (config : t) (url : string) : outcome t :=
  set config ssoURLKey (VString url).

Definition RequestSigningEnabled (config : t) (enabled : bool) : outcome t :=
  set config signRequestKey (VBool enabled).

Definition X509Certificates (config : t) (certs : slice string) : outcome t :=
  set config idpCertsKey (VCerts (wrap_certs certs)).

Definition RPEntityID (config : t) (entityID : string) : outcome t :=
  set config spEntityIDKey (VString entityID).

Definition CallbackURL (config : t) (url : string) : outcome t :=
  set config callbackURIKey (VString url).

Definition DisplayName (config : t) (name : string) : outcome t :=
  let nameOrNil := if negb (String.eqb name "") then VString name else VNil in
  set config displayNameKey nameOrNil.

Definition Enabled (config : t) (enabled : bool) : outcome t :=
  set config enabledKey (VBool enabled).

Section buildRequest.
Context {lib : GoLib}.

Definition buildRequest (config : t) : outcome (result nestedMap) :=
  if Nat.eqb (nestedMap_len (params config)) 0 then
    Done (Err "no parameters specified in the update request")
  else
  do (val, ok) <- nestedMap_GetString (params config) idpEntityIDKey;
  if ok && String.eqb val "" then
    Done (Err "IDPEntityID must not be empty")
  else
  do (val, ok) <- nestedMap_GetString (params config) ssoURLKey;
  match (if ok then
           if String.eqb val "" then Some "SSOURL must not be empty"
           else match url_ParseRequestURI val with
                | Some err => Some ("failed to parse SSOURL: " +:+ err)
                | None => None
                end
         else None) with
  | Some err => Done (Err err)
  | None =>
  do (val, ok) <- nestedMap_Get (params config) idpCertsKey;
  do failure <- (if ok then
                   match val with
                   | VCerts cs =>
                       if Nat.eqb (len cs) 0 then
                         Done (Some "X509Certificates must not be empty")
                       else if existsb (λ cert, String.eqb (X509Certificate cert) "")
                                       (slice_elems cs) then
                         Done (Some "X509Certificates must not contain empty strings")
                       else Done None
                   | _ => Panic
                   end
                 else Done None);
  match failure with
  | Some err => Done (Err err)
  | None =>
  do (val, ok) <- nestedMap_GetString (params config) spEntityIDKey;
  if ok && String.eqb val "" then
    Done (Err "RPEntityID must not be empty")
  else
  do (val, ok) <- nestedMap_GetString (params config) callbackURIKey;
  match (if ok then
           if String.eqb val "" then Some "CallbackURL must not be empty"
           else match url_ParseRequestURI val with
                | Some err => Some ("failed to parse CallbackURL: " +:+ err)
                | None => None
                end
         else None) with
  | Some err => Done (Err err)
  | None => Done (Ok (params config))
  end
  end
  end.
End buildRequest.
End SAMLProviderConfigToUpdate.

(** ** The read model and the transfer object *)

Module SAMLProviderConfig.
Record t := {
  ID : string;
  DisplayName : string;
  Enabled : bool;
  IDPEntityID : string;
  SSOURL : string;
  RequestSigningEnabled : bool;
  X509Certificates : slice string;
  RPEntityID : string;
  CallbackURL : string;
}.
End SAMLProviderConfig.

Module samlProviderConfigDAO.
Record IDPConfig_t := {
  IDPEntityID : string;
  SSOURL : string;
  IDPCertificates : slice idpCertificate;
  SignRequest : bool;
}.

Record SPConfig_t := {
  SPEntityID : string;
  CallbackURI : string;
}.

Record t := {
  Name : string;
  IDPConfig : IDPConfig_t;
  SPConfig : SPConfig_t;
  DisplayName : string;
  Enabled : bool;
}.

Definition toSAMLProviderConfig (dao : t) : outcome SAMLProviderConfig.t :=
  let certs := foldl (λ certs cert, append certs (X509Certificate cert)) None
                     (slice_elems (IDPCertificates (IDPConfig dao))) in
  do id <- extractResourceID (Name dao);
  Done {|
    SAMLProviderConfig.ID := id;
    SAMLProviderConfig.DisplayName := DisplayName dao;
    SAMLProviderConfig.Enabled := Enabled dao;
    SAMLProviderConfig.IDPEntityID := IDPEntityID (IDPConfig dao);
    SAMLProviderConfig.SSOURL := SSOURL (IDPConfig dao);
    SAMLProviderConfig.RequestSigningEnabled := SignRequest (IDPConfig dao);
    SAMLProviderConfig.X509Certificates := certs;
    SAMLProviderConfig.RPEntityID := SPEntityID (SPConfig dao);
    SAMLProviderConfig.CallbackURL := CallbackURI (SPConfig dao);
  |}.
End samlProviderConfigDAO.

(** ** providerConfigClient *)

(** [internal.Request]: the body is the JSON entity of a store, the options
    are query parameters. *)
Record Request := {
  Method : string;
  URL : string;
  Body : option nestedMap;
  Opts : list (string * string);
}.

(** [httpClient.DoAndUnmarshal]: the error of the exchange, or the decoded
    transfer object. *)
Class HTTPClient := DoAndUnmarshal : Request → result samlProviderConfigDAO.t.

Module providerConfigClient.
Record t := { endpoint : string; projectID : string }.

(** The part of [newProviderConfigClient] that does not belong to the
    transport. *)
Definition newProviderConfigClient (ProjectID : string) : t :=
  {| endpoint := providerConfigEndpoint; projectID := ProjectID |}.

Section operations.
Context {lib : GoLib} {http : HTTPClient} {range : MapIteration}.

(** Every operation returns, next to its result, the requests it handed
    to the transport, in order. *)
Definition makeRequest (c : t) (req : Request)
  : result samlProviderConfigDAO.t * list Request :=
  if String.eqb (projectID c) "" then (Err "project id not available", [])
  else
    let req := {| Method := Method req;
                  URL := endpoint c +:+ "/projects/" +:+ projectID c +:+ URL req;
                  Body := Body req;
                  Opts := Opts req |} in
    (DoAndUnmarshal req, [req]).

Definition decoded (sent : result samlProviderConfigDAO.t * list Request)
  : outcome (result SAMLProviderConfig.t * list Request) :=
  match sent with
  | (Err err, reqs) => Done (Err err, reqs)
  | (Ok dao, reqs) =>
      do config <- samlProviderConfigDAO.toSAMLProviderConfig dao;
      Done (Ok config, reqs)
  end.

Definition SAMLProviderConfig (c : t) (id : string)
  : outcome (result SAMLProviderConfig.t * list Request) :=
  match validateSAMLConfigID id with
  | Some err => Done (Err err, [])
  | None =>
      let req := {| Method := "GET";
                    URL := "/inboundSamlConfigs/" +:+ id;
                    Body := None;
                    Opts := [] |} in
      decoded (makeRequest c req)
  end.

Definition CreateSAMLProviderConfig (c : t)
    (config : option SAMLProviderConfigToCreate.t)
  : outcome (result SAMLProviderConfig.t * list Request) :=
  match config with
  | None => Done (Err "config must not be nil", [])
  | Some config =>
      do built <- SAMLProviderConfigToCreate.buildRequest config;
      match built with
      | Err err => Done (Err err, [])
      | Ok (body, id) =>
          let req := {| Method := "POST";
                        URL := "/inboundSamlConfigs";
                        Body := Some body;
                        Opts := [("inboundSamlConfigId", id)] |} in
          decoded (makeRequest c req)
      end
  end.

Definition UpdateSAMLProviderConfig (c : t) (id : string)
    (config : option SAMLProviderConfigToUpdate.t)
  : outcome (result SAMLProviderConfig.t * list Request) :=
  match validateSAMLConfigID id with
  | Some err => Done (Err err, [])
  | None =>
  match config with
  | None => Done (Err "config must not be nil", [])
  | Some config =>
      do built <- SAMLProviderConfigToUpdate.buildRequest config;
      match built with
      | Err err => Done (Err err, [])
      | Ok body =>
          match UpdateMask_run body with
          | Err err => Done (Err ("failed to construct update mask: " +:+ err), [])
          | Ok mask =>
              let req := {| Method := "PATCH";
                            URL := "/inboundSamlConfigs/" +:+ id;
                            Body := Some body;
                            Opts := [("updateMask", strings_Join mask ",")] |} in
              decoded (makeRequest c req)
          end
      end
  end
  end.

Definition DeleteSAMLProviderConfig (c : t) (id : string)
  : option error * list Request :=
  match validateSAMLConfigID id with
  | Some err => (Some err, [])
  | None =>
      let req := {| Method := "DELETE";
                    URL := "/inboundSamlConfigs/" +:+ id;
                    Body := None;
                    Opts := [] |} in
      match makeRequest c req with
      | (Err err, reqs) => (Some err, reqs)
      | (Ok _, reqs) => (None, reqs)
      end
  end.
End operations.
End providerConfigClient.

(** * Vocabulary of the properties *)

(** ** Paths through a store *)

(** The value a sequence of keys leads to, descending through maps only. *)
Fixpoint walk (v : value) (path : list string) : option value :=
  match path with
  | [] => Some v
  | k :: rest =>
      match v with
      | VMap m =>
          match m !! k with
          | Some child => walk child rest
          | None => None
          end
      | _ => None
      end
  end.

(** Two paths part ways: at some position both have a segment and the
    segments differ, so neither is a prefix of the other. *)
Fixpoint diverge (p q : list string) : bool :=
  match p, q with
  | k :: p', k' :: q' => if String.eqb k k' then diverge p' q' else true
  | _, _ => false
  end.

(** Every proper prefix of [segments] that is bound in [m] is bound to a map. *)
Definition prefixes_are_maps (m : gmap string value) (segments : list string) : Prop :=
  ∀ pre post w,
    segments = pre ++ post → pre ≠ [] → post ≠ [] →
    walk (VMap m) pre = Some w → is_map w = true.

(** [sep] does not occur in [s]. *)
Fixpoint free_of (sep : ascii) (s : string) : bool :=
  match s with
  | EmptyString => true
  | String c s' => negb (Ascii.eqb c sep) && free_of sep s'
  end.

(** The number of constructors of a value, the measure for induction
    through nested maps. *)
Fixpoint vsize (v : value) : nat :=
  match v with
  | VMap m => S (map_fold (λ _ child acc, vsize child + acc) 0 m)
  | _ => 1
  end.

(** A leaf of the store: a stored value that is not a nested map, with the
    keys that lead to it. *)
Definition leaf_at (data : gmap string value) (path : list string) : Prop :=
  ∃ v, walk (VMap data) path = Some v ∧ is_map v = false.

(** What one entry adds to the mask, and the mask of [buildMask] entry by
    entry. *)
Definition mask_part (k : string) (v : value) : list string :=
  match v with
  | VMap _ => (λ item, k +:+ "." +:+ item) <$> buildMask_value v
  | _ => [k]
  end.

Definition mask_entries (entries : list (string * value)) : list string :=
  foldr (λ e mask, mask ++ mask_part e.1 e.2) [] entries.

(** ** Builders as sequences of setter calls

    A builder is reached from the zero value by calling setters; [setter]
    names one call of a method both builders have. *)

Inductive setter :=
  | Call_IDPEntityID (entityID : string)
  | Call_SSOURL (url : string)
  | Call_RequestSigningEnabled (enabled : bool)
  | Call_X509Certificates (certs : slice string)
  | Call_RPEntityID (entityID : string)
  | Call_CallbackURL (url : string)
  | Call_DisplayName (name : string)
  | Call_Enabled (enabled : bool).

Inductive create_call :=
  | Call_ID (id : string)
  | Call_field (c : setter).

Definition create_apply (config : SAMLProviderConfigToCreate.t) (c : create_call)
  : outcome SAMLProviderConfigToCreate.t :=
  match c with
  | Call_ID id => SAMLProviderConfigToCreate.ID config id
  | Call_field (Call_IDPEntityID s) => SAMLProviderConfigToCreate.IDPEntityID config s
  | Call_field (Call_SSOURL s) => SAMLProviderConfigToCreate.SSOURL config s
  | Call_field (Call_RequestSigningEnabled b) =>
      SAMLProviderConfigToCreate.RequestSigningEnabled config b
  | Call_field (Call_X509Certificates certs) =>
      SAMLProviderConfigToCreate.X509Certificates config certs
  | Call_field (Call_RPEntityID s) => SAMLProviderConfigToCreate.RPEntityID config s
  | Call_field (Call_CallbackURL s) => SAMLProviderConfigToCreate.CallbackURL config s
  | Call_field (Call_DisplayName s) => SAMLProviderConfigToCreate.DisplayName config s
  | Call_field (Call_Enabled b) => SAMLProviderConfigToCreate.Enabled config b
  end.

Definition update_apply (config : SAMLProviderConfigToUpdate.t) (c : setter)
  : outcome SAMLProviderConfigToUpdate.t :=
  match c with
  | Call_IDPEntityID s => SAMLProviderConfigToUpdate.IDPEntityID config s
  | Call_SSOURL s => SAMLProviderConfigToUpdate.SSOURL config s
  | Call_RequestSigningEnabled b => SAMLProviderConfigToUpdate.RequestSigningEnabled config b
  | Call_X509Certificates certs => SAMLProviderConfigToUpdate.X509Certificates config certs
  | Call_RPEntityID s => SAMLProviderConfigToUpdate.RPEntityID config s
  | Call_CallbackURL s => SAMLProviderConfigToUpdate.CallbackURL config s
  | Call_DisplayName s => SAMLProviderConfigToUpdate.DisplayName config s
  | Call_Enabled b => SAMLProviderConfigToUpdate.Enabled config b
  end.

(** The builder after the calls, made in order on [config]. *)
Fixpoint run {T C} (apply : T → C → outcome T) (config : T) (calls : list C) : outcome T :=
  match calls with
  | [] => Done config
  | c :: rest => do config' <- apply config c; run apply config' rest
  end.

Definition create_builder (calls : list create_call) : outcome SAMLProviderConfigToCreate.t :=
  run create_apply SAMLProviderConfigToCreate.new calls.

Definition update_builder (calls : list setter) : outcome SAMLProviderConfigToUpdate.t :=
  run update_apply SAMLProviderConfigToUpdate.new calls.

(** What the caller supplied: for each field, the argument of the last call
    of its setter, if there was one.  A certificate slice counts by its
    elements. *)
Record fields := {
  f_idpEntityID : option string;
  f_ssoURL : option string;
  f_signRequest : option bool;
  f_certs : option (list string);
  f_rpEntityID : option string;
  f_callbackURL : option string;
  f_displayName : option string;
  f_enabled : option bool;
}.

Definition no_fields : fields :=
  {| f_idpEntityID := None; f_ssoURL := None; f_signRequest := None; f_certs := None;
     f_rpEntityID := None; f_callbackURL := None; f_displayName := None;
     f_enabled := None |}.

Definition supply (f : fields) (c : setter) : fields :=
  match c with
  | Call_IDPEntityID s =>
      {| f_idpEntityID := Some s; f_ssoURL := f_ssoURL f; f_signRequest := f_signRequest f;
         f_certs := f_certs f; f_rpEntityID := f_rpEntityID f;
         f_callbackURL := f_callbackURL f; f_displayName := f_displayName f;
         f_enabled := f_enabled f |}
  | Call_SSOURL s =>
      {| f_idpEntityID := f_idpEntityID f; f_ssoURL := Some s; f_signRequest := f_signRequest f;
         f_certs := f_certs f; f_rpEntityID := f_rpEntityID f;
         f_callbackURL := f_callbackURL f; f_displayName := f_displayName f;
         f_enabled := f_enabled f |}
  | Call_RequestSigningEnabled b =>
      {| f_idpEntityID := f_idpEntityID f; f_ssoURL := f_ssoURL f; f_signRequest := Some b;
         f_certs := f_certs f; f_rpEntityID := f_rpEntityID f;
         f_callbackURL := f_callbackURL f; f_displayName := f_displayName f;
         f_enabled := f_enabled f |}
  | Call_X509Certificates certs =>
      {| f_idpEntityID := f_idpEntityID f; f_ssoURL := f_ssoURL f;
         f_signRequest := f_signRequest f; f_certs := Some (slice_elems certs);
         f_rpEntityID := f_rpEntityID f; f_callbackURL := f_callbackURL f;
         f_displayName := f_displayName f; f_enabled := f_enabled f |}
  | Call_RPEntityID s =>
      {| f_idpEntityID := f_idpEntityID f; f_ssoURL := f_ssoURL f;
         f_signRequest := f_signRequest f; f_certs := f_certs f; f_rpEntityID := Some s;
         f_callbackURL := f_callbackURL f; f_displayName := f_displayName f;
         f_enabled := f_enabled f |}
  | Call_CallbackURL s =>
      {| f_idpEntityID := f_idpEntityID f; f_ssoURL := f_ssoURL f;
         f_signRequest := f_signRequest f; f_certs := f_certs f;
         f_rpEntityID := f_rpEntityID f; f_callbackURL := Some s;
         f_displayName := f_displayName f; f_enabled := f_enabled f |}
  | Call_DisplayName s =>
      {| f_idpEntityID := f_idpEntityID f; f_ssoURL := f_ssoURL f;
         f_signRequest := f_signRequest f; f_certs := f_certs f;
         f_rpEntityID := f_rpEntityID f; f_callbackURL := f_callbackURL f;
         f_displayName := Some s; f_enabled := f_enabled f |}
  | Call_Enabled b =>
      {| f_idpEntityID := f_idpEntityID f; f_ssoURL := f_ssoURL f;
         f_signRequest := f_signRequest f; f_certs := f_certs f;
         f_rpEntityID := f_rpEntityID f; f_callbackURL := f_callbackURL f;
         f_displayName := f_displayName f; f_enabled := Some b |}
  end.

Definition supplied (calls : list setter) : fields := foldl supply no_fields calls.

Definition given {A} (o : option A) : bool :=
  match o with
  | Some _ => true
  | None => false
  end.

Definition any_supplied (f : fields) : bool :=
  given (f_idpEntityID f) || given (f_ssoURL f) || given (f_signRequest f)
  || given (f_certs f) || given (f_rpEntityID f) || given (f_callbackURL f)
  || given (f_displayName f) || given (f_enabled f).

(** The identifier and the fields a sequence of create calls supplies. *)
Definition create_supply (s : string * fields) (c : create_call) : string * fields :=
  match c with
  | Call_ID id => (id, s.2)
  | Call_field c => (s.1, supply s.2 c)
  end.

Definition create_supplied (calls : list create_call) : string * fields :=
  foldl create_supply ("", no_fields) calls.

(** The field a setter writes, the key of a field, and the value a setter
    stores.  Only [DisplayName] differs between the two builders: the update
    builder stores the nil interface for the empty name. *)
Inductive field :=
  | F_idpEntityID | F_ssoURL | F_signRequest | F_certs
  | F_rpEntityID | F_callbackURL | F_displayName | F_enabled.

#[global] Instance field_eq_dec : EqDecision field.
Proof. solve_decision. Defined.

Definition key_of (fld : field) : string :=
  match fld with
  | F_idpEntityID => idpEntityIDKey
  | F_ssoURL => ssoURLKey
  | F_signRequest => signRequestKey
  | F_certs => idpCertsKey
  | F_rpEntityID => spEntityIDKey
  | F_callbackURL => callbackURIKey
  | F_displayName => displayNameKey
  | F_enabled => enabledKey
  end.

Definition field_of (c : setter) : field :=
  match c with
  | Call_IDPEntityID _ => F_idpEntityID
  | Call_SSOURL _ => F_ssoURL
  | Call_RequestSigningEnabled _ => F_signRequest
  | Call_X509Certificates _ => F_certs
  | Call_RPEntityID _ => F_rpEntityID
  | Call_CallbackURL _ => F_callbackURL
  | Call_DisplayName _ => F_displayName
  | Call_Enabled _ => F_enabled
  end.

Definition display_value (upd : bool) (name : string) : value :=
  if upd && String.eqb name "" then VNil else VString name.

Definition value_of (upd : bool) (c : setter) : value :=
  match c with
  | Call_IDPEntityID s | Call_SSOURL s | Call_RPEntityID s | Call_CallbackURL s => VString s
  | Call_RequestSigningEnabled b | Call_Enabled b => VBool b
  | Call_X509Certificates certs => VCerts (wrap_certs certs)
  | Call_DisplayName name => display_value upd name
  end.

(** The value expected under the key of a field, given what was supplied. *)
Definition stored (upd : bool) (f : fields) (fld : field) : option value :=
  match fld with
  | F_idpEntityID => VString <$> f_idpEntityID f
  | F_ssoURL => VString <$> f_ssoURL f
  | F_signRequest => VBool <$> f_signRequest f
  | F_certs => (λ certs, VCerts (wrap_certs (Some certs))) <$> f_certs f
  | F_rpEntityID => VString <$> f_rpEntityID f
  | F_callbackURL => VString <$> f_callbackURL f
  | F_displayName => display_value upd <$> f_displayName f
  | F_enabled => VBool <$> f_enabled f
  end.

Definition reading (o : option value) : value * bool :=
  match o with
  | Some v => (v, true)
  | None => (VNil, false)
  end.

(** The store of a builder holds exactly what was supplied: it is empty
    when nothing was, and each key reads as its field. *)
Definition represents (upd : bool) (params : nestedMap) (f : fields) : Prop :=
  Nat.eqb (nestedMap_len params) 0 = negb (any_supplied f) ∧
  ∀ fld, nestedMap_Get params (key_of fld) = Done (reading (stored upd f fld)).

(** ** The validation the builders are specified to perform

    The checks of sections 4.2 and 4.3, on what the caller supplied.  Each
    check yields the error it reports, and the first failure wins. *)

Fixpoint first_failure (checks : list (option error)) : option error :=
  match checks with
  | [] => None
  | Some err :: _ => Some err
  | None :: rest => first_failure rest
  end.

(** A field that must be present: [msg] when it is absent. *)
Definition required {A} (msg : error) (check : A → option error) (o : option A)
  : option error :=
  match o with
  | Some a => check a
  | None => Some msg
  end.

(** A field checked only when present. *)
Definition optional {A} (check : A → option error) (o : option A) : option error :=
  match o with
  | Some a => check a
  | None => None
  end.

Section checks.
Context {lib : GoLib}.

Definition check_string (msg : error) (s : string) : option error :=
  if String.eqb s "" then Some msg else None.

Definition check_url (msg : error) (what : string) (s : string) : option error :=
  if String.eqb s "" then Some msg
  else match url_ParseRequestURI s with
       | Some err => Some ("failed to parse " +:+ what +:+ ": " +:+ err)
       | None => None
       end.

Definition check_certs (certs : list string) : option error :=
  match certs with
  | [] => Some "X509Certificates must not be empty"
  | _ :: _ =>
      if existsb (λ cert, String.eqb cert "") certs
      then Some "X509Certificates must not contain empty strings"
      else None
  end.

Definition check_id (id : string) : option error :=
  if strings_HasPrefix id "saml." then None
  else Some ("invalid SAML provider id: " +:+ strconv_Quote id).

Definition check_any (msg : error) (f : fields) : option error :=
  if any_supplied f then None else Some msg.

Definition create_checks (id : string) (f : fields) : list (option error) :=
  [ check_id id;
    check_any "no parameters specified in the create request" f;
    required "IDPEntityID must not be empty"
      (check_string "IDPEntityID must not be empty") (f_idpEntityID f);
    required "SSOURL must not be empty"
      (check_url "SSOURL must not be empty" "SSOURL") (f_ssoURL f);
    required "X509Certificates must not be empty" check_certs (f_certs f);
    required "RPEntityID must not be empty"
      (check_string "RPEntityID must not be empty") (f_rpEntityID f);
    required "CallbackURL must not be empty"
      (check_url "CallbackURL must not be empty" "CallbackURL") (f_callbackURL f) ].

Definition update_checks (f : fields) : list (option error) :=
  [ check_any "no parameters specified in the update request" f;
    optional (check_string "IDPEntityID must not be empty") (f_idpEntityID f);
    optional (check_url "SSOURL must not be empty" "SSOURL") (f_ssoURL f);
    optional check_certs (f_certs f);
    optional (check_string "RPEntityID must not be empty") (f_rpEntityID f);
    optional (check_url "CallbackURL must not be empty" "CallbackURL") (f_callbackURL f) ].
End checks.

(** ** Complete and acceptable requests

    What section 8 calls a create request "with all required fields set and
    a valid SSO/callback URL", the omission of one required field, and an
    update request whose supplied fields are all valid. *)

Section requests.
Context {lib : GoLib}.

Definition present_nonempty (o : option string) : bool :=
  match o with
  | Some s => negb (String.eqb s "")
  | None => false
  end.

Definition present_url (o : option string) : bool :=
  match o with
  | Some s => negb (String.eqb s "") && negb (given (url_ParseRequestURI s))
  | None => false
  end.

Definition present_certs (o : option (list string)) : bool :=
  match o with
  | Some certs =>
      negb (Nat.eqb (length certs) 0) && forallb (λ cert, negb (String.eqb cert "")) certs
  | None => false
  end.

Definition complete (id : string) (f : fields) : bool :=
  strings_HasPrefix id "saml."
  && present_nonempty (f_idpEntityID f) && present_url (f_ssoURL f)
  && present_certs (f_certs f)
  && present_nonempty (f_rpEntityID f) && present_url (f_callbackURL f).

Definition unless_absent {A} (valid : option A → bool) (o : option A) : bool :=
  match o with
  | None => true
  | Some _ => valid o
  end.

Definition acceptable (f : fields) : bool :=
  any_supplied f
  && unless_absent present_nonempty (f_idpEntityID f)
  && unless_absent present_url (f_ssoURL f)
  && unless_absent present_certs (f_certs f)
  && unless_absent present_nonempty (f_rpEntityID f)
  && unless_absent present_url (f_callbackURL f).
End requests.

Inductive required_field :=
  | R_idpEntityID | R_ssoURL | R_certs | R_rpEntityID | R_callbackURL.

Definition omit (r : required_field) (f : fields) : fields :=
  {| f_idpEntityID := if r is R_idpEntityID then None else f_idpEntityID f;
     f_ssoURL := if r is R_ssoURL then None else f_ssoURL f;
     f_signRequest := f_signRequest f;
     f_certs := if r is R_certs then None else f_certs f;
     f_rpEntityID := if r is R_rpEntityID then None else f_rpEntityID f;
     f_callbackURL := if r is R_callbackURL then None else f_callbackURL f;
     f_displayName := f_displayName f;
     f_enabled := f_enabled f |}.

Definition missing_message (r : required_field) : error :=
  match r with
  | R_idpEntityID => "IDPEntityID must not be empty"
  | R_ssoURL => "SSOURL must not be empty"
  | R_certs => "X509Certificates must not be empty"
  | R_rpEntityID => "RPEntityID must not be empty"
  | R_callbackURL => "CallbackURL must not be empty"
  end.

(** The calls that are a call of the given field's setter. *)
Definition writes (fld : field) (c : setter) : bool := bool_decide (field_of c = fld).

(** The setter calls among the calls made on a create builder. *)
Definition field_calls (calls : list create_call) : list setter :=
  omap (λ c, match c with Call_field c => Some c | Call_ID _ => None end) calls.

(** No call in [calls] is a call of the setter of [fld]. *)
Definition untouched (fld : field) (calls : list setter) : bool :=
  forallb (λ c, negb (writes fld c)) calls.

(** ** Stand-ins for running examples

    A simple instance of what the file takes from outside: a URI parses when
    it starts with a scheme, [%q] puts the string between double quotes, and
    the transport answers every request with one fixed transfer object. *)

Definition example_lib : GoLib :=
  {| url_ParseRequestURI s :=
       if strings_HasPrefix s "https://" then None
       else Some ("parse " +:+ s +:+ ": invalid URI for request");
     strconv_Quote s :=
       String (Ascii.ascii_of_nat 34) (s +:+ String (Ascii.ascii_of_nat 34) "") |}.

Definition example_dao : samlProviderConfigDAO.t :=
  {| samlProviderConfigDAO.Name := "projects/p1/inboundSamlConfigs/saml.provider1";
     samlProviderConfigDAO.IDPConfig :=
       {| samlProviderConfigDAO.IDPEntityID := "IDP_ENTITY_ID";
          samlProviderConfigDAO.SSOURL := "https://example.com/login";
          samlProviderConfigDAO.IDPCertificates :=
            Some [ {| X509Certificate := "CERT1" |}; {| X509Certificate := "CERT2" |} ];
          samlProviderConfigDAO.SignRequest := true |};
     samlProviderConfigDAO.SPConfig :=
       {| samlProviderConfigDAO.SPEntityID := "RP_ENTITY_ID";
          samlProviderConfigDAO.CallbackURI := "https://projectId.firebaseapp.com/__/auth/handler" |};
     samlProviderConfigDAO.DisplayName := "samlProviderName";
     samlProviderConfigDAO.Enabled := true |}.

Definition example_http : HTTPClient := λ _, Ok example_dao.

Definition example_calls : list create_call :=
  [ Call_ID "saml.provider1";
    Call_field (Call_IDPEntityID "IDP_ENTITY_ID");
    Call_field (Call_SSOURL "https://example.com/login");
    Call_field (Call_X509Certificates (Some ["CERT1"; "CERT2"]));
    Call_field (Call_RPEntityID "RP_ENTITY_ID");
    Call_field (Call_CallbackURL "https://projectId.firebaseapp.com/__/auth/handler") ].

(** ** Stores that are trees

    [leaf v] is the value [v] as a tree, when [v] is not a map. *)
Definition leaf (v : iface) : option value :=
  match v with
  | INil => Some VNil
  | IString s => Some (VString s)
  | IBool b => Some (VBool b)
  | ICerts certs => Some (VCerts certs)
  | IMap _ => None
  end.

(** [owns h fp v t]: in the heap [h] the value [v] is the tree [t], and the
    maps it is built from are at locations of [fp].  A map of the tree is not
    nil, it is in the heap, and its entries are built from sets of locations
    [part k] that are disjoint from one key to the other and do not hold the
    map itself: no map is held under two keys, and none holds itself. *)
Inductive owns (h : heap) : gset loc → iface → value → Prop :=
  | owns_leaf fp v t :
      leaf v = Some t →
      owns h fp v t
  | owns_map fp l entries m (part : string → gset loc) :
      h !! l = Some entries →
      l ∈ fp →
      (∀ k, entries !! k = None ↔ m !! k = None) →
      (∀ k v t, entries !! k = Some v → m !! k = Some t → owns h (part k) v t) →
      (∀ k, part k ⊆ fp ∧ l ∉ part k) →
      (∀ k k', k ≠ k' → part k ## part k') →
      owns h fp (IMap (Some l)) (VMap m).

(** The store at [l] is the tree [m], built from maps of the heap. *)
Definition holds_tree (h : heap) (l : loc) (m : gmap string value) : Prop :=
  owns h (dom h) (IMap (Some l)) (VMap m).

(** The heap after [Set] has made a map for the absent segment [k] of the
    map at [l]: [newChild := make(...); curr[segment] = newChild]. *)
Definition heap_grow (h : heap) (l : loc) (k : string) : heap :=
  let '(newChild, h1) := heap_make h in
  <[l := <[k := IMap (Some newChild)]> (heap_entries h1 (Some l))]> h1.

(** ** Further vocabulary: the shape of a builder's store, and requests *)

(** Every path of the store begins a field key, and the leaves sit exactly
    at the field keys. *)
Definition within_keys (m : gmap string value) : Prop :=
  ∀ path v,
    path ≠ [] → walk (VMap m) path = Some v →
    ∃ fld rest,
      strings_Split (key_of fld) "." = path ++ rest ∧ (is_map v = false ↔ rest = []).

(** The field a call on the create builder writes; [ID] writes none. *)
Definition create_field (c : create_call) : option field :=
  match c with
  | Call_ID _ => None
  | Call_field c => Some (field_of c)
  end.

(** The read model of a transfer object, as a total function: the
    identifier is the last segment of the name. *)
Definition mapped (dao : samlProviderConfigDAO.t) : SAMLProviderConfig.t :=
  {| SAMLProviderConfig.ID :=
       default "" (last (strings_Split (samlProviderConfigDAO.Name dao) "/"));
     SAMLProviderConfig.DisplayName := samlProviderConfigDAO.DisplayName dao;
     SAMLProviderConfig.Enabled := samlProviderConfigDAO.Enabled dao;
     SAMLProviderConfig.IDPEntityID :=
       samlProviderConfigDAO.IDPEntityID (samlProviderConfigDAO.IDPConfig dao);
     SAMLProviderConfig.SSOURL :=
       samlProviderConfigDAO.SSOURL (samlProviderConfigDAO.IDPConfig dao);
     SAMLProviderConfig.RequestSigningEnabled :=
       samlProviderConfigDAO.SignRequest (samlProviderConfigDAO.IDPConfig dao);
     SAMLProviderConfig.X509Certificates :=
       foldl (λ certs cert, append certs (X509Certificate cert)) None
             (slice_elems (samlProviderConfigDAO.IDPCertificates
                             (samlProviderConfigDAO.IDPConfig dao)));
     SAMLProviderConfig.RPEntityID :=
       samlProviderConfigDAO.SPEntityID (samlProviderConfigDAO.SPConfig dao);
     SAMLProviderConfig.CallbackURL :=
       samlProviderConfigDAO.CallbackURI (samlProviderConfigDAO.SPConfig dao) |}.

(** What an operation returns once the transport has answered. *)
Definition relayed (answer : result samlProviderConfigDAO.t) : result SAMLProviderConfig.t :=
  match answer with
  | Err err => Err err
  | Ok dao => Ok (mapped dao)
  end.

(** The request of an operation on [path] below the project of the client. *)
Definition request_to (c : providerConfigClient.t) (method path : string)
    (body : option nestedMap) (opts : list (string * string)) : Request :=
  {| Method := method;
     URL := providerConfigClient.endpoint c +:+ "/projects/"
            +:+ providerConfigClient.projectID c +:+ path;
     Body := body;
     Opts := opts |}.

(** The local checks of the client operations, as the errors they report. *)
Definition check_builder {A} (config : option A) : option error :=
  match config with
  | Some _ => None
  | None => Some "config must not be nil"
  end.

Definition check_project (c : providerConfigClient.t) : option error :=
  if String.eqb (providerConfigClient.projectID c) "" then Some "project id not available"
  else None.

(** The builder an operation is called with: nil, or the builder a sequence
    of calls yields. *)
Definition built_from {T C} (builder : list C → outcome T) (calls : option (list C))
    (config : option T) : Prop :=
  match calls with
  | None => config = None
  | Some l => ∃ b, builder l = Done b ∧ config = Some b
  end.

(** * Properties *)

(** ** The store on the examples of section 8 *)

Example Get_after_Set :
  (do nm <- nestedMap_Set (Some ∅) "a.b.c" (VBool true); nestedMap_Get nm "a.b.c")
  = Done (VBool true, true).
Proof. reflexivity. Qed.

Example buildMask_x_ab :
  buildMask (<["x" := VNil]> (<["a" := VMap {["b" := VBool true]}]> ∅)) = ["x"; "a.b"].
Proof. vm_compute. reflexivity. Qed.

(** ** Strings *)

Section strings_facts.
Implicit Types (s : string) (sep : ascii).

Lemma strings_Split_nonempty s sep : strings_Split s sep ≠ [].
Proof.
  destruct s as [|c s]; simpl; [done|].
  destruct (Ascii.eqb c sep); [done|].
  by destruct (strings_Split s sep).
Qed.

Lemma strings_Split_app s1 s2 sep :
  strings_Split (s1 +:+ String sep s2) sep
  = strings_Split s1 sep ++ strings_Split s2 sep.
Proof.
  induction s1 as [|c s1 IH]; simpl.
  - by rewrite Ascii.eqb_refl.
  - destruct (Ascii.eqb c sep); [by rewrite IH|].
    rewrite IH. pose proof (strings_Split_nonempty s1 sep).
    by destruct (strings_Split s1 sep).
Qed.

Lemma strings_Split_free s sep : free_of sep s = true → strings_Split s sep = [s].
Proof.
  induction s as [|c s IH]; simpl; [done|].
  intros [Hc Hs]%andb_prop. apply negb_true_iff in Hc. rewrite Hc.
  by rewrite IH.
Qed.

Lemma append_assoc (s1 s2 s3 : string) : (s1 +:+ s2) +:+ s3 = s1 +:+ (s2 +:+ s3).
Proof.
  induction s1 as [|c s1 IH]; [done|].
  change (String c ((s1 +:+ s2) +:+ s3) = String c (s1 +:+ (s2 +:+ s3))).
  by rewrite IH.
Qed.
End strings_facts.

(** ** Get and Set along a list of segments *)

Section loops.
Implicit Types (m curr : gmap string value) (v w : value).
Implicit Types (segments pre post p q : list string).

Lemma walk_app v p q : walk v (p ++ q) = walk v p ≫= λ w, walk w q.
Proof.
  revert v. induction p as [|k p IH]; intros v; simpl; [done|].
  destruct v as [| | | |m]; try done.
  destruct (m !! k); [apply IH|done].
Qed.

Lemma walk_cons_Some v k p w :
  walk v (k :: p) = Some w → ∃ m child, v = VMap m ∧ m !! k = Some child ∧ walk child p = Some w.
Proof.
  simpl. destruct v as [| | | |m]; try done.
  destruct (m !! k) as [child|] eqn:Hk; [|done]. eauto.
Qed.

(** [Get] reads what the path leads to. *)
Lemma Get_loop_walk m segments w :
  segments ≠ [] → walk (VMap m) segments = Some w → Get_loop m segments = Done (w, true).
Proof.
  revert m. induction segments as [|k rest IH]; intros m Hne Hw; [done|].
  apply walk_cons_Some in Hw as (m' & child & [= <-] & Hk & Hw).
  simpl. unfold index. rewrite Hk. destruct rest as [|k' rest].
  - simpl in Hw. by inversion Hw.
  - simpl. apply walk_cons_Some in Hw as (c & child' & -> & Hk' & Hw).
    apply (IH c); [done|]. simpl. by rewrite Hk'.
Qed.

Lemma Get_loop_step m k child rest :
  rest ≠ [] → m !! k = Some (VMap child) →
  Get_loop m (k :: rest) = Get_loop child rest.
Proof.
  intros Hrest Hk. destruct rest as [|k' rest]; [done|].
  simpl. unfold index. by rewrite Hk.
Qed.

(** Below a prefix that leads to a map, [Get] continues from that map. *)
Lemma Get_loop_app m pre post curr :
  post ≠ [] → walk (VMap m) pre = Some (VMap curr) →
  Get_loop m (pre ++ post) = Get_loop curr post.
Proof.
  intros Hpost. revert m. induction pre as [|k pre IH]; intros m Hw.
  - simpl in Hw. by inversion Hw.
  - apply walk_cons_Some in Hw as (m' & child & [= <-] & Hk & Hw).
    assert (∃ c, child = VMap c) as [c ->].
    { destruct pre as [|k2 pre].
      - simpl in Hw. inversion Hw. eauto.
      - apply walk_cons_Some in Hw as (c & ? & -> & _ & _). eauto. }
    change ((k :: pre) ++ post) with (k :: (pre ++ post)).
    rewrite (Get_loop_step m k c); [by apply IH| |done].
    intros [_ ?]%app_eq_nil. done.
Qed.

Lemma Get_loop_absent curr seg post :
  curr !! seg = None → Get_loop curr (seg :: post) = Done (VNil, false).
Proof.
  intros Hk. simpl. unfold index. rewrite Hk. by destruct post.
Qed.

Lemma Get_loop_not_map curr seg post v :
  post ≠ [] → curr !! seg = Some v → is_map v = false →
  Get_loop curr (seg :: post) = Panic.
Proof.
  intros Hpost Hk Hv. simpl. unfold index. rewrite Hk.
  destruct post; [done|]. simpl. by destruct v.
Qed.

(** The only way [Get] panics. *)
Lemma Get_loop_Panic m segments :
  Get_loop m segments = Panic →
  ∃ pre seg post curr v,
    segments = pre ++ seg :: post ∧ post ≠ [] ∧
    walk (VMap m) pre = Some (VMap curr) ∧ curr !! seg = Some v ∧ is_map v = false.
Proof.
  revert m. induction segments as [|k rest IH]; intros m; [done|].
  simpl. unfold index. destruct (m !! k) as [val|] eqn:Hk.
  - destruct rest as [|k' rest]; [done|]. simpl.
    destruct val as [| | | |child].
    1-4: intros _; eexists [], k, (k' :: rest), m, _;
         by repeat split; [..|exact Hk|].
    intros (pre & seg & post & curr & v & Hseg & Hpost & Hw & Hs & Hv)%IH.
    exists (k :: pre), seg, post, curr, v. repeat split; try done.
    + by rewrite Hseg.
    + simpl. by rewrite Hk.
  - by destruct rest.
Qed.

Lemma Set_loop_nonempty m segments v m' :
  segments ≠ [] → Set_loop m segments v = Done m' → m' ≠ ∅.
Proof.
  destruct segments as [|k rest]; [done|]. intros _. simpl.
  destruct rest as [|k' rest].
  - intros [= <-]. apply insert_non_empty.
  - destruct (m !! k) as [[| | | |child]|]; try done.
    + destruct (Set_loop child (k' :: rest) v); [|done].
      intros [= <-]. apply insert_non_empty.
    + destruct (Set_loop ∅ (k' :: rest) v); [|done].
      intros [= <-]. apply insert_non_empty.
Qed.

(** [Set] on a fresh map never panics. *)
Lemma Set_loop_empty segments v : ∃ m', Set_loop ∅ segments v = Done m'.
Proof.
  induction segments as [|k rest IH]; simpl; [eauto|].
  destruct rest as [|k' rest]; [eauto|].
  rewrite lookup_empty. destruct IH as [m' ->]. simpl. eauto.
Qed.

(** [Set] succeeds exactly when the bound proper prefixes are maps. *)
Lemma Set_loop_Done m segments v :
  prefixes_are_maps m segments → ∃ m', Set_loop m segments v = Done m'.
Proof.
  revert m. induction segments as [|k rest IH]; intros m Hm; simpl; [eauto|].
  destruct rest as [|k' rest]; [eauto|].
  destruct (m !! k) as [val|] eqn:Hk.
  - assert (is_map val = true) as Hval.
    { apply (Hm [k] (k' :: rest)); try done. simpl. by rewrite Hk. }
    destruct val as [| | | |child]; try done.
    destruct (IH child) as [child' ->]; [|simpl; eauto].
    intros pre post w Hseg Hpre Hpost Hw.
    apply (Hm (k :: pre) post); try done.
    + by rewrite Hseg.
    + simpl. by rewrite Hk.
  - destruct (Set_loop_empty (k' :: rest) v) as [m' ->]. simpl. eauto.
Qed.

Lemma Set_loop_Panic m segments v :
  Set_loop m segments v = Panic → ¬ prefixes_are_maps m segments.
Proof.
  revert m. induction segments as [|k rest IH]; intros m; simpl; [done|].
  destruct rest as [|k' rest]; [done|].
  destruct (m !! k) as [val|] eqn:Hk.
  - intros HP Hm.
    assert (is_map val = true) as Hval.
    { apply (Hm [k] (k' :: rest)); try done. simpl. by rewrite Hk. }
    destruct val as [| | | |child]; try done.
    destruct (Set_loop child (k' :: rest) v) eqn:Hc; [done|].
    apply (IH child); [done|].
    intros pre post w Hseg Hpre Hpost Hw.
    apply (Hm (k :: pre) post); try done.
    + by rewrite Hseg.
    + simpl. by rewrite Hk.
  - destruct (Set_loop_empty (k' :: rest) v) as [m' ->]. done.
Qed.

(** A [Get] that returns means the bound proper prefixes are maps. *)
Lemma Get_loop_prefixes m segments r :
  Get_loop m segments = Done r → prefixes_are_maps m segments.
Proof.
  intros HG pre post w Hseg Hpre Hpost Hw.
  destruct (is_map w) eqn:Hmap; [done|]. exfalso.
  induction pre as [|seg pre _] using rev_ind; [done|].
  rewrite walk_app in Hw.
  destruct (walk (VMap m) pre) as [u|] eqn:Hu; [|done]. simpl in Hw.
  destruct u as [| | | |curr]; try done.
  destruct (curr !! seg) as [x|] eqn:Hx; [|done]. inversion Hw; subst x.
  rewrite Hseg, <- app_assoc in HG.
  rewrite (Get_loop_app _ _ _ curr) in HG; [|done..].
  simpl app in HG. by rewrite (Get_loop_not_map _ _ _ w) in HG.
Qed.

Lemma Set_loop_step m k rest v :
  rest ≠ [] →
  Set_loop m (k :: rest) v =
    match m !! k with
    | Some (VMap child) =>
        do child' <- Set_loop child rest v; Done (<[k := VMap child']> m)
    | Some _ => Panic
    | None =>
        do newChild <- Set_loop ∅ rest v; Done (<[k := VMap newChild]> m)
    end.
Proof. by destruct rest. Qed.

(** One step of [Set] below the last segment: the level written to is the
    child already there, or a fresh one. *)
Lemma Set_loop_inv m k rest v m' :
  rest ≠ [] → Set_loop m (k :: rest) v = Done m' →
  ∃ child child',
    (m !! k = Some (VMap child) ∨ m !! k = None ∧ child = ∅) ∧
    Set_loop child rest v = Done child' ∧ m' = <[k := VMap child']> m.
Proof.
  intros Hrest. rewrite Set_loop_step by done.
  destruct (m !! k) as [[| | | |child]|]; try done.
  - destruct (Set_loop child rest v) as [child'|] eqn:Hc; [|done].
    intros [= <-]. exists child, child'. eauto.
  - destruct (Set_loop ∅ rest v) as [child'|] eqn:Hc; [|done].
    intros [= <-]. exists ∅, child'. eauto.
Qed.

(** After [Set], the path leads to the value. *)
Lemma Set_loop_walk m segments v m' :
  segments ≠ [] → Set_loop m segments v = Done m' →
  walk (VMap m') segments = Some v.
Proof.
  revert m m'. induction segments as [|k rest IH]; intros m m' Hne HS; [done|].
  destruct (decide (rest = [])) as [->|Hrest].
  - inversion HS; subst m'. simpl. by rewrite lookup_insert_eq.
  - apply Set_loop_inv in HS as (child & child' & _ & Hc & ->); [|done].
    cbn [walk]. rewrite lookup_insert_eq. by apply (IH child).
Qed.

(** After [Set], every proper prefix of the path leads to a map. *)
Lemma Set_loop_levels m segments v m' pre post :
  Set_loop m segments v = Done m' → segments = pre ++ post → post ≠ [] →
  ∃ level, walk (VMap m') pre = Some (VMap level).
Proof.
  revert m m' pre. induction segments as [|k rest IH]; intros m m' pre.
  { intros _ Hseg Hpost. symmetry in Hseg. by apply app_eq_nil in Hseg as [_ ?]. }
  destruct pre as [|k0 pre]; [simpl; eauto|].
  intros HS [= <- ->] Hpost.
  apply Set_loop_inv in HS as (child & child' & _ & Hc & ->).
  - cbn [walk]. rewrite lookup_insert_eq. by eapply IH.
  - by intros [_ ?]%app_eq_nil.
Qed.

(** Where [Set] returns, [Get] did too. *)
Lemma Set_loop_Get_loop m segments v m' :
  Set_loop m segments v = Done m' → ∃ r, Get_loop m segments = Done r.
Proof.
  revert m m'. induction segments as [|k rest IH]; intros m m' HS; [simpl; eauto|].
  destruct (decide (rest = [])) as [->|Hrest].
  { simpl. destruct (index m k). eauto. }
  apply Set_loop_inv in HS as (child & child' & Hchild & Hc & _); [|done].
  destruct Hchild as [Hk|[Hk _]].
  - rewrite (Get_loop_step m k child) by done. by eapply IH.
  - rewrite Get_loop_absent by done. eauto.
Qed.

Lemma Set_loop_prefixes m segments v m' :
  Set_loop m segments v = Done m' → prefixes_are_maps m segments.
Proof.
  intros [r Hr]%Set_loop_Get_loop. by eapply Get_loop_prefixes.
Qed.

(** With maps at the bound proper prefixes, [Get] returns. *)
Lemma Get_loop_Done m segments :
  prefixes_are_maps m segments → ∃ r, Get_loop m segments = Done r.
Proof.
  intros Hm. destruct (Get_loop m segments) as [r|] eqn:HG; [eauto|].
  apply Get_loop_Panic in HG as (pre & seg & post & curr & v & Hseg & Hpost & Hw & Hs & Hv).
  assert (is_map v = true) as Hv'; [|congruence].
  apply (Hm (pre ++ [seg]) post).
  - by rewrite Hseg, <- app_assoc.
  - by intros [_ ?]%app_eq_nil.
  - done.
  - rewrite walk_app, Hw. simpl. by rewrite Hs.
Qed.

Lemma diverge_cons k p k' q :
  diverge (k :: p) (k' :: q) = true → k ≠ k' ∨ (k = k' ∧ diverge p q = true).
Proof.
  simpl. destruct (String.eqb_spec k k'); [right|left]; done.
Qed.

(** [Set] leaves alone what [Get] returns on a path that parts ways with
    the one written. *)
Lemma Get_Set_loop_diverge m segments v m' p :
  diverge segments p = true → Set_loop m segments v = Done m' →
  Get_loop m' p = Get_loop m p.
Proof.
  revert m m' p. induction segments as [|k rest IH]; intros m m' p; [done|].
  destruct p as [|k0 p]; [done|]. intros Hd HS.
  assert (∃ x, m' = <[k:=x]> m) as [x Hm'].
  { destruct (decide (rest = [])) as [->|Hrest].
    - inversion HS. eauto.
    - apply Set_loop_inv in HS as (? & ? & _ & _ & ->); eauto. }
  apply diverge_cons in Hd as [Hk|[<- Hd]].
  { subst m'. simpl. unfold index. by rewrite lookup_insert_ne. }
  clear x Hm'. destruct rest as [|k' rest]; [done|].
  destruct p as [|k1 p]; [done|].
  apply Set_loop_inv in HS as (child & child' & Hchild & Hc & ->); [|done].
  rewrite (Get_loop_step _ k child'); [| done | by rewrite lookup_insert_eq].
  rewrite (IH child child' (k1 :: p) Hd Hc).
  destruct Hchild as [Hk|[Hk ->]].
  - by rewrite (Get_loop_step m k child).
  - rewrite (Get_loop_absent m) by done. by apply Get_loop_absent.
Qed.
End loops.

(** ** The update mask *)

Section mask.
Implicit Types (data m : gmap string value) (v : value) (path : list string).

Lemma vsize_lookup m k v : m !! k = Some v → (vsize v < vsize (VMap m))%nat.
Proof.
  cbn [vsize]. intros Hk. apply Nat.lt_succ_r. revert k v Hk.
  apply (map_fold_weak_ind (λ acc m, ∀ k v, m !! k = Some v → (vsize v ≤ acc)%nat)).
  - intros k v. by rewrite lookup_empty.
  - intros i x m' r _ IH k v. rewrite lookup_insert. case_decide.
    + intros [= ->]. lia.
    + intros Hk%IH. lia.
Qed.

(** Induction on values, with the hypothesis for every entry of a map. *)
Lemma value_map_ind (P : value → Prop) :
  (∀ v, is_map v = false → P v) →
  (∀ m, (∀ k v, m !! k = Some v → P v) → P (VMap m)) →
  ∀ v, P v.
Proof.
  intros Hleaf Hmap v.
  induction (Nat.lt_wf_0_projected vsize v) as [v _ IH].
  destruct v as [| | | |m]; try by apply Hleaf.
  apply Hmap. intros k v Hk. apply IH. by eapply vsize_lookup.
Qed.

(** One level of [buildMask]: what each entry contributes. *)
Lemma elem_of_buildMask data p :
  p ∈ buildMask data ↔
  ∃ k v, data !! k = Some v ∧
         if is_map v then ∃ item, item ∈ buildMask_value v ∧ p = k +:+ "." +:+ item
         else p = k.
Proof.
  unfold buildMask. cbn [buildMask_value]. revert p.
  apply (map_fold_weak_ind (λ mask m, ∀ p, p ∈ mask ↔
    ∃ k v, m !! k = Some v ∧
           if is_map v then ∃ item, item ∈ buildMask_value v ∧ p = k +:+ "." +:+ item
           else p = k)).
  - intros p. split; [by intros ?%elem_of_nil|].
    intros (k & v & Hk & _). by rewrite lookup_empty in Hk.
  - intros i x m r Hi IH p.
    assert (p ∈ (match x with
                 | VMap _ => r ++ ((λ item, i +:+ "." +:+ item) <$> buildMask_value x)
                 | _ => r ++ [i]
                 end) ↔
            p ∈ r ∨ (if is_map x
                     then ∃ item, item ∈ buildMask_value x ∧ p = i +:+ "." +:+ item
                     else p = i)) as ->.
    { destruct x; simpl is_map; cbv iota; rewrite elem_of_app;
        rewrite ?list_elem_of_singleton, ?list_elem_of_fmap; [done..|].
      split; (intros [?|(item & ? & ?)]; [by left|right; eauto]). }
    rewrite IH. split.
    + intros [(k & v & Hk & Hp)|Hp].
      * exists k, v. split; [|done]. rewrite lookup_insert_ne; [done|].
        intros <-. by rewrite Hi in Hk.
      * exists i, x. by rewrite lookup_insert_eq.
    + intros (k & v & Hk & Hp). rewrite lookup_insert in Hk. case_decide.
      * inversion Hk; subst. by right.
      * left. eauto.
Qed.

Lemma strings_Join_cons k path :
  path ≠ [] → strings_Join (k :: path) "." = k +:+ "." +:+ strings_Join path ".".
Proof. by destruct path. Qed.

Lemma buildMask_leaf data p :
  p ∈ buildMask data → ∃ path, leaf_at data path ∧ p = strings_Join path ".".
Proof.
  change (buildMask data) with (buildMask_value (VMap data)).
  assert (∀ v p, p ∈ buildMask_value v →
            ∃ path w, path ≠ [] ∧ walk v path = Some w ∧ is_map w = false ∧
                      p = strings_Join path ".") as Hgen.
  { clear. intros v. induction v as [v Hv|m IH] using value_map_ind; intros p.
    { destruct v; try done; by intros ?%elem_of_nil. }
    change (buildMask_value (VMap m)) with (buildMask m).
    intros (k & x & Hk & Hp)%elem_of_buildMask.
    destruct (is_map x) eqn:Hx.
    - destruct Hp as (item & Hitem & ->).
      destruct (IH k x Hk item Hitem) as (path & w & Hne & Hw & Hleaf & ->).
      exists (k :: path), w. repeat split; try done.
      + simpl. by rewrite Hk.
      + by rewrite strings_Join_cons.
    - subst p. exists [k], x. repeat split; try done. simpl. by rewrite Hk. }
  intros (path & w & _ & Hw & Hleaf & ->)%Hgen. exists path. split; [|done].
  by exists w.
Qed.

Lemma leaf_buildMask data path :
  leaf_at data path → strings_Join path "." ∈ buildMask data.
Proof.
  intros (w & Hw & Hleaf). revert data Hw.
  induction path as [|k rest IH]; intros data Hw.
  { simpl in Hw. by inversion Hw; subst. }
  apply walk_cons_Some in Hw as (m & x & [= <-] & Hk & Hw).
  apply elem_of_buildMask. exists k, x. split; [done|].
  destruct rest as [|k' rest].
  - simpl in Hw. inversion Hw; subst x. by rewrite Hleaf.
  - apply walk_cons_Some in Hw as Hx. destruct Hx as (c & ? & -> & _ & _).
    simpl is_map. cbv iota. exists (strings_Join (k' :: rest) "."). split.
    + by apply IH.
    + by rewrite strings_Join_cons.
Qed.
End mask.

(** ** The mask under every iteration order *)

Section orders.
Implicit Types (data child : gmap string value) (entries : list (string * value)).

Lemma buildMask_entries data : buildMask data = mask_entries (map_to_list data).
Proof.
  unfold buildMask, mask_entries. cbn [buildMask_value]. rewrite map_fold_foldr.
  apply foldr_ext; [|done..]. intros [k v] mask. simpl. by destruct v.
Qed.

Lemma mask_entries_Permutation entries entries' :
  entries ≡ₚ entries' → mask_entries entries ≡ₚ mask_entries entries'.
Proof.
  unfold mask_entries. induction 1 as [|e l l' _ IH|e e' l|l l' l'' _ IH _ IH']; simpl.
  - done.
  - by rewrite IH.
  - rewrite <- !app_assoc. f_equiv. apply app_Permutation_comm.
  - by rewrite IH.
Qed.

(** Whatever the order, the mask is a rearrangement of the one computed. *)
Lemma buildMask_over_Permutation entries mask :
  buildMask_over entries mask → mask ≡ₚ mask_entries entries.
Proof.
  induction 1 as [|k v rest mask Hv _ IH|k child rest entries childMask mask Hperm _ IHc _ IH].
  - done.
  - unfold mask_entries. cbn [foldr]. fold (mask_entries rest). rewrite <- IH.
    rewrite (app_Permutation_comm mask). by destruct v.
  - unfold mask_entries. cbn [foldr]. fold (mask_entries rest). rewrite <- IH.
    rewrite (app_Permutation_comm mask). f_equiv. cbn [mask_part fst snd].
    f_equiv. change (buildMask_value (VMap child)) with (buildMask child).
    rewrite buildMask_entries, IHc. by apply mask_entries_Permutation.
Qed.

Lemma buildMask_returns_Permutation data mask :
  buildMask_returns data mask → mask ≡ₚ buildMask data.
Proof.
  intros (entries & Hperm & Hover). rewrite buildMask_entries.
  rewrite (buildMask_over_Permutation _ _ Hover). by apply mask_entries_Permutation.
Qed.

Lemma buildMask_over_app entries1 mask1 entries2 mask2 :
  buildMask_over entries1 mask1 → buildMask_over entries2 mask2 →
  buildMask_over (entries1 ++ entries2) (mask1 ++ mask2).
Proof.
  intros H1 H2. induction H1; simpl; [done|..].
  - by apply over_leaf.
  - rewrite <- app_assoc. by eapply over_map.
Qed.

(** The mask computed is the one of an iteration order. *)
Lemma buildMask_returns_buildMask data : buildMask_returns data (buildMask data).
Proof.
  enough (∀ v c, v = VMap c → buildMask_returns c (buildMask c)) as Hgen
    by (by apply (Hgen (VMap data))).
  clear data. intros v.
  induction v as [v Hv|m IH] using value_map_ind; intros c Hc; [by subst|].
  inversion Hc; subst c. clear Hc.
  exists (reverse (map_to_list m)). split; [apply reverse_Permutation|].
  rewrite buildMask_entries.
  assert (∀ k v, (k, v) ∈ map_to_list m → m !! k = Some v) as Hin
    by (intros k v; by rewrite elem_of_map_to_list).
  revert Hin. generalize (map_to_list m). intros l.
  induction l as [|[k v] l IHl]; intros Hin; [constructor|].
  rewrite reverse_cons. unfold mask_entries. cbn [foldr]. fold (mask_entries l).
  apply buildMask_over_app.
  { apply IHl. intros k' v' Hk'. apply Hin. by right. }
  cbn [fst snd]. rewrite <- (app_nil_r (mask_part k v)).
  destruct (is_map v) eqn:Hv.
  - destruct v as [| | | |child]; try done. cbn [mask_part].
    destruct (IH k (VMap child)) with (c := child) as (entries & Hperm & Hover);
      [apply Hin; by left|done|].
    by eapply over_map; [..|constructor].
  - replace (mask_part k v) with [k] by (by destruct v). by apply over_leaf; [|constructor].
Qed.
End orders.

(** ** The builders hold what was supplied *)

Section builders.
Implicit Types (upd : bool) (params : nestedMap) (f : fields) (c : setter).

Lemma keys_diverge fld fld' :
  fld ≠ fld' →
  diverge (strings_Split (key_of fld) ".") (strings_Split (key_of fld') ".") = true.
Proof. destruct fld, fld'; intros Hne; try done; vm_compute; reflexivity. Qed.

Lemma stored_supply_same upd f c :
  stored upd (supply f c) (field_of c) = Some (value_of upd c).
Proof. destruct c; try done. Qed.

Lemma stored_supply_other upd f c fld :
  fld ≠ field_of c → stored upd (supply f c) fld = stored upd f fld.
Proof. destruct c, fld; done. Qed.

Lemma any_supplied_supply f c : any_supplied (supply f c) = true.
Proof.
  destruct c; unfold any_supplied; simpl; rewrite ?orb_true_r; done.
Qed.

Lemma represents_new upd : represents upd None no_fields.
Proof. split; [done|]. intros fld. destruct fld; vm_compute; reflexivity. Qed.

(** Writing the value of a setter under its key keeps the store in step
    with what was supplied, and never panics. *)
Lemma represents_Set upd params f c :
  represents upd params f →
  ∃ m', nestedMap_Set (Some (entries params)) (key_of (field_of c)) (value_of upd c)
        = Done (Some m') ∧
        represents upd (Some m') (supply f c).
Proof.
  intros [_ HG]. unfold nestedMap_Set.
  pose proof (strings_Split_nonempty (key_of (field_of c)) ".") as Hne.
  destruct (Set_loop_Done (entries params) (strings_Split (key_of (field_of c)) ".")
              (value_of upd c)) as [m' HS].
  { eapply Get_loop_prefixes. apply (HG (field_of c)). }
  exists m'. rewrite HS. split; [done|]. split.
  - rewrite any_supplied_supply. apply Nat.eqb_neq. unfold nestedMap_len. simpl.
    intros Hsize%map_size_empty_iff. by eapply Set_loop_nonempty.
  - intros fld. unfold nestedMap_Get. simpl entries.
    destruct (decide (fld = field_of c)) as [->|Hfld].
    + rewrite stored_supply_same. apply Get_loop_walk; [done|].
      by eapply Set_loop_walk.
    + rewrite stored_supply_other by done.
      rewrite (Get_Set_loop_diverge _ _ _ _ _ (keys_diverge _ _ (not_eq_sym Hfld)) HS).
      apply HG.
Qed.

Lemma create_apply_field config c :
  create_apply config (Call_field c)
  = SAMLProviderConfigToCreate.set config (key_of (field_of c)) (value_of false c).
Proof. by destruct c. Qed.

Lemma update_apply_set config c :
  update_apply config c
  = SAMLProviderConfigToUpdate.set config (key_of (field_of c)) (value_of true c).
Proof.
  destruct c; try done. simpl.
  unfold SAMLProviderConfigToUpdate.DisplayName, display_value.
  by destruct (String.eqb name "").
Qed.

Lemma create_run_represents calls config s :
  SAMLProviderConfigToCreate.id config = s.1 →
  represents false (SAMLProviderConfigToCreate.params config) s.2 →
  ∃ config',
    run create_apply config calls = Done config' ∧
    SAMLProviderConfigToCreate.id config' = (foldl create_supply s calls).1 ∧
    represents false (SAMLProviderConfigToCreate.params config')
               (foldl create_supply s calls).2.
Proof.
  revert config s. induction calls as [|c calls IH]; intros config s Hid Hrep.
  { exists config. done. }
  destruct c as [id|c]; cbn [run foldl].
  - simpl. apply IH; done.
  - rewrite create_apply_field. unfold SAMLProviderConfigToCreate.set.
    destruct (represents_Set false _ _ c Hrep) as (m' & HS & Hrep').
    replace (match SAMLProviderConfigToCreate.params config with
             | Some m => Some m
             | None => Some ∅
             end) with (Some (entries (SAMLProviderConfigToCreate.params config)))
      by by destruct (SAMLProviderConfigToCreate.params config).
    rewrite HS. simpl. apply IH; done.
Qed.

Lemma update_run_represents calls config f :
  represents true (SAMLProviderConfigToUpdate.params config) f →
  ∃ config',
    run update_apply config calls = Done config' ∧
    represents true (SAMLProviderConfigToUpdate.params config') (foldl supply f calls).
Proof.
  revert config f. induction calls as [|c calls IH]; intros config f Hrep.
  { exists config. done. }
  cbn [run foldl]. rewrite update_apply_set. unfold SAMLProviderConfigToUpdate.set.
  destruct (represents_Set true _ _ c Hrep) as (m' & HS & Hrep').
  replace (match SAMLProviderConfigToUpdate.params config with
           | Some m => Some m
           | None => Some ∅
           end) with (Some (entries (SAMLProviderConfigToUpdate.params config)))
    by by destruct (SAMLProviderConfigToUpdate.params config).
  rewrite HS. simpl. apply IH; done.
Qed.

(** Every sequence of setter calls yields a builder, whose store holds
    what the calls supplied. *)
Lemma create_builder_represents calls :
  ∃ config,
    create_builder calls = Done config ∧
    SAMLProviderConfigToCreate.id config = (create_supplied calls).1 ∧
    represents false (SAMLProviderConfigToCreate.params config) (create_supplied calls).2.
Proof. apply create_run_represents; [done|apply represents_new]. Qed.

Lemma update_builder_represents calls :
  ∃ config,
    update_builder calls = Done config ∧
    represents true (SAMLProviderConfigToUpdate.params config) (supplied calls).
Proof. apply update_run_represents, represents_new. Qed.

(** What the validation reads from a store in step with [f]. *)
Lemma represents_GetString upd params f fld (o : option string) :
  represents upd params f → stored upd f fld = VString <$> o →
  nestedMap_GetString params (key_of fld)
  = Done (match o with Some s => (s, true) | None => ("", false) end).
Proof.
  intros [_ HG] Hst. unfold nestedMap_GetString. rewrite HG, Hst.
  by destruct o.
Qed.

Lemma represents_Get_certs upd params f :
  represents upd params f →
  nestedMap_Get params idpCertsKey
  = Done (reading ((λ certs, VCerts (wrap_certs (Some certs))) <$> f_certs f)).
Proof. intros [_ HG]. apply (HG F_certs). Qed.

Lemma wrap_certs_elems (certs : list string) :
  slice_elems (wrap_certs (Some certs)) = (λ cert, {| X509Certificate := cert |}) <$> certs.
Proof.
  unfold wrap_certs. simpl slice_elems at 2.
  assert (∀ acc : slice idpCertificate,
            slice_elems (foldl (λ result cert, append result {| X509Certificate := cert |})
                               acc certs)
            = slice_elems acc ++ ((λ cert, {| X509Certificate := cert |}) <$> certs)) as H.
  { induction certs as [|c certs IH]; intros acc; simpl.
    - by rewrite app_nil_r.
    - rewrite IH. simpl. by rewrite <- app_assoc. }
  by rewrite H.
Qed.

(** Nothing to wrap leaves the nil slice. *)
Lemma wrap_certs_nil (certs : slice string) :
  slice_elems certs = [] → wrap_certs certs = None.
Proof. unfold wrap_certs. by intros ->. Qed.

Lemma len_wrap_certs (certs : list string) :
  Nat.eqb (len (wrap_certs (Some certs))) 0 = match certs with [] => true | _ => false end.
Proof. unfold len. rewrite wrap_certs_elems. by destruct certs. Qed.

Lemma existsb_wrap_certs (certs : list string) :
  existsb (λ cert, String.eqb (X509Certificate cert) "") (slice_elems (wrap_certs (Some certs)))
  = existsb (λ cert, String.eqb cert "") certs.
Proof.
  rewrite wrap_certs_elems. induction certs as [|c certs IH]; [done|].
  rewrite fmap_cons. cbn [existsb X509Certificate]. by rewrite IH.
Qed.
End builders.

(** ** buildRequest performs the specified checks *)

Section validation.
Context {lib : GoLib}.

Ltac read_string Hrep fld o :=
  let Hread := fresh "Hread" in
  pose proof (represents_GetString _ _ _ fld o Hrep eq_refl) as Hread;
  cbn [key_of] in Hread; rewrite Hread; clear Hread; cbn [bind].

Ltac step :=
  cbn [negb orb andb required optional first_failure check_certs bind reading
       fmap option_fmap option_map
       f_idpEntityID f_ssoURL f_certs f_rpEntityID f_callbackURL].

Lemma create_buildRequest_checks config f :
  represents false (SAMLProviderConfigToCreate.params config) f →
  SAMLProviderConfigToCreate.buildRequest config
  = Done (match first_failure (create_checks (SAMLProviderConfigToCreate.id config) f) with
          | Some err => Err err
          | None => Ok (SAMLProviderConfigToCreate.params config,
                        SAMLProviderConfigToCreate.id config)
          end).
Proof.
  intros Hrep. pose proof Hrep as [Hlen _].
  unfold SAMLProviderConfigToCreate.buildRequest, validateSAMLConfigID, create_checks.
  unfold check_id. step.
  destruct (strings_HasPrefix _ "saml."); step; [|done].
  rewrite Hlen. unfold check_any.
  destruct (any_supplied f); step; [|done].
  destruct f as [idp sso sign certs rp cb dn en]. step.
  read_string Hrep F_idpEntityID idp.
  destruct idp as [idp|]; step; [|done].
  unfold check_string at 1. destruct (String.eqb idp ""); step; [done|].
  read_string Hrep F_ssoURL sso.
  destruct sso as [sso|]; step; [|done].
  unfold check_url at 1. destruct (String.eqb sso ""); step; [done|].
  destruct (url_ParseRequestURI sso); step; [done|].
  rewrite (represents_Get_certs _ _ _ Hrep). step.
  destruct certs as [certs|]; step; [|done].
  rewrite len_wrap_certs, existsb_wrap_certs.
  destruct certs as [|cert certs]; step; [done|].
  destruct (existsb _ (cert :: certs)); step; [done|].
  read_string Hrep F_rpEntityID rp.
  destruct rp as [rp|]; step; [|done].
  unfold check_string at 1. destruct (String.eqb rp ""); step; [done|].
  read_string Hrep F_callbackURL cb.
  destruct cb as [cb|]; step; [|done].
  unfold check_url at 1. destruct (String.eqb cb ""); step; [done|].
  by destruct (url_ParseRequestURI cb).
Qed.

Lemma update_buildRequest_checks config f :
  represents true (SAMLProviderConfigToUpdate.params config) f →
  SAMLProviderConfigToUpdate.buildRequest config
  = Done (match first_failure (update_checks f) with
          | Some err => Err err
          | None => Ok (SAMLProviderConfigToUpdate.params config)
          end).
Proof.
  intros Hrep. pose proof Hrep as [Hlen _].
  unfold SAMLProviderConfigToUpdate.buildRequest, update_checks.
  rewrite Hlen. unfold check_any.
  destruct (any_supplied f); step; [|done].
  destruct f as [idp sso sign certs rp cb dn en]. step.
  read_string Hrep F_idpEntityID idp.
  destruct idp as [idp|]; step.
  1: unfold check_string at 1; destruct (String.eqb idp ""); step; [done|].
  all: read_string Hrep F_ssoURL sso.
  all: destruct sso as [sso|]; step.
  1,3: unfold check_url at 1; destruct (String.eqb sso ""); step; [done|];
       destruct (url_ParseRequestURI sso); step; [done|].
  all: rewrite (represents_Get_certs _ _ _ Hrep); step.
  all: destruct certs as [certs|];
       step.
  all: try (rewrite len_wrap_certs, existsb_wrap_certs;
            destruct certs as [|cert certs]; step; [done|];
            destruct (existsb _ (cert :: certs)); step; [done|]).
  all: read_string Hrep F_rpEntityID rp.
  all: destruct rp as [rp|]; step.
  all: try (unfold check_string at 1; destruct (String.eqb rp "");
            step; [done|]).
  all: read_string Hrep F_callbackURL cb.
  all: destruct cb as [cb|]; step; [|done].
  all: unfold check_url at 1; destruct (String.eqb cb ""); step; [done|].
  all: by destruct (url_ParseRequestURI cb).
Qed.
End validation.

(** ** Complete, incomplete and acceptable requests against the checks *)

Section requests_facts.
Context {lib : GoLib}.

Lemma existsb_empty_forallb (certs : list string) :
  existsb (λ cert, String.eqb cert "") certs
  = negb (forallb (λ cert, negb (String.eqb cert "")) certs).
Proof.
  induction certs as [|c certs IH]; simpl; [done|].
  rewrite IH. by destruct (String.eqb c "").
Qed.

Lemma present_nonempty_check msg o :
  present_nonempty o = true → required msg (check_string msg) o = None.
Proof.
  destruct o as [s|]; [|done]. simpl. unfold check_string.
  by destruct (String.eqb s "").
Qed.

Lemma present_url_check msg what o :
  present_url o = true → required msg (check_url msg what) o = None.
Proof.
  destruct o as [s|]; [|done]. simpl. unfold check_url.
  destruct (String.eqb s ""); [done|].
  by destruct (url_ParseRequestURI s).
Qed.

Lemma present_certs_check msg o :
  present_certs o = true → required msg check_certs o = None.
Proof.
  destruct o as [certs|]; [|done]. simpl.
  destruct certs as [|c certs]; [done|]. cbn [check_certs length Nat.eqb negb andb].
  rewrite existsb_empty_forallb. by intros ->.
Qed.

Lemma present_any (o : option string) : present_nonempty o = true → given o = true.
Proof. by destruct o. Qed.

Lemma complete_checks id f :
  complete id f = true → first_failure (create_checks id f) = None.
Proof.
  unfold complete. rewrite !andb_true_iff.
  intros [[[[[Hid Hidp] Hsso] Hcerts] Hrp] Hcb].
  unfold create_checks, check_id, check_any, any_supplied.
  rewrite Hid, (present_any _ Hidp). cbn [orb first_failure].
  rewrite present_nonempty_check, present_url_check, present_certs_check by done.
  rewrite present_nonempty_check, present_url_check by done.
  done.
Qed.

Lemma omit_checks id f r :
  complete id f = true →
  first_failure (create_checks id (omit r f)) = Some (missing_message r).
Proof.
  unfold complete. rewrite !andb_true_iff.
  intros [[[[[Hid Hidp] Hsso] Hcerts] Hrp] Hcb].
  assert (given (f_ssoURL f) = true) as Hsso' by (by destruct (f_ssoURL f)).
  unfold create_checks, check_id, check_any, any_supplied. rewrite Hid.
  destruct r; cbn [omit f_idpEntityID f_ssoURL f_signRequest f_certs f_rpEntityID
                   f_callbackURL f_displayName f_enabled given orb];
    rewrite ?Hsso', ?(present_any _ Hidp), ?orb_true_r; cbn [orb first_failure];
    rewrite ?(present_nonempty_check _ _ Hidp), ?(present_url_check _ _ _ Hsso),
      ?(present_certs_check _ _ Hcerts), ?(present_nonempty_check _ _ Hrp); done.
Qed.

Lemma unless_absent_check {A} (valid : option A → bool) (check : A → option error)
    msg (o : option A) :
  (valid o = true → required msg check o = None) →
  unless_absent valid o = true → optional check o = None.
Proof. destruct o; simpl; auto. Qed.

Lemma acceptable_checks f :
  acceptable f = true → first_failure (update_checks f) = None.
Proof.
  unfold acceptable. rewrite !andb_true_iff.
  intros [[[[[Hany Hidp] Hsso] Hcerts] Hrp] Hcb].
  unfold update_checks, check_any. rewrite Hany. cbn [first_failure].
  rewrite (unless_absent_check _ _ _ _ (present_nonempty_check _ _) Hidp).
  rewrite (unless_absent_check _ _ _ _ (present_url_check _ _ _) Hsso).
  rewrite (unless_absent_check _ _ _ _ (present_certs_check "" _) Hcerts).
  rewrite (unless_absent_check _ _ _ _ (present_nonempty_check _ _) Hrp).
  rewrite (unless_absent_check _ _ _ _ (present_url_check _ _ _) Hcb).
  done.
Qed.
End requests_facts.

(** ** A builder on which only RequestSigningEnabled was called *)

Section sign_only.
(** The store such a builder holds. *)
Lemma sign_only_Set (nm : nestedMap) (b : bool) :
  (nm = None ∨ ∃ b0, nm = Some {["idpConfig" := VMap {["signRequest" := VBool b0]}]}) →
  nestedMap_Set (Some (entries nm)) signRequestKey (VBool b)
  = Done (Some {["idpConfig" := VMap {["signRequest" := VBool b]}]}).
Proof.
  intros [->|[b0 ->]]; [|destruct b0]; destruct b; vm_compute; reflexivity.
Qed.

Lemma sign_only_run (bs : list bool) (config : SAMLProviderConfigToUpdate.t) (b : bool) :
  SAMLProviderConfigToUpdate.params config
  = Some {["idpConfig" := VMap {["signRequest" := VBool b]}]} →
  ∃ config' b',
    run update_apply config (Call_RequestSigningEnabled <$> bs) = Done config' ∧
    SAMLProviderConfigToUpdate.params config'
    = Some {["idpConfig" := VMap {["signRequest" := VBool b']}]}.
Proof.
  revert config b. induction bs as [|b1 bs IH]; intros config b Hp.
  { exists config, b. done. }
  rewrite fmap_cons. cbn [run update_apply].
  unfold SAMLProviderConfigToUpdate.RequestSigningEnabled, SAMLProviderConfigToUpdate.set.
  rewrite Hp.
  change (Some {["idpConfig" := VMap {["signRequest" := VBool b]}]})
    with (Some (entries (Some {["idpConfig" := VMap {["signRequest" := VBool b]}]}))) at 1.
  rewrite sign_only_Set by eauto. cbn [bind]. by apply (IH _ b1).
Qed.

Lemma sign_only_builder (b : bool) (bs : list bool) :
  ∃ config b',
    update_builder (Call_RequestSigningEnabled <$> (b :: bs)) = Done config ∧
    SAMLProviderConfigToUpdate.params config
    = Some {["idpConfig" := VMap {["signRequest" := VBool b']}]}.
Proof.
  unfold update_builder. rewrite fmap_cons. cbn [run update_apply].
  unfold SAMLProviderConfigToUpdate.RequestSigningEnabled, SAMLProviderConfigToUpdate.set.
  cbn [SAMLProviderConfigToUpdate.params SAMLProviderConfigToUpdate.new].
  change (Some ∅) with (Some (entries None)).
  rewrite sign_only_Set by eauto. cbn [bind]. by apply (sign_only_run _ _ b).
Qed.

Lemma sign_only_mask (b : bool) :
  buildMask {["idpConfig" := VMap {["signRequest" := VBool b]}]} = [signRequestKey].
Proof. destruct b; vm_compute; reflexivity. Qed.

Lemma sign_only_acceptable {lib : GoLib} (b : bool) (bs : list bool) :
  acceptable (supplied (Call_RequestSigningEnabled <$> (b :: bs))) = true.
Proof.
  unfold supplied.
  assert (∀ f, f_idpEntityID f = None → f_ssoURL f = None → f_certs f = None →
               f_rpEntityID f = None → f_callbackURL f = None → any_supplied f = true →
               acceptable (foldl supply f (Call_RequestSigningEnabled <$> bs)) = true)
    as Hgen.
  { induction bs as [|b1 bs IH]; intros f H1 H2 H3 H4 H5 H6.
    - unfold acceptable. simpl. by rewrite H1, H2, H3, H4, H5, H6.
    - rewrite fmap_cons. cbn [foldl]. apply IH; try done.
      apply any_supplied_supply. }
  rewrite fmap_cons. cbn [foldl]. by apply Hgen.
Qed.
End sign_only.

(** ** The last call of a setter decides what its key holds *)

Section last_call.
Implicit Types (upd : bool) (f : fields) (c : setter) (fld : field).

Lemma stored_untouched upd fld calls f :
  untouched fld calls = true → stored upd (foldl supply f calls) fld = stored upd f fld.
Proof.
  revert f. induction calls as [|c calls IH]; intros f; [done|].
  cbn [untouched forallb foldl]. intros [Hc Hcalls]%andb_prop.
  rewrite IH by done. apply stored_supply_other.
  unfold writes in Hc. apply negb_true_iff, bool_decide_eq_false in Hc. congruence.
Qed.

Lemma stored_last_call upd before c after :
  untouched (field_of c) after = true →
  stored upd (supplied (before ++ c :: after)) (field_of c) = Some (value_of upd c).
Proof.
  intros Hafter. unfold supplied. rewrite foldl_app. cbn [foldl].
  rewrite stored_untouched by done. apply stored_supply_same.
Qed.

Lemma create_supplied_fields calls s :
  (foldl create_supply s calls).2 = foldl supply s.2 (field_calls calls).
Proof.
  revert s. induction calls as [|c calls IH]; intros s; [done|].
  cbn [foldl]. rewrite IH. by destruct c.
Qed.

Lemma field_calls_app calls calls' :
  field_calls (calls ++ calls') = field_calls calls ++ field_calls calls'.
Proof. apply omap_app. Qed.

Lemma stored_last_create_call upd before c after :
  untouched (field_of c) (field_calls after) = true →
  stored upd (create_supplied (before ++ Call_field c :: after)).2 (field_of c)
  = Some (value_of upd c).
Proof.
  intros Hafter. unfold create_supplied. rewrite create_supplied_fields.
  rewrite field_calls_app. by apply stored_last_call.
Qed.

(** A one-segment key reads the top level of the store. *)
Lemma Get_displayName (nm : nestedMap) :
  nestedMap_Get nm displayNameKey = Done (index (entries nm) "displayName").
Proof. unfold nestedMap_Get. simpl. by destruct (index _ _). Qed.

Lemma free_of_app sep (s1 s2 : string) :
  free_of sep (s1 +:+ s2) = free_of sep s1 && free_of sep s2.
Proof.
  induction s1 as [|a s1 IH]; simpl; [done|]. by rewrite IH, andb_assoc.
Qed.

(** A string without dots is the join of one segment only. *)
Lemma strings_Join_free (path : list string) (s : string) :
  path ≠ [] → free_of "." s = true → strings_Join path "." = s → path = [s].
Proof.
  destruct path as [|k [|k' rest]]; [done|by simpl; intros _ _ ->|].
  intros _ Hfree Hjoin. rewrite strings_Join_cons in Hjoin by done.
  rewrite <- Hjoin, !free_of_app in Hfree. simpl in Hfree.
  by rewrite andb_false_r in Hfree.
Qed.

Lemma top_leaf_in_mask (m : gmap string value) (k : string) (v : value) :
  m !! k = Some v → is_map v = false → k ∈ buildMask m.
Proof.
  intros Hk Hv. apply (leaf_buildMask m [k]). exists v. simpl. by rewrite Hk.
Qed.

Lemma absent_not_in_mask (m : gmap string value) (k : string) :
  free_of "." k = true → m !! k = None → k ∉ buildMask m.
Proof.
  intros Hfree Hk (path & (v & Hw & Hv) & Hjoin)%buildMask_leaf.
  assert (path ≠ []) as Hne by (intros ->; simpl in Hw; by inversion Hw; subst).
  symmetry in Hjoin. apply strings_Join_free in Hjoin; [|done..]. subst path.
  simpl in Hw. by rewrite Hk in Hw.
Qed.
End last_call.

(** ** The mapper and the transport glue *)

Section client_facts.
Lemma extractResourceID_last name :
  ∃ id, extractResourceID name = Done id ∧ last (strings_Split name "/") = Some id.
Proof.
  unfold extractResourceID. pose proof (strings_Split_nonempty name "/") as Hne.
  destruct (last (strings_Split name "/")) as [id|] eqn:Hlast; [eauto|].
  by apply last_None in Hlast.
Qed.

Lemma extractResourceID_suffix pre id :
  free_of "/" id = true → extractResourceID (pre +:+ String "/" id) = Done id.
Proof.
  intros Hid. unfold extractResourceID.
  rewrite strings_Split_app, (strings_Split_free id) by done.
  by rewrite last_snoc.
Qed.

Lemma unwrap_certs_elems (certs : list idpCertificate) (acc : slice string) :
  slice_elems (foldl (λ certs cert, append certs (X509Certificate cert)) acc certs)
  = slice_elems acc ++ (X509Certificate <$> certs).
Proof.
  revert acc. induction certs as [|c certs IH]; intros acc; simpl.
  - by rewrite app_nil_r.
  - rewrite IH. simpl. by rewrite <- app_assoc.
Qed.

Lemma toSAMLProviderConfig_Done dao :
  ∃ config, samlProviderConfigDAO.toSAMLProviderConfig dao = Done config.
Proof.
  unfold samlProviderConfigDAO.toSAMLProviderConfig.
  destruct (extractResourceID_last (samlProviderConfigDAO.Name dao)) as (id & -> & _).
  simpl. eauto.
Qed.

Context {lib : GoLib} {http : HTTPClient}.

(** Decoding passes on the requests that were sent, and never panics. *)
Lemma decoded_Done sent :
  ∃ r, providerConfigClient.decoded sent = Done (r, sent.2).
Proof.
  destruct sent as [[dao|err] reqs]; simpl; [|eauto].
  destruct (toSAMLProviderConfig_Done dao) as [config ->]. simpl. eauto.
Qed.

(** With a project identifier, [makeRequest] hands one request to the
    transport, addressed below the project. *)
Lemma makeRequest_sends c req :
  providerConfigClient.projectID c ≠ "" →
  ∃ r, providerConfigClient.makeRequest c req
       = (r, [ {| Method := Method req;
                  URL := providerConfigClient.endpoint c +:+ "/projects/"
                         +:+ providerConfigClient.projectID c +:+ URL req;
                  Body := Body req;
                  Opts := Opts req |} ]).
Proof.
  intros Hp. unfold providerConfigClient.makeRequest.
  destruct (String.eqb_spec (providerConfigClient.projectID c) ""); [done|]. eauto.
Qed.
End client_facts.

(** ** An empty certificate list *)

Section empty_certs.
Context {lib : GoLib}.

Lemma f_certs_untouched calls f :
  untouched F_certs calls = true → f_certs (foldl supply f calls) = f_certs f.
Proof.
  revert f. induction calls as [|c calls IH]; intros f; [done|].
  cbn [untouched forallb foldl]. intros [Hc Hcalls]%andb_prop.
  rewrite IH by done. by destruct c.
Qed.

Lemma f_certs_last_call before certs after :
  untouched F_certs after = true →
  f_certs (supplied (before ++ Call_X509Certificates certs :: after)) = Some (slice_elems certs).
Proof.
  intros Hafter. unfold supplied. rewrite foldl_app. cbn [foldl].
  by rewrite f_certs_untouched.
Qed.

Lemma create_f_certs_last_call before certs after :
  untouched F_certs (field_calls after) = true →
  f_certs (create_supplied (before ++ Call_field (Call_X509Certificates certs) :: after)).2
  = Some (slice_elems certs).
Proof.
  intros Hafter. unfold create_supplied.
  rewrite create_supplied_fields, field_calls_app.
  by apply (f_certs_last_call (field_calls before) certs (field_calls after)).
Qed.

Lemma create_checks_empty_certs id f :
  f_certs f = Some [] →
  ∃ err, first_failure (create_checks id f) = Some err ∧
         (first_failure (take 4 (create_checks id f)) = None →
          err = "X509Certificates must not be empty").
Proof.
  intros Hcerts. unfold create_checks. rewrite Hcerts. cbn [take first_failure].
  destruct (check_id id); [eauto; by eexists|].
  destruct (check_any _ f); [by eexists|].
  destruct (required _ _ (f_idpEntityID f)); [by eexists|].
  destruct (required _ _ (f_ssoURL f)); [by eexists|].
  by eexists.
Qed.

Lemma update_checks_empty_certs f :
  f_certs f = Some [] →
  ∃ err, first_failure (update_checks f) = Some err ∧
         (first_failure (take 3 (update_checks f)) = None →
          err = "X509Certificates must not be empty").
Proof.
  intros Hcerts. unfold update_checks. rewrite Hcerts. cbn [take first_failure].
  destruct (check_any _ f); [by eexists|].
  destruct (optional _ (f_idpEntityID f)); [by eexists|].
  destruct (optional _ (f_ssoURL f)); [by eexists|].
  by eexists.
Qed.

Lemma update_buildRequest_body config f body :
  represents true (SAMLProviderConfigToUpdate.params config) f →
  SAMLProviderConfigToUpdate.buildRequest config = Done (Ok body) →
  body = SAMLProviderConfigToUpdate.params config.
Proof.
  intros Hrep. rewrite (update_buildRequest_checks config f Hrep).
  destruct (first_failure (update_checks f)); [done|]. by intros [= <-].
Qed.

(** The builder a sequence of create calls yields, and what [buildRequest]
    returns on it. *)
Lemma create_builder_built calls :
  ∃ config,
    create_builder calls = Done config ∧
    SAMLProviderConfigToCreate.id config = (create_supplied calls).1 ∧
    SAMLProviderConfigToCreate.buildRequest config
    = Done (match first_failure (create_checks (create_supplied calls).1
                                               (create_supplied calls).2) with
            | Some err => Err err
            | None => Ok (SAMLProviderConfigToCreate.params config,
                          (create_supplied calls).1)
            end).
Proof.
  destruct (create_builder_represents calls) as (config & Hrun & Hid & Hrep).
  exists config. rewrite <- Hid. by rewrite <- create_buildRequest_checks.
Qed.
End empty_certs.

(** ** More on Get and Set along segments *)

Section loops_more.
Implicit Types (m curr : gmap string value) (v w : value).
Implicit Types (segments pre post p q : list string).

(** A [Get] that finds a value found it where the path leads. *)
Lemma Get_loop_found m segments v :
  Get_loop m segments = Done (v, true) → walk (VMap m) segments = Some v.
Proof.
  revert m. induction segments as [|k rest IH]; intros m; [done|].
  destruct (decide (rest = [])) as [->|Hrest].
  - simpl. unfold index. destruct (m !! k); [|done]. by intros [= ->].
  - destruct (m !! k) as [x|] eqn:Hk.
    + destruct (is_map x) eqn:Hx.
      * destruct x as [| | | |child]; try done.
        rewrite (Get_loop_step m k child) by done. cbn [walk]. rewrite Hk. apply IH.
      * by rewrite (Get_loop_not_map m k rest x).
    + by rewrite Get_loop_absent.
Qed.

(** Whether [Set] panics does not depend on the value written. *)
Lemma Set_loop_Done_any m segments v w m' :
  Set_loop m segments v = Done m' → ∃ m'', Set_loop m segments w = Done m''.
Proof. intros HS%Set_loop_prefixes. by apply Set_loop_Done. Qed.

(** [Set] inserts under the first segment. *)
Lemma Set_loop_insert m k rest v m' :
  Set_loop m (k :: rest) v = Done m' → ∃ x, m' = <[k := x]> m.
Proof.
  destruct (decide (rest = [])) as [->|Hrest].
  - intros [= <-]. eauto.
  - intros (child & child' & _ & _ & ->)%Set_loop_inv; eauto.
Qed.

(** Writing a path twice keeps the second value only. *)
Lemma Set_loop_overwrite m segments v w m1 :
  Set_loop m segments v = Done m1 → Set_loop m1 segments w = Set_loop m segments w.
Proof.
  revert m m1. induction segments as [|k rest IH]; intros m m1 HS.
  { simpl in *. by inversion HS. }
  destruct (decide (rest = [])) as [->|Hrest].
  - inversion HS; subst m1. simpl. by rewrite insert_insert_eq.
  - apply Set_loop_inv in HS as (child & child' & Hchild & Hc & ->); [|done].
    rewrite (Set_loop_step (<[k:=VMap child']> m)) by done. rewrite lookup_insert_eq.
    rewrite (IH child child' Hc).
    assert (Set_loop m (k :: rest) w
            = do c <- Set_loop child rest w; Done (<[k := VMap c]> m)) as ->.
    { rewrite Set_loop_step by done. by destruct Hchild as [->|[-> ->]]. }
    destruct (Set_loop child rest w); [|done]. simpl. by rewrite insert_insert_eq.
Qed.

(** Writes to two paths that part ways can be made in either order. *)
Lemma Set_loop_commute m p q v w :
  diverge p q = true →
  (do m1 <- Set_loop m p v; Set_loop m1 q w) = (do m2 <- Set_loop m q w; Set_loop m2 p v).
Proof.
  revert m q. induction p as [|k p IH]; intros m q; [done|].
  destruct q as [|k' q]; [done|]. intros [Hk|[<- Hd]]%diverge_cons.
  - assert (∀ (k1 k2 : string) p1 p2 v1 v2 m1,
              k1 ≠ k2 → Set_loop m (k1 :: p1) v1 = Done m1 →
              Set_loop m1 (k2 :: p2) v2
              = do m2 <- Set_loop m (k2 :: p2) v2; Done (<[k1 := default VNil (m1 !! k1)]> m2))
      as Hother.
    { intros k1 k2 p1 p2 v1 v2 m1 Hne [x ->]%Set_loop_insert.
      rewrite lookup_insert_eq. simpl default.
      destruct (decide (p2 = [])) as [->|Hp2].
      - simpl. by rewrite insert_insert_ne.
      - rewrite !Set_loop_step by done. rewrite lookup_insert_ne by done.
        destruct (m !! k2) as [[| | | |child]|]; try done.
        + destruct (Set_loop child p2 v2); [|done]. simpl. by rewrite insert_insert_ne.
        + destruct (Set_loop ∅ p2 v2); [|done]. simpl. by rewrite insert_insert_ne. }
    destruct (Set_loop m (k :: p) v) as [m1|] eqn:H1;
      destruct (Set_loop m (k' :: q) w) as [m2|] eqn:H2; cbn [bind].
    + rewrite (Hother k k' p q v w m1 Hk H1), H2. cbn [bind].
      rewrite (Hother k' k q p w v m2 (not_eq_sym Hk) H2), H1. cbn [bind].
      apply Set_loop_insert in H1 as [x ->]. apply Set_loop_insert in H2 as [y ->].
      rewrite !lookup_insert_eq. simpl. by rewrite insert_insert_ne.
    + by rewrite (Hother k k' p q v w m1 Hk H1), H2.
    + by rewrite (Hother k' k q p w v m2 (not_eq_sym Hk) H2), H1.
    + done.
  - assert (p ≠ [] ∧ q ≠ []) as [Hp Hq] by (by destruct p, q).
    assert (∀ p1 v1 m1 child,
              p1 ≠ [] → (m !! k = Some (VMap child) ∨ m !! k = None ∧ child = ∅) →
              Set_loop m (k :: p1) v1
              = do child' <- Set_loop child p1 v1; Done (<[k := VMap child']> m)) as Hstep.
    { intros p1 v1 m1 child Hp1 Hchild. rewrite Set_loop_step by done.
      by destruct Hchild as [->|[-> ->]]. }
    destruct (m !! k) as [[| | | |child]|] eqn:Hmk.
    1-4: by rewrite !Set_loop_step, Hmk by done.
    all: [> pose (c := child) | pose (c := (∅ : gmap string value)) ].
    all: rewrite (Hstep p v m c), (Hstep q w m c) by (subst c; eauto).
    all: specialize (IH c q Hd).
    all: destruct (Set_loop c p v) as [c1|] eqn:H1;
         destruct (Set_loop c q w) as [c2|] eqn:H2; cbn [bind] in *.
    all: rewrite ?Set_loop_step, ?lookup_insert_eq by done.
    all: try (rewrite IH); try (rewrite <- IH); try done.
    all: try (destruct (Set_loop c1 q w) eqn:H3; cbn [bind]; by rewrite ?insert_insert_eq).
    all: try (destruct (Set_loop c2 p v) eqn:H3; cbn [bind]; by rewrite ?insert_insert_eq).
Qed.
End loops_more.

Section paths_more.
Implicit Types (m : gmap string value) (v w : value) (p q : list string).

(** Two paths part ways, or one continues the other. *)
Lemma diverge_or_prefix p q :
  diverge p q = true ∨ (∃ r, q = p ++ r) ∨ (∃ r, p = q ++ r).
Proof.
  revert q. induction p as [|k p IH]; intros q; [right; left; by exists q|].
  destruct q as [|k' q]; [right; right; by exists (k :: p)|].
  simpl. destruct (String.eqb_spec k k') as [<-|Hk]; [|by left].
  destruct (IH q) as [?|[[r ->]|[r ->]]]; [by left|right; left|right; right]; by exists r.
Qed.

(** [Set] leaves alone where a path that parts ways leads. *)
Lemma walk_Set_loop_diverge m p v m' q :
  diverge p q = true → Set_loop m p v = Done m' →
  walk (VMap m') q = walk (VMap m) q.
Proof.
  revert m m' q. induction p as [|k p IH]; intros m m' q; [done|].
  destruct q as [|k' q]; [done|]. intros [Hk|[<- Hd]]%diverge_cons HS.
  - apply Set_loop_insert in HS as [x ->]. simpl. by rewrite lookup_insert_ne.
  - assert (p ≠ [] ∧ q ≠ []) as [Hp Hq] by (by destruct p, q).
    apply Set_loop_inv in HS as (child & child' & Hchild & Hc & ->); [|done].
    cbn [walk]. rewrite lookup_insert_eq.
    change (walk (VMap child') q = match m !! k with
                                   | Some c => walk c q
                                   | None => None
                                   end).
    rewrite (IH child child' q Hd Hc).
    destruct Hchild as [->|[-> ->]]; [done|].
    destruct q as [|k2 q]; [done|]. simpl. by rewrite lookup_empty.
Qed.

Lemma walk_leaf v p w : is_map v = false → walk v p = Some w → p = [].
Proof. destruct p; [done|]. by destruct v. Qed.
End paths_more.

Section strings_more.
Implicit Types (s : string) (sep : ascii).

(** Joining what [Split] returns gives the string back. *)
Lemma strings_Join_Split s sep :
  strings_Join (strings_Split s sep) (String sep "") = s.
Proof.
  induction s as [|c s IH]; [done|]. cbn [strings_Split].
  pose proof (strings_Split_nonempty s sep) as Hne.
  destruct (Ascii.eqb_spec c sep) as [->|Hc].
  - destruct (strings_Split s sep) as [|seg rest] eqn:Hs; [done|].
    change (String sep (strings_Join (seg :: rest) (String sep "")) = String sep s).
    by rewrite IH.
  - destruct (strings_Split s sep) as [|seg rest] eqn:Hs; [done|].
    rewrite <- IH. by destruct rest.
Qed.

(** No segment [Split] returns contains the separator. *)
Lemma strings_Split_free_segments s sep :
  Forall (λ seg, free_of sep seg = true) (strings_Split s sep).
Proof.
  induction s as [|c s IH]; [by repeat constructor|]. cbn [strings_Split].
  destruct (Ascii.eqb c sep) eqn:Hc; [by constructor|].
  destruct (strings_Split s sep) as [|seg rest]; [repeat constructor; simpl; by rewrite Hc|].
  inversion IH; subst. constructor; [|done]. simpl. by rewrite Hc.
Qed.

Lemma strings_Join_snoc (l : list string) (x sep : string) :
  l ≠ [] → strings_Join (l ++ [x]) sep = strings_Join l sep +:+ sep +:+ x.
Proof.
  induction l as [|e l IH]; [done|]. intros _.
  destruct l as [|e' l]; [done|].
  change (e +:+ sep +:+ strings_Join ((e' :: l) ++ [x]) sep
          = (e +:+ sep +:+ strings_Join (e' :: l) sep) +:+ sep +:+ x).
  rewrite IH by done. by rewrite !append_assoc.
Qed.

(** The last segment: free of the separator, and either the whole string
    or what follows its last separator. *)
Lemma strings_Split_last s sep :
  ∃ id, last (strings_Split s sep) = Some id ∧ free_of sep id = true ∧
        (s = id ∨ ∃ pre, s = pre +:+ String sep id).
Proof.
  pose proof (strings_Split_nonempty s sep) as Hne.
  pose proof (strings_Split_free_segments s sep) as Hfree.
  pose proof (strings_Join_Split s sep) as Hjoin.
  revert Hne Hfree Hjoin. generalize (strings_Split s sep). intros segments.
  induction segments as [|seg l _] using rev_ind; intros Hne Hfree Hjoin; [done|].
  exists seg. rewrite last_snoc. split; [done|].
  apply Forall_app in Hfree as [_ Hseg]. rewrite Forall_singleton in Hseg. split; [exact Hseg|].
  destruct (decide (l = [])) as [->|Hl]; [by left|right].
  rewrite strings_Join_snoc in Hjoin by done.
  exists (strings_Join l (String sep "")). by rewrite <- Hjoin.
Qed.
End strings_more.

Lemma Get_found_iff_segments (nm : nestedMap) (key : string) (v : value) :
  nestedMap_Get nm key = Done (v, true) ↔
  walk (VMap (entries nm)) (strings_Split key ".") = Some v.
Proof.
  unfold nestedMap_Get. split.
  - apply Get_loop_found.
  - apply Get_loop_walk, strings_Split_nonempty.
Qed.

(** ** The shape of a builder's store *)

Section shape.
Implicit Types (upd : bool) (params : nestedMap) (f : fields) (c : setter) (fld : field).

Lemma within_keys_empty : within_keys ∅.
Proof.
  intros path v Hne Hw. destruct path as [|k path]; [done|].
  simpl in Hw. by rewrite lookup_empty in Hw.
Qed.

(** Writing a leaf under a field key keeps the shape. *)
Lemma within_keys_Set_loop m fld v m' :
  within_keys m → is_map v = false →
  Set_loop m (strings_Split (key_of fld) ".") v = Done m' → within_keys m'.
Proof.
  intros Hm Hv HS path w Hne Hw.
  pose proof (strings_Split_nonempty (key_of fld) ".") as Hsegs.
  assert (path = strings_Split (key_of fld) "." → w = v) as Hsame.
  { intros ->. rewrite (Set_loop_walk _ _ _ _ Hsegs HS) in Hw. by inversion Hw. }
  destruct (diverge_or_prefix (strings_Split (key_of fld) ".") path)
    as [Hd|[[r Hr]|[r Hr]]].
  - rewrite (walk_Set_loop_diverge _ _ _ _ _ Hd HS) in Hw. by apply Hm.
  - destruct (decide (r = [])) as [->|Hr'].
    + rewrite app_nil_r in Hr. exists fld, []. rewrite app_nil_r.
      split; [done|]. by rewrite (Hsame Hr).
    + rewrite Hr, walk_app, (Set_loop_walk _ _ _ _ Hsegs HS) in Hw. simpl in Hw.
      by apply walk_leaf in Hw.
  - destruct (decide (r = [])) as [->|Hr'].
    + rewrite app_nil_r in Hr. exists fld, []. rewrite app_nil_r.
      split; [done|]. by rewrite Hsame.
    + destruct (Set_loop_levels _ _ _ _ path r HS Hr Hr') as [level Hlevel].
      rewrite Hlevel in Hw. inversion Hw; subst w.
      exists fld, r. split; [done|]. by split.
Qed.

Lemma value_of_leaf upd c : is_map (value_of upd c) = false.
Proof.
  destruct c; try done. unfold value_of, display_value. by destruct (upd && _).
Qed.

Lemma stored_leaf upd f fld v : stored upd f fld = Some v → is_map v = false.
Proof.
  destruct fld; simpl; intros Hst; apply fmap_Some in Hst as (x & _ & ->); try done.
  unfold display_value. by destruct (upd && _).
Qed.

(** The store of a builder keeps both the values and the shape. *)
Lemma shaped_Set upd params f c :
  represents upd params f → within_keys (entries params) →
  ∃ m', nestedMap_Set (Some (entries params)) (key_of (field_of c)) (value_of upd c)
        = Done (Some m') ∧
        represents upd (Some m') (supply f c) ∧ within_keys m'.
Proof.
  intros Hrep Hm. destruct (represents_Set upd params f c Hrep) as (m' & HS & Hrep').
  exists m'. do 2 (split; [done|]).
  unfold nestedMap_Set in HS.
  destruct (Set_loop (entries params) _ _) as [m''|] eqn:HS'; [|done].
  inversion HS; subst m''.
  by eapply within_keys_Set_loop; [| apply (value_of_leaf upd c) |].
Qed.

Lemma update_run_shaped calls config f :
  represents true (SAMLProviderConfigToUpdate.params config) f →
  within_keys (entries (SAMLProviderConfigToUpdate.params config)) →
  ∃ config',
    run update_apply config calls = Done config' ∧
    represents true (SAMLProviderConfigToUpdate.params config') (foldl supply f calls) ∧
    within_keys (entries (SAMLProviderConfigToUpdate.params config')).
Proof.
  revert config f. induction calls as [|c calls IH]; intros config f Hrep Hm.
  { exists config. done. }
  cbn [run foldl]. rewrite update_apply_set. unfold SAMLProviderConfigToUpdate.set.
  destruct (shaped_Set true _ _ c Hrep Hm) as (m' & HS & Hrep' & Hm').
  replace (match SAMLProviderConfigToUpdate.params config with
           | Some m => Some m
           | None => Some ∅
           end) with (Some (entries (SAMLProviderConfigToUpdate.params config)))
    by by destruct (SAMLProviderConfigToUpdate.params config).
  rewrite HS. simpl. apply IH; done.
Qed.

Lemma create_run_shaped calls config s :
  SAMLProviderConfigToCreate.id config = s.1 →
  represents false (SAMLProviderConfigToCreate.params config) s.2 →
  within_keys (entries (SAMLProviderConfigToCreate.params config)) →
  ∃ config',
    run create_apply config calls = Done config' ∧
    SAMLProviderConfigToCreate.id config' = (foldl create_supply s calls).1 ∧
    represents false (SAMLProviderConfigToCreate.params config')
               (foldl create_supply s calls).2 ∧
    within_keys (entries (SAMLProviderConfigToCreate.params config')).
Proof.
  revert config s. induction calls as [|c calls IH]; intros config s Hid Hrep Hm.
  { exists config. done. }
  destruct c as [id|c]; cbn [run foldl].
  - simpl. apply IH; done.
  - rewrite create_apply_field. unfold SAMLProviderConfigToCreate.set.
    destruct (shaped_Set false _ _ c Hrep Hm) as (m' & HS & Hrep' & Hm').
    replace (match SAMLProviderConfigToCreate.params config with
             | Some m => Some m
             | None => Some ∅
             end) with (Some (entries (SAMLProviderConfigToCreate.params config)))
      by by destruct (SAMLProviderConfigToCreate.params config).
    rewrite HS. simpl. apply IH; done.
Qed.

(** A field is held once a call wrote it. *)
Lemma stored_given upd calls f fld :
  given (stored upd (foldl supply f calls) fld) = true ↔
  given (stored upd f fld) = true ∨ ∃ c, c ∈ calls ∧ field_of c = fld.
Proof.
  revert f. induction calls as [|c calls IH]; intros f; cbn [foldl].
  { split; [by left|]. intros [?|(c & Hc & _)]; [done|]. by apply elem_of_nil in Hc. }
  rewrite IH. destruct (decide (fld = field_of c)) as [->|Hfld].
  - rewrite stored_supply_same. split; [|by left]. intros _. right. exists c.
    split; [by left|done].
  - rewrite stored_supply_other by done. split.
    + intros [?|(c' & Hc' & Hf)]; [by left|]. right. exists c'. split; [by right|done].
    + intros [?|(c' & Hc' & Hf)]; [by left|].
      apply elem_of_cons in Hc' as [->|Hc']; [congruence|]. right. by exists c'.
Qed.

(** The mask of a builder's store lists the keys of the fields it holds. *)
Lemma shaped_mask upd params f p :
  represents upd params f → within_keys (entries params) →
  p ∈ buildMask (entries params) ↔ ∃ fld, given (stored upd f fld) = true ∧ p = key_of fld.
Proof.
  intros [_ HG] Hm. split.
  - intros (path & (v & Hw & Hv) & ->)%buildMask_leaf.
    assert (path ≠ []) as Hne by (intros ->; simpl in Hw; by inversion Hw; subst).
    destruct (Hm path v Hne Hw) as (fld & rest & Hsplit & Hrest).
    apply Hrest in Hv as ->. rewrite app_nil_r in Hsplit. exists fld.
    rewrite <- Hsplit. split; [|apply (strings_Join_Split _ ".")].
    specialize (HG fld). unfold nestedMap_Get in HG.
    rewrite Hsplit, (Get_loop_walk _ _ v) in HG by done.
    by destruct (stored upd f fld).
  - intros (fld & Hgiven & ->). specialize (HG fld).
    destruct (stored upd f fld) as [v|] eqn:Hst; [|done].
    rewrite <- (strings_Join_Split (key_of fld) ".") at 1.
    apply leaf_buildMask. exists v. split; [by apply Get_loop_found|].
    by eapply stored_leaf.
Qed.
End shape.

(** ** Setter calls in another order *)

Section reorder.
Lemma bind_bind {A B C} (o : outcome A) (f : A → outcome B) (g : B → outcome C) :
  (do y <- (do x <- o; f x); g y) = (do x <- o; do y <- f x; g y).
Proof. by destruct o. Qed.

Lemma run_app {T C} (apply : T → C → outcome T) config (l1 l2 : list C) :
  run apply config (l1 ++ l2) = do config' <- run apply config l1; run apply config' l2.
Proof.
  revert config. induction l1 as [|c l1 IH]; intros config; [done|].
  simpl. destruct (apply config c); [apply IH|done].
Qed.

Lemma update_set_loop config key v :
  SAMLProviderConfigToUpdate.set config key v
  = do m' <- Set_loop (entries (SAMLProviderConfigToUpdate.params config))
                      (strings_Split key ".") v;
    Done {| SAMLProviderConfigToUpdate.params := Some m' |}.
Proof.
  unfold SAMLProviderConfigToUpdate.set, nestedMap_Set.
  destruct (SAMLProviderConfigToUpdate.params config); simpl;
    by destruct (Set_loop _ _ _).
Qed.

Lemma create_set_loop config key v :
  SAMLProviderConfigToCreate.set config key v
  = do m' <- Set_loop (entries (SAMLProviderConfigToCreate.params config))
                      (strings_Split key ".") v;
    Done {| SAMLProviderConfigToCreate.id := SAMLProviderConfigToCreate.id config;
            SAMLProviderConfigToCreate.params := Some m' |}.
Proof.
  unfold SAMLProviderConfigToCreate.set, nestedMap_Set.
  destruct (SAMLProviderConfigToCreate.params config); simpl;
    by destruct (Set_loop _ _ _).
Qed.

(** Two writes to a store, as one step. *)
Lemma Set_loop_twice_commute m p q v w {T} (k : gmap string value → outcome T) :
  diverge p q = true →
  (do m1 <- Set_loop m p v; do m2 <- Set_loop m1 q w; k m2)
  = (do m1 <- Set_loop m q w; do m2 <- Set_loop m1 p v; k m2).
Proof.
  intros Hd. rewrite <- !bind_bind. by rewrite (Set_loop_commute m p q v w Hd).
Qed.

Lemma Set_loop_twice_overwrite m p v w {T} (k : gmap string value → outcome T) :
  (do m1 <- Set_loop m p v; do m2 <- Set_loop m1 p w; k m2)
  = (do m2 <- Set_loop m p w; k m2).
Proof.
  destruct (Set_loop m p v) as [m1|] eqn:H1; cbn [bind].
  - by rewrite (Set_loop_overwrite _ _ _ w _ H1).
  - destruct (Set_loop m p w) as [m2|] eqn:H2; [|done].
    destruct (Set_loop_Done_any _ _ _ v _ H2) as [m1 Hm1]. congruence.
Qed.

(** Two setter calls in a row, as two writes to the store. *)
Lemma update_apply_twice config c1 c2 :
  (do config' <- update_apply config c1; update_apply config' c2)
  = do m1 <- Set_loop (entries (SAMLProviderConfigToUpdate.params config))
                      (strings_Split (key_of (field_of c1)) ".") (value_of true c1);
    do m2 <- Set_loop m1 (strings_Split (key_of (field_of c2)) ".") (value_of true c2);
    Done {| SAMLProviderConfigToUpdate.params := Some m2 |}.
Proof.
  rewrite update_apply_set, update_set_loop.
  destruct (Set_loop _ _ (value_of true c1)) as [m1|]; [|done]. cbn [bind].
  by rewrite update_apply_set, update_set_loop.
Qed.

Lemma update_apply_commute config c1 c2 :
  field_of c1 ≠ field_of c2 →
  (do config' <- update_apply config c1; update_apply config' c2)
  = (do config' <- update_apply config c2; update_apply config' c1).
Proof.
  intros Hne. rewrite !update_apply_twice.
  apply Set_loop_twice_commute, keys_diverge, Hne.
Qed.

Lemma update_apply_overwrite config c1 c2 :
  field_of c1 = field_of c2 →
  (do config' <- update_apply config c1; update_apply config' c2) = update_apply config c2.
Proof.
  intros Heq. rewrite update_apply_twice, Heq, Set_loop_twice_overwrite.
  by rewrite update_apply_set, update_set_loop.
Qed.

Lemma create_apply_twice config c1 c2 :
  (do config' <- create_apply config (Call_field c1); create_apply config' (Call_field c2))
  = do m1 <- Set_loop (entries (SAMLProviderConfigToCreate.params config))
                      (strings_Split (key_of (field_of c1)) ".") (value_of false c1);
    do m2 <- Set_loop m1 (strings_Split (key_of (field_of c2)) ".") (value_of false c2);
    Done {| SAMLProviderConfigToCreate.id := SAMLProviderConfigToCreate.id config;
            SAMLProviderConfigToCreate.params := Some m2 |}.
Proof.
  rewrite create_apply_field, create_set_loop.
  destruct (Set_loop _ _ (value_of false c1)) as [m1|]; [|done]. cbn [bind].
  by rewrite create_apply_field, create_set_loop.
Qed.

Lemma create_apply_commute config c1 c2 :
  create_field c1 ≠ create_field c2 →
  (do config' <- create_apply config c1; create_apply config' c2)
  = (do config' <- create_apply config c2; create_apply config' c1).
Proof.
  destruct c1 as [id1|c1], c2 as [id2|c2]; intros Hne; [done|..].
  - change (create_apply config (Call_ID id1))
      with (Done {| SAMLProviderConfigToCreate.id := id1;
                    SAMLProviderConfigToCreate.params :=
                      SAMLProviderConfigToCreate.params config |}).
    cbn [bind]. rewrite !create_apply_field, !create_set_loop.
    cbn [SAMLProviderConfigToCreate.params]. by destruct (Set_loop _ _ _).
  - change (create_apply config (Call_ID id2))
      with (Done {| SAMLProviderConfigToCreate.id := id2;
                    SAMLProviderConfigToCreate.params :=
                      SAMLProviderConfigToCreate.params config |}).
    cbn [bind]. rewrite !create_apply_field, !create_set_loop.
    cbn [SAMLProviderConfigToCreate.params]. by destruct (Set_loop _ _ _).
  - rewrite !create_apply_twice.
    apply Set_loop_twice_commute, keys_diverge. simpl in Hne. congruence.
Qed.

Lemma create_apply_overwrite config c1 c2 :
  create_field c1 = create_field c2 →
  (do config' <- create_apply config c1; create_apply config' c2) = create_apply config c2.
Proof.
  destruct c1 as [id1|c1], c2 as [id2|c2]; intros Heq; try done.
  simpl in Heq. inversion Heq as [Heq'].
  rewrite create_apply_twice, Heq', Set_loop_twice_overwrite.
  by rewrite create_apply_field, create_set_loop.
Qed.

(** Replacing two calls in a row by others that leave the same builder. *)
Lemma run_replace {T C} (apply : T → C → outcome T) config before after (l l' : list C) :
  (∀ config', run apply config' l = run apply config' l') →
  run apply config (before ++ l ++ after) = run apply config (before ++ l' ++ after).
Proof.
  intros Hl. rewrite !(run_app apply config before).
  destruct (run apply config before); [|done].
  cbn [bind]. by rewrite !run_app, Hl.
Qed.

Lemma run_two {T C} (apply : T → C → outcome T) config (c1 c2 : C) :
  run apply config [c1; c2] = do config' <- apply config c1; apply config' c2.
Proof.
  simpl. destruct (apply config c1) as [config'|]; [|done]. simpl.
  by destruct (apply config' c2).
Qed.

Lemma run_one {T C} (apply : T → C → outcome T) config (c : C) :
  run apply config [c] = apply config c.
Proof. simpl. by destruct (apply config c). Qed.
End reorder.

(** ** The operations, check by check *)

Section operations_more.
Lemma append_all_Some {A B} (g : A → B) (l : list A) (l0 : list B) :
  ∃ l1, foldl (λ acc x, append acc (g x)) (Some l0) l = Some l1.
Proof.
  revert l0. induction l as [|x l IH]; intros l0; simpl; [eauto|]. apply IH.
Qed.

(** Appending leaves the nil slice only when there was nothing to append. *)
Lemma append_all_None {A B} (g : A → B) (l : list A) :
  foldl (λ acc x, append acc (g x)) None l = None ↔ l = [].
Proof.
  destruct l as [|x l]; [done|]. simpl. unfold append at 2.
  destruct (append_all_Some g l (slice_elems None ++ [g x])) as [l1 ->]. done.
Qed.

Lemma toSAMLProviderConfig_mapped dao :
  samlProviderConfigDAO.toSAMLProviderConfig dao = Done (mapped dao).
Proof.
  unfold samlProviderConfigDAO.toSAMLProviderConfig, mapped.
  destruct (extractResourceID_last (samlProviderConfigDAO.Name dao)) as (id & -> & ->).
  done.
Qed.

Context {lib : GoLib} {http : HTTPClient}.

Lemma decoded_relayed answer reqs :
  providerConfigClient.decoded (answer, reqs) = Done (relayed answer, reqs).
Proof.
  destruct answer as [dao|err]; simpl; [|done]. by rewrite toSAMLProviderConfig_mapped.
Qed.

Lemma makeRequest_checked c req :
  providerConfigClient.makeRequest c req
  = match check_project c with
    | Some err => (Err err, [])
    | None =>
        let req' := request_to c (Method req) (URL req) (Body req) (Opts req) in
        (DoAndUnmarshal req', [req'])
    end.
Proof.
  unfold providerConfigClient.makeRequest, check_project.
  by destruct (String.eqb _ "").
Qed.

Lemma validateSAMLConfigID_check id : validateSAMLConfigID id = check_id id.
Proof. unfold validateSAMLConfigID, check_id. by destruct (strings_HasPrefix id "saml."). Qed.

(** An update builder, and what [buildRequest] returns on it. *)
Lemma update_builder_built calls :
  ∃ config,
    update_builder calls = Done config ∧
    SAMLProviderConfigToUpdate.buildRequest config
    = Done (match first_failure (update_checks (supplied calls)) with
            | Some err => Err err
            | None => Ok (SAMLProviderConfigToUpdate.params config)
            end).
Proof.
  destruct (update_builder_represents calls) as (config & Hrun & Hrep).
  exists config. split; [done|]. by apply update_buildRequest_checks.
Qed.
End operations_more.

(** ** When the checks all pass *)

Section checks_pass.
Context {lib : GoLib}.

Lemma first_failure_None (checks : list (option error)) :
  first_failure checks = None ↔ Forall (λ check, check = None) checks.
Proof.
  induction checks as [|[err|] checks IH]; simpl.
  - split; [constructor|done].
  - split; [done|]. by intros [? _]%Forall_cons.
  - rewrite IH. split; [by constructor|]. by intros [_ ?]%Forall_cons.
Qed.

Lemma check_string_present msg o :
  required msg (check_string msg) o = None → present_nonempty o = true.
Proof.
  destruct o as [s|]; [|done]. simpl. unfold check_string.
  by destruct (String.eqb s "").
Qed.

Lemma check_url_present msg what o :
  required msg (check_url msg what) o = None → present_url o = true.
Proof.
  destruct o as [s|]; [|done]. simpl. unfold check_url.
  destruct (String.eqb s ""); [done|]. by destruct (url_ParseRequestURI s).
Qed.

Lemma check_certs_present msg o :
  required msg check_certs o = None → present_certs o = true.
Proof.
  destruct o as [certs|]; [|done]. simpl.
  destruct certs as [|c certs]; [done|]. cbn [check_certs length Nat.eqb negb andb].
  rewrite existsb_empty_forallb. by destruct (forallb _ _).
Qed.

Lemma optional_unless_absent {A} (valid : option A → bool) (check : A → option error)
    msg (o : option A) :
  (required msg check o = None → valid o = true) →
  optional check o = None → unless_absent valid o = true.
Proof. destruct o; simpl; auto. Qed.

Lemma checks_complete id f :
  first_failure (create_checks id f) = None → complete id f = true.
Proof.
  rewrite first_failure_None. unfold create_checks, complete.
  rewrite !Forall_cons. intros (Hid & _ & Hidp & Hsso & Hcerts & Hrp & Hcb & _).
  rewrite (check_string_present _ _ Hidp), (check_url_present _ _ _ Hsso),
    (check_certs_present _ _ Hcerts), (check_string_present _ _ Hrp),
    (check_url_present _ _ _ Hcb).
  unfold check_id in Hid. by destruct (strings_HasPrefix id "saml.").
Qed.

Lemma checks_acceptable f :
  first_failure (update_checks f) = None → acceptable f = true.
Proof.
  rewrite first_failure_None. unfold update_checks, acceptable.
  rewrite !Forall_cons. intros (Hany & Hidp & Hsso & Hcerts & Hrp & Hcb & _).
  rewrite (optional_unless_absent _ _ _ _ (check_string_present _ _) Hidp).
  rewrite (optional_unless_absent _ _ _ _ (check_url_present _ _ _) Hsso).
  rewrite (optional_unless_absent _ _ _ _ (check_certs_present "" _) Hcerts).
  rewrite (optional_unless_absent _ _ _ _ (check_string_present _ _) Hrp).
  rewrite (optional_unless_absent _ _ _ _ (check_url_present _ _ _) Hcb).
  unfold check_any in Hany. by destruct (any_supplied f).
Qed.
End checks_pass.


(** ** The identifier prefix *)

Section prefix.
(** [HasPrefix] holds of the strings that continue the prefix. *)
Lemma strings_HasPrefix_append (s prefix : string) :
  strings_HasPrefix s prefix = true ↔ ∃ rest, s = prefix +:+ rest.
Proof.
  unfold strings_HasPrefix. revert s. induction prefix as [|c prefix IH]; intros s.
  - split; [|by destruct s]. intros _. by exists s.
  - destruct s as [|c' s]; simpl.
    { split; [done|]. by intros [rest [=]]. }
    destruct (Ascii.ascii_dec c c') as [<-|Hc].
    + rewrite IH. split; intros [rest Hrest]; exists rest.
      * by rewrite Hrest.
      * by inversion Hrest.
    + split; [done|]. intros [rest Hrest]. by inversion Hrest.
Qed.
End prefix.

(** ** The store by reference *)

Section in_place.
Implicit Types (h : heap) (l : loc) (fp : gset loc) (v : iface) (t : value)
  (m : gmap string value) (segments : list string).

Lemma heap_index_at h l entries k :
  h !! l = Some entries →
  heap_index h (Some l) k = match entries !! k with
                            | Some val => (val, true)
                            | None => (INil, false)
                            end.
Proof. intros Hl. unfold heap_index, heap_entries. simpl. by rewrite Hl. Qed.

Lemma heap_assign_at h l entries k v :
  h !! l = Some entries →
  heap_assign h (Some l) k v = Done (<[l := <[k := v]> entries]> h).
Proof. intros Hl. unfold heap_assign, heap_entries. simpl. by rewrite Hl. Qed.

Lemma heap_make_fresh h : h !! (heap_make h).1 = None.
Proof. apply not_elem_of_dom. unfold heap_make. simpl. apply is_fresh. Qed.

Lemma heap_Set_loop_step h curr k k' rest v :
  heap_Set_loop h curr (k :: k' :: rest) v
  = match heap_index h curr k with
    | (IMap child, true) => heap_Set_loop h child (k' :: rest) v
    | (_, true) => Panic
    | (_, false) =>
        do h2 <- heap_assign (heap_make h).2 curr k (IMap (Some (heap_make h).1));
        heap_Set_loop h2 (Some (heap_make h).1) (k' :: rest) v
    end.
Proof.
  cbn [heap_Set_loop]. by destruct (heap_index h curr k) as [[] []].
Qed.

Lemma heap_Get_loop_step h curr k k' rest :
  heap_Get_loop h curr (k :: k' :: rest)
  = match heap_index h curr k with
    | (IMap child, true) => heap_Get_loop h child (k' :: rest)
    | (_, true) => Panic
    | (val, false) => Done (val, false)
    end.
Proof.
  cbn [heap_Get_loop]. by destruct (heap_index h curr k) as [[] []].
Qed.

Lemma leaf_not_map v t : leaf v = Some t → is_map t = false.
Proof. destruct v; intros [= <-]; done. Qed.

Lemma owns_inv h fp v m :
  owns h fp v (VMap m) →
  ∃ l entries (part : string → gset loc),
    v = IMap (Some l) ∧ h !! l = Some entries ∧ l ∈ fp ∧
    (∀ k, entries !! k = None ↔ m !! k = None) ∧
    (∀ k v' t, entries !! k = Some v' → m !! k = Some t → owns h (part k) v' t) ∧
    (∀ k, part k ⊆ fp ∧ l ∉ part k) ∧
    (∀ k k', k ≠ k' → part k ## part k').
Proof.
  inversion 1 as [? ? ? Hleaf|? l entries ? part]; simplify_eq.
  - by apply leaf_not_map in Hleaf.
  - by exists l, entries, part.
Qed.

Lemma owns_leaf_inv h fp v t : owns h fp v t → is_map t = false → leaf v = Some t.
Proof. by inversion 1. Qed.

(** What a value is built from is all that matters. *)
Lemma owns_frame t : ∀ h h' fp v,
  owns h fp v t → (∀ l, l ∈ fp → h' !! l = h !! l) → owns h' fp v t.
Proof.
  induction t as [t Ht|m IH] using value_map_ind; intros h h' fp v Ho Hfr.
  - apply owns_leaf. by eapply owns_leaf_inv.
  - apply owns_inv in Ho as (l & entries & part & -> & Hl & Hin & Hdom & Hch & Hpart & Hdisj).
    apply (owns_map _ _ _ entries _ part); try done.
    + by rewrite Hfr.
    + intros k v' t Hk Ht. eapply IH; [done|by eapply Hch|].
      intros l' Hl'. apply Hfr. by apply (proj1 (Hpart k)).
Qed.

Lemma owns_weaken h fp fp' v t : owns h fp v t → fp ⊆ fp' → owns h fp' v t.
Proof.
  intros Ho Hsub. destruct t as [| | | |m];
    try (apply owns_leaf; by eapply owns_leaf_inv).
  apply owns_inv in Ho as (l & entries & part & -> & Hl & Hin & Hdom & Hch & Hpart & Hdisj).
  apply (owns_map _ _ _ entries _ part); try done.
  - by apply Hsub.
  - intros k. destruct (Hpart k). split; [by etrans|done].
Qed.

Lemma owns_empty h l : h !! l = Some ∅ → owns h {[l]} (IMap (Some l)) (VMap ∅).
Proof.
  intros Hl. apply (owns_map _ _ _ ∅ _ (λ _, ∅)); try done; set_solver.
Qed.

Lemma owns_map_inv h fp r t :
  owns h fp (IMap r) t → ∃ l m, r = Some l ∧ t = VMap m.
Proof. inversion 1; simplify_eq; eauto. Qed.

(** The heap once a map has been made for an absent segment. *)
Lemma heap_grow_facts h l entries k :
  h !! l = Some entries →
  let newChild := (heap_make h).1 in
  h !! newChild = None ∧ newChild ≠ l ∧
  heap_grow h l k !! newChild = Some ∅ ∧
  heap_grow h l k !! l = Some (<[k := IMap (Some newChild)]> entries) ∧
  (∀ l', l' ≠ l → l' ≠ newChild → heap_grow h l k !! l' = h !! l') ∧
  dom (heap_grow h l k) = dom h ∪ {[newChild]}.
Proof.
  intros Hl newChild. pose proof (heap_make_fresh h) as Hfresh.
  fold newChild in Hfresh.
  assert (newChild ≠ l) as Hne by (intros ->; congruence).
  assert (heap_grow h l k
          = <[l := <[k := IMap (Some newChild)]> entries]> (<[newChild := ∅]> h)) as ->.
  { subst newChild. unfold heap_grow, heap_make, heap_entries in *.
    cbn [mbind option_bind fst snd] in *.
    rewrite lookup_insert_ne by done. by rewrite Hl. }
  repeat split; try done.
  - rewrite lookup_insert_ne by done. by rewrite lookup_insert_eq.
  - by rewrite lookup_insert_eq.
  - intros l' H1 H2. by rewrite !lookup_insert_ne by done.
  - rewrite !dom_insert_L. apply elem_of_dom_2 in Hl.
    apply set_eq. intros x. rewrite !elem_of_union, !elem_of_singleton.
    split; [ intros [-> | [-> | ?] ] | intros [? | ->] ]; auto.
Qed.

(** One step of [Set] below the last segment, on a map whose entries are
    those of a tree. *)
Lemma heap_Set_loop_cases h l entries m (part : string → gset loc) k k' rest v t :
  h !! l = Some entries →
  (∀ k, entries !! k = None ↔ m !! k = None) →
  (∀ k v' t', entries !! k = Some v' → m !! k = Some t' → owns h (part k) v' t') →
  (∃ child mc,
     entries !! k = Some (IMap (Some child)) ∧ m !! k = Some (VMap mc) ∧
     owns h (part k) (IMap (Some child)) (VMap mc) ∧
     heap_Set_loop h (Some l) (k :: k' :: rest) v
     = heap_Set_loop h (Some child) (k' :: rest) v ∧
     Set_loop m (k :: k' :: rest) t
     = do child' <- Set_loop mc (k' :: rest) t; Done (<[k := VMap child']> m)) ∨
  (∃ v0 t0,
     entries !! k = Some v0 ∧ m !! k = Some t0 ∧ leaf v0 = Some t0 ∧
     heap_Set_loop h (Some l) (k :: k' :: rest) v = Panic ∧
     Set_loop m (k :: k' :: rest) t = Panic) ∨
  (entries !! k = None ∧ m !! k = None ∧
   heap_Set_loop h (Some l) (k :: k' :: rest) v
   = heap_Set_loop (heap_grow h l k) (Some (heap_make h).1) (k' :: rest) v ∧
   Set_loop m (k :: k' :: rest) t
   = do newChild <- Set_loop ∅ (k' :: rest) t; Done (<[k := VMap newChild]> m)).
Proof.
  intros Hl Hdom Hch.
  rewrite heap_Set_loop_step, (heap_index_at _ _ entries) by done.
  rewrite Set_loop_step by done.
  destruct (entries !! k) as [v0|] eqn:Hk.
  - destruct (m !! k) as [t0|] eqn:Hmk; [|apply Hdom in Hmk; congruence].
    pose proof (Hch k v0 t0 Hk Hmk) as Ho.
    destruct (is_map t0) eqn:Hmap.
    + left. destruct t0 as [| | | |mc]; try done.
      apply owns_inv in Ho as Ho'. destruct Ho' as (child & ? & ? & -> & _).
      exists child, mc. done.
    + right; left. exists v0, t0.
      pose proof (owns_leaf_inv _ _ _ _ Ho Hmap) as Hleaf.
      repeat split; try done.
      * by destruct v0.
      * by destruct t0.
  - right; right. apply Hdom in Hk as Hmk. rewrite Hmk.
    repeat split; done.
Qed.

End in_place.

Section in_place_Set.
Implicit Types (h : heap) (l : loc) (fp : gset loc) (v : iface) (t : value)
  (m : gmap string value) (segments : list string).

(** [Set] writes to the maps the store is built from and to maps it makes,
    and to no other. *)
Lemma heap_Set_loop_frame segments : ∀ h fp l m v h',
  owns h fp (IMap (Some l)) (VMap m) → fp ⊆ dom h →
  heap_Set_loop h (Some l) segments v = Done h' →
  dom h ⊆ dom h' ∧ ∀ l', l' ∈ dom h → l' ∉ fp → h' !! l' = h !! l'.
Proof.
  induction segments as [|k rest IH]; intros h fp l m v h' Ho Hfp HS.
  { by inversion HS. }
  apply owns_inv in Ho as Hinv.
  destruct Hinv as (? & entries & part & [= <-] & Hl & Hin & Hdom & Hch & Hpart & Hdisj).
  destruct rest as [|k' rest].
  - cbn [heap_Set_loop] in HS. rewrite (heap_assign_at _ _ entries) in HS by done.
    inversion HS; subst h'. split.
    + rewrite dom_insert_L. apply union_subseteq_r.
    + intros l' _ Hl'. apply lookup_insert_ne. by intros ->.
  - destruct (heap_Set_loop_cases h l entries m part k k' rest v VNil Hl Hdom Hch)
      as [(child & mc & Hk & Hmk & Hoc & HSeq & _)
         |[(v0 & t0 & _ & _ & _ & HP & _)|(Hk & Hmk & HSeq & _)]].
    + rewrite HSeq in HS. destruct (Hpart k) as [Hsub Hnl].
      destruct (IH h (part k) child mc v h' Hoc) as [Hd Hfr]; [by etrans|done|].
      split; [done|]. intros l' ? ?. apply Hfr; [done|]. by intros ?%Hsub.
    + congruence.
    + rewrite HSeq in HS.
      pose proof (heap_grow_facts h l entries k Hl)
        as (Hfresh & Hne & Hnew & Hl2 & Hother & Hdom2).
      destruct (IH (heap_grow h l k) {[(heap_make h).1]} (heap_make h).1 ∅ v h')
        as [Hd Hfr];
        [by apply owns_empty | rewrite Hdom2; apply union_subseteq_r | done |].
      rewrite Hdom2 in Hd, Hfr. split.
      * etrans; [|exact Hd]. apply union_subseteq_l.
      * intros l' Hl' Hnfp.
        assert (l' ≠ (heap_make h).1) by (intros ->; by apply not_elem_of_dom in Hfresh).
        assert (l' ≠ l) by (by intros ->).
        rewrite Hfr, Hother; try done.
        -- apply elem_of_union. by left.
        -- by rewrite elem_of_singleton.
Qed.

(** [Set] in place panics exactly when [Set] on the tree does. *)
Lemma heap_Set_loop_outcome segments : ∀ h fp l m v t,
  owns h fp (IMap (Some l)) (VMap m) → fp ⊆ dom h →
  match Set_loop m segments t with
  | Done _ => ∃ h', heap_Set_loop h (Some l) segments v = Done h'
  | Panic => heap_Set_loop h (Some l) segments v = Panic
  end.
Proof.
  induction segments as [|k rest IH]; intros h fp l m v t Ho Hfp.
  { simpl. eauto. }
  apply owns_inv in Ho as Hinv.
  destruct Hinv as (? & entries & part & [= <-] & Hl & Hin & Hdom & Hch & Hpart & Hdisj).
  destruct rest as [|k' rest].
  - cbn [heap_Set_loop Set_loop]. rewrite (heap_assign_at _ _ entries) by done. eauto.
  - destruct (heap_Set_loop_cases h l entries m part k k' rest v t Hl Hdom Hch)
      as [(child & mc & Hk & Hmk & Hoc & -> & ->)
         |[(v0 & t0 & _ & _ & _ & -> & ->)|(Hk & Hmk & -> & ->)]]; [| done |].
    + destruct (Hpart k) as [Hsub Hnl].
      specialize (IH h (part k) child mc v t Hoc).
      destruct (Set_loop mc (k' :: rest) t); simpl; apply IH; by etrans.
    + pose proof (heap_grow_facts h l entries k Hl)
        as (Hfresh & Hne & Hnew & Hl2 & Hother & Hdom2).
      specialize (IH (heap_grow h l k) {[(heap_make h).1]} (heap_make h).1 ∅ v t).
      destruct (Set_loop ∅ (k' :: rest) t); simpl; apply IH;
        try (by apply owns_empty); rewrite Hdom2; apply union_subseteq_r.
Qed.

(** After [Set] of a value that is not a map, the store is the tree that
    [Set] on the tree returns: it is built from the maps it was built from
    and the maps [Set] has made. *)
Lemma heap_Set_loop_owns segments : ∀ h fp l m v t m' h',
  owns h fp (IMap (Some l)) (VMap m) → fp ⊆ dom h → leaf v = Some t →
  Set_loop m segments t = Done m' →
  heap_Set_loop h (Some l) segments v = Done h' →
  owns h' (fp ∪ (dom h' ∖ dom h)) (IMap (Some l)) (VMap m').
Proof.
  induction segments as [|k rest IH]; intros h fp l m v t m' h' Ho Hfp Hleaf HT HS.
  { inversion HT; inversion HS; subst. eapply owns_weaken; [done|]. apply union_subseteq_l. }
  apply owns_inv in Ho as Hinv.
  destruct Hinv as (? & entries & part & [= <-] & Hl & Hin & Hdom & Hch & Hpart & Hdisj).
  assert (l ∈ dom h) as Hlh by (by apply elem_of_dom_2 in Hl).
  destruct rest as [|k' rest].
  - cbn [heap_Set_loop Set_loop] in HS, HT.
    rewrite (heap_assign_at _ _ entries) in HS by done.
    inversion HS; inversion HT; subst h' m'; clear HS HT.
    apply (owns_map _ _ _ (<[k := v]> entries) _
             (λ k0, if decide (k0 = k) then ∅ else part k0)).
    + by rewrite lookup_insert_eq.
    + apply elem_of_union. by left.
    + intros k0. destruct (decide (k0 = k)) as [->|].
      * by rewrite !lookup_insert_eq.
      * by rewrite !lookup_insert_ne.
    + intros k0 v' t'. destruct (decide (k0 = k)) as [->|].
      * rewrite !lookup_insert_eq. intros [= <-] [= <-]. by apply owns_leaf.
      * rewrite !lookup_insert_ne by done. intros Hv' Ht'.
        eapply owns_frame; [by eapply Hch|].
        intros l' Hl'. apply lookup_insert_ne. intros <-. by apply (Hpart k0).
    + intros k0. destruct (Hpart k0). case_decide.
      { split; [intros x Hx|intros Hx]; by apply elem_of_empty in Hx. }
      split; [|done]. etrans; [done|]. apply union_subseteq_l.
    + intros k0 k1 Hne. repeat case_decide; subst; try done. by apply Hdisj.
  - destruct (heap_Set_loop_cases h l entries m part k k' rest v t Hl Hdom Hch)
      as [(child & mc & Hk & Hmk & Hoc & HSeq & HTeq)
         |[(v0 & t0 & _ & _ & _ & HP & _)|(Hk & Hmk & HSeq & HTeq)]]; [| congruence |].
    + rewrite HSeq in HS. rewrite HTeq in HT.
      destruct (Set_loop mc (k' :: rest) t) as [mc'|] eqn:HTc; [|done].
      inversion HT; subst m'; clear HT.
      destruct (Hpart k) as [Hsub Hnl].
      assert (part k ⊆ dom h) as Hsubh by (by etrans).
      destruct (heap_Set_loop_frame _ _ _ _ _ _ _ Hoc Hsubh HS) as [Hd Hfr].
      pose proof (IH _ _ _ _ _ _ _ _ Hoc Hsubh Hleaf HTc HS) as Hoc'.
      apply (owns_map _ _ _ entries _
               (λ k0, if decide (k0 = k) then part k ∪ (dom h' ∖ dom h) else part k0)).
      * by rewrite Hfr.
      * apply elem_of_union. by left.
      * intros k0. destruct (decide (k0 = k)) as [->|].
        -- rewrite lookup_insert_eq, Hk. done.
        -- by rewrite lookup_insert_ne.
      * intros k0 v' t'. destruct (decide (k0 = k)) as [->|].
        -- rewrite lookup_insert_eq, Hk. by intros [= <-] [= <-].
        -- rewrite lookup_insert_ne by done. intros Hv' Ht'.
           eapply owns_frame; [by eapply Hch|].
           intros l' Hl'. apply Hfr.
           ++ apply Hfp. by apply (Hpart k0).
           ++ intros ?. by apply (Hdisj k0 k n l').
      * intros k0. destruct (Hpart k0) as [Hs0 Hn0]. case_decide; [subst|].
        -- split.
           ++ intros x [?%Hs0|?]%elem_of_union; apply elem_of_union; auto.
           ++ rewrite elem_of_union, elem_of_difference. tauto.
        -- split; [|done]. etrans; [done|]. apply union_subseteq_l.
      * intros k0 k1 Hne.
        assert (∀ k2, part k2 ## dom h' ∖ dom h).
        { intros k2 x Hx [_ Hx']%elem_of_difference. apply Hx', Hfp.
          by apply (Hpart k2). }
        repeat case_decide; subst; try done.
        -- intros x [?|?]%elem_of_union ?; [by apply (Hdisj k k1 Hne x)|by apply (H k1 x)].
        -- intros x ? [?|?]%elem_of_union; [by apply (Hdisj k0 k Hne x)|by apply (H k0 x)].
        -- by apply Hdisj.
    + rewrite HSeq in HS. rewrite HTeq in HT.
      destruct (Set_loop ∅ (k' :: rest) t) as [mn'|] eqn:HTc; [|done].
      inversion HT; subst m'; clear HT.
      pose proof (heap_grow_facts h l entries k Hl)
        as (Hfresh & Hne & Hnew & Hl2 & Hother & Hdom2).
      set (newChild := (heap_make h).1) in *.
      set (h2 := heap_grow h l k) in *.
      assert (newChild ∉ dom h) as Hnh by (by apply not_elem_of_dom).
      assert (∀ x, x ∈ dom h → x ∈ dom h2) as Hin2.
      { intros x ?. rewrite Hdom2. apply elem_of_union. by left. }
      pose proof (owns_empty h2 newChild Hnew) as Hoc.
      assert ({[newChild]} ⊆ dom h2) as Hsub2 by (rewrite Hdom2; apply union_subseteq_r).
      destruct (heap_Set_loop_frame _ _ _ _ _ _ _ Hoc Hsub2 HS) as [Hd Hfr].
      pose proof (IH _ _ _ _ _ _ _ _ Hoc Hsub2 Hleaf HTc HS) as Hoc'.
      assert (∀ l', l' ∈ dom h → l' ≠ l → h' !! l' = h !! l') as Hfr'.
      { intros l' Hl' Hl'l. assert (l' ≠ newChild) by (by intros ->).
        rewrite Hfr, Hother; try done; [by apply Hin2|by rewrite elem_of_singleton]. }
      apply (owns_map _ _ _ (<[k := IMap (Some newChild)]> entries) _
               (λ k0, if decide (k0 = k) then {[newChild]} ∪ (dom h' ∖ dom h2)
                      else part k0)).
      * rewrite Hfr; [done|by apply Hin2|by rewrite elem_of_singleton].
      * apply elem_of_union. by left.
      * intros k0. destruct (decide (k0 = k)) as [->|].
        -- by rewrite !lookup_insert_eq.
        -- by rewrite !lookup_insert_ne.
      * intros k0 v' t'. destruct (decide (k0 = k)) as [->|].
        -- rewrite !lookup_insert_eq. by intros [= <-] [= <-].
        -- rewrite !lookup_insert_ne by done. intros Hv' Ht'.
           eapply owns_frame; [by eapply Hch|].
           intros l' Hl'. apply Hfr'.
           ++ apply Hfp. by apply (Hpart k0).
           ++ intros ->. by apply (Hpart k0).
      * intros k0. destruct (Hpart k0) as [Hs0 Hn0]. case_decide; [subst|].
        -- split.
           ++ intros x [->%elem_of_singleton|[Hx Hx2]%elem_of_difference]%elem_of_union;
                apply elem_of_union; right; apply elem_of_difference.
              ** split; [|done]. apply Hd. by apply elem_of_dom_2 in Hnew.
              ** split; [done|]. intros ?. by apply Hx2, Hin2.
           ++ intros [->%elem_of_singleton|[_ Hx2]%elem_of_difference]%elem_of_union;
                [done|by apply Hx2, Hin2].
        -- split; [|done]. etrans; [done|]. apply union_subseteq_l.
      * intros k0 k1 Hne'.
        assert (∀ k2, part k2 ## {[newChild]} ∪ (dom h' ∖ dom h2)).
        { intros k2 x Hx. destruct (Hpart k2) as [Hs2 _].
          intros [->%elem_of_singleton|[_ Hx2]%elem_of_difference]%elem_of_union.
          - by apply Hnh, Hfp, Hs2.
          - by apply Hx2, Hin2, Hfp, Hs2. }
        repeat case_decide; subst; try done. by apply Hdisj.
Qed.

End in_place_Set.

Section in_place_Get.
Implicit Types (h : heap) (l : loc) (fp : gset loc) (v : iface) (t : value)
  (m : gmap string value) (segments : list string).

Lemma heap_Get_loop_last h curr k : heap_Get_loop h curr [k] = Done (heap_index h curr k).
Proof. cbn [heap_Get_loop]. by destruct (heap_index h curr k). Qed.

(** Below an empty map nothing is found. *)
Lemma heap_Get_loop_empty h l segments :
  h !! l = Some ∅ → heap_Get_loop h (Some l) segments = Done (INil, false).
Proof.
  intros Hl. destruct segments as [|k [|k' rest]]; [done|..].
  - by rewrite heap_Get_loop_last, (heap_index_at _ _ ∅).
  - by rewrite heap_Get_loop_step, (heap_index_at _ _ ∅).
Qed.

(** [Get] reads the maps the store is built from, and no other. *)
Lemma heap_Get_loop_local segments : ∀ h h' fp l m,
  owns h fp (IMap (Some l)) (VMap m) →
  (∀ l', l' ∈ fp → h' !! l' = h !! l') →
  heap_Get_loop h' (Some l) segments = heap_Get_loop h (Some l) segments.
Proof.
  induction segments as [|k rest IH]; intros h h' fp l m Ho Hfr; [done|].
  apply owns_inv in Ho as Hinv.
  destruct Hinv as (? & entries & part & [= <-] & Hl & Hin & Hdom & Hch & Hpart & Hdisj).
  assert (h' !! l = Some entries) as Hl' by (by rewrite Hfr).
  destruct rest as [|k' rest].
  - by rewrite !heap_Get_loop_last, !(heap_index_at _ _ entries).
  - rewrite !heap_Get_loop_step, !(heap_index_at _ _ entries) by done.
    destruct (entries !! k) as [v0|] eqn:Hk; [|done].
    destruct v0 as [| | | |r]; try done.
    destruct (m !! k) as [t0|] eqn:Hmk; [|apply Hdom in Hmk; congruence].
    pose proof (Hch k _ _ Hk Hmk) as Hoc.
    destruct (owns_map_inv _ _ _ _ Hoc) as (child & mc & -> & ->).
    apply (IH h h' (part k) child mc Hoc).
    intros l' Hl'k. apply Hfr. by apply (Hpart k).
Qed.

(** [Set] below the last segment goes on in the map held under the first
    segment, which is there afterwards: the one that was there, or the one
    [Set] has made. *)
Lemma heap_Set_loop_descend h fp l m v h' k k' rest :
  owns h fp (IMap (Some l)) (VMap m) → fp ⊆ dom h →
  heap_Set_loop h (Some l) (k :: k' :: rest) v = Done h' →
  ∃ h0 child fpc mc,
    owns h0 fpc (IMap (Some child)) (VMap mc) ∧ fpc ⊆ dom h0 ∧
    heap_Set_loop h0 (Some child) (k' :: rest) v = Done h' ∧
    heap_index h' (Some l) k = (IMap (Some child), true) ∧
    ∀ k1 p, heap_Get_loop h (Some l) (k :: k1 :: p) = heap_Get_loop h0 (Some child) (k1 :: p).
Proof.
  intros Ho Hfp HS. apply owns_inv in Ho as Hinv.
  destruct Hinv as (? & entries & part & [= <-] & Hl & Hin & Hdom & Hch & Hpart & Hdisj).
  assert (l ∈ dom h) as Hlh by (by apply elem_of_dom_2 in Hl).
  destruct (heap_Set_loop_cases h l entries m part k k' rest v VNil Hl Hdom Hch)
    as [(child & mc & Hk & Hmk & Hoc & HSeq & _)
       |[(v0 & t0 & _ & _ & _ & HP & _)|(Hk & Hmk & HSeq & _)]]; [| congruence |].
  - rewrite HSeq in HS. destruct (Hpart k) as [Hsub Hnl].
    assert (part k ⊆ dom h) as Hsubh by (by etrans).
    destruct (heap_Set_loop_frame _ _ _ _ _ _ _ Hoc Hsubh HS) as [_ Hfr].
    exists h, child, (part k), mc. repeat split; try done.
    + rewrite (heap_index_at _ _ entries); [by rewrite Hk|]. by rewrite Hfr.
    + intros k1 p. by rewrite heap_Get_loop_step, (heap_index_at _ _ entries), Hk.
  - rewrite HSeq in HS.
    pose proof (heap_grow_facts h l entries k Hl)
      as (Hfresh & Hne & Hnew & Hl2 & Hother & Hdom2).
    set (newChild := (heap_make h).1) in *.
    set (h2 := heap_grow h l k) in *.
    pose proof (owns_empty h2 newChild Hnew) as Hoc.
    assert ({[newChild]} ⊆ dom h2) as Hsub2 by (rewrite Hdom2; apply union_subseteq_r).
    destruct (heap_Set_loop_frame _ _ _ _ _ _ _ Hoc Hsub2 HS) as [_ Hfr].
    exists h2, newChild, {[newChild]}, ∅. repeat split; try done.
    + rewrite (heap_index_at _ _ (<[k := IMap (Some newChild)]> entries)).
      * by rewrite lookup_insert_eq.
      * rewrite Hfr; [done| |by rewrite elem_of_singleton].
        rewrite Hdom2. apply elem_of_union. by left.
    + intros k1 p. rewrite heap_Get_loop_step, (heap_index_at _ _ entries), Hk by done.
      by rewrite heap_Get_loop_empty.
Qed.

(** [Set] leaves alone what is held under the other keys of the map. *)
Lemma heap_Set_loop_siblings h fp l m v h' k rest k0 p :
  owns h fp (IMap (Some l)) (VMap m) → fp ⊆ dom h →
  heap_Set_loop h (Some l) (k :: rest) v = Done h' → k0 ≠ k →
  heap_Get_loop h' (Some l) (k0 :: p) = heap_Get_loop h (Some l) (k0 :: p).
Proof.
  intros Ho Hfp HS Hk0. apply owns_inv in Ho as Hinv.
  destruct Hinv as (? & entries & part & [= <-] & Hl & Hin & Hdom & Hch & Hpart & Hdisj).
  assert (l ∈ dom h) as Hlh by (by apply elem_of_dom_2 in Hl).
  assert (∃ entries', h' !! l = Some entries' ∧ entries' !! k0 = entries !! k0 ∧
          ∀ l', l' ∈ part k0 → h' !! l' = h !! l') as (entries' & Hl' & Hk0' & Hfr0).
  { destruct rest as [|k' rest].
    - cbn [heap_Set_loop] in HS. rewrite (heap_assign_at _ _ entries) in HS by done.
      inversion HS; subst h'. exists (<[k := v]> entries). split; [|split].
      + by rewrite lookup_insert_eq.
      + by rewrite lookup_insert_ne.
      + intros l' Hl'. apply lookup_insert_ne. intros <-. by apply (Hpart k0).
    - destruct (heap_Set_loop_cases h l entries m part k k' rest v VNil Hl Hdom Hch)
        as [(child & mc & Hk & Hmk & Hoc & HSeq & _)
           |[(v0 & t0 & _ & _ & _ & HP & _)|(Hk & Hmk & HSeq & _)]]; [| congruence |].
      + rewrite HSeq in HS. destruct (Hpart k) as [Hsub Hnl].
        assert (part k ⊆ dom h) as Hsubh by (by etrans).
        destruct (heap_Set_loop_frame _ _ _ _ _ _ _ Hoc Hsubh HS) as [_ Hfr].
        exists entries. split; [by rewrite Hfr|split; [done|]].
        intros l' Hl'. apply Hfr.
        * apply Hfp. by apply (Hpart k0).
        * intros ?. by apply (Hdisj k0 k Hk0 l').
      + rewrite HSeq in HS.
        pose proof (heap_grow_facts h l entries k Hl)
          as (Hfresh & Hne & Hnew & Hl2 & Hother & Hdom2).
        set (newChild := (heap_make h).1) in *.
        set (h2 := heap_grow h l k) in *.
        pose proof (owns_empty h2 newChild Hnew) as Hoc.
        assert ({[newChild]} ⊆ dom h2) as Hsub2
          by (rewrite Hdom2; apply union_subseteq_r).
        destruct (heap_Set_loop_frame _ _ _ _ _ _ _ Hoc Hsub2 HS) as [_ Hfr].
        assert (∀ x, x ∈ dom h → x ∈ dom h2) as Hin2.
        { intros x ?. rewrite Hdom2. apply elem_of_union. by left. }
        assert (newChild ∉ dom h) as Hnh by (by apply not_elem_of_dom).
        exists (<[k := IMap (Some newChild)]> entries). split; [|split].
        * rewrite Hfr; [done|by apply Hin2|by rewrite elem_of_singleton].
        * by rewrite lookup_insert_ne.
        * intros l' Hl'. assert (l' ∈ dom h) by (by apply Hfp, (Hpart k0)).
          assert (l' ≠ newChild) by (by intros ->).
          assert (l' ≠ l) by (intros ->; by apply (Hpart k0)).
          rewrite Hfr, Hother; try done; [by apply Hin2|by rewrite elem_of_singleton]. }
  destruct p as [|k1 p].
  - by rewrite !heap_Get_loop_last, (heap_index_at _ _ entries'),
      (heap_index_at _ _ entries), Hk0'.
  - rewrite !heap_Get_loop_step, (heap_index_at _ _ entries'),
      (heap_index_at _ _ entries), Hk0' by done.
    destruct (entries !! k0) as [v0|] eqn:Hk; [|done].
    destruct v0 as [| | | |r]; try done.
    destruct (m !! k0) as [t0|] eqn:Hmk; [|apply Hdom in Hmk; congruence].
    pose proof (Hch k0 _ _ Hk Hmk) as Hoc.
    destruct (owns_map_inv _ _ _ _ Hoc) as (child & mc & -> & ->).
    by apply (heap_Get_loop_local _ h h' (part k0) child mc).
Qed.

(** After [Set], [Get] of the path returns the value. *)
Lemma heap_Set_Get_loop segments : ∀ h fp l m v h',
  segments ≠ [] →
  owns h fp (IMap (Some l)) (VMap m) → fp ⊆ dom h →
  heap_Set_loop h (Some l) segments v = Done h' →
  heap_Get_loop h' (Some l) segments = Done (v, true).
Proof.
  induction segments as [|k rest IH]; intros h fp l m v h' Hne Ho Hfp HS; [done|].
  destruct rest as [|k' rest].
  - apply owns_inv in Ho as (? & entries & part & [= <-] & Hl & _).
    cbn [heap_Set_loop] in HS. rewrite (heap_assign_at _ _ entries) in HS by done.
    inversion HS; subst h'.
    rewrite heap_Get_loop_last, (heap_index_at _ _ (<[k := v]> entries)).
    + by rewrite lookup_insert_eq.
    + by rewrite lookup_insert_eq.
  - destruct (heap_Set_loop_descend _ _ _ _ _ _ _ _ _ Ho Hfp HS)
      as (h0 & child & fpc & mc & Hoc & Hfpc & HSc & Hidx & _).
    rewrite heap_Get_loop_step, Hidx. by eapply IH.
Qed.

(** After [Set], every proper prefix of the path leads to a map. *)
Lemma heap_Set_loop_levels segments : ∀ h fp l m v h' pre post,
  owns h fp (IMap (Some l)) (VMap m) → fp ⊆ dom h →
  heap_Set_loop h (Some l) segments v = Done h' →
  segments = pre ++ post → pre ≠ [] → post ≠ [] →
  ∃ level, heap_Get_loop h' (Some l) pre = Done (IMap (Some level), true).
Proof.
  induction segments as [|k rest IH]; intros h fp l m v h' pre post Ho Hfp HS Hseg Hpre Hpost.
  { symmetry in Hseg. by apply app_eq_nil in Hseg as [? _]. }
  destruct pre as [|k0 pre]; [done|]. injection Hseg as <- ->.
  destruct (pre ++ post) as [|k' rest] eqn:Hrest.
  { by apply app_eq_nil in Hrest as [_ ?]. }
  destruct (heap_Set_loop_descend _ _ _ _ _ _ _ _ _ Ho Hfp HS)
    as (h0 & child & fpc & mc & Hoc & Hfpc & HSc & Hidx & _).
  destruct pre as [|k1 pre].
  - exists child. by rewrite heap_Get_loop_last, Hidx.
  - rewrite heap_Get_loop_step, Hidx. by eapply (IH h0 fpc child mc v h' (k1 :: pre) post).
Qed.

(** [Set] leaves alone what [Get] returns on a path that parts ways with the
    one written. *)
Lemma heap_Get_Set_loop_diverge segments : ∀ h fp l m v h' p,
  owns h fp (IMap (Some l)) (VMap m) → fp ⊆ dom h →
  heap_Set_loop h (Some l) segments v = Done h' →
  diverge segments p = true →
  heap_Get_loop h' (Some l) p = heap_Get_loop h (Some l) p.
Proof.
  induction segments as [|k rest IH]; intros h fp l m v h' p Ho Hfp HS Hd; [done|].
  destruct p as [|k0 p]; [done|].
  apply diverge_cons in Hd as [Hk|[<- Hd]].
  { by eapply heap_Set_loop_siblings. }
  destruct rest as [|k' rest]; [done|].
  destruct p as [|k1 p]; [done|].
  destruct (heap_Set_loop_descend _ _ _ _ _ _ _ _ _ Ho Hfp HS)
    as (h0 & child & fpc & mc & Hoc & Hfpc & HSc & Hidx & HG).
  rewrite heap_Get_loop_step, Hidx, HG. by eapply IH.
Qed.

End in_place_Get.

Section trees.
Implicit Types (h : heap) (l : loc) (fp : gset loc) (v : iface) (t : value)
  (m : gmap string value) (segments : list string).

(** In a store that is a tree no map is nil, and no two keys of a map hold
    the same map. *)
Lemma owns_not_nil h fp l m entries k :
  owns h fp (IMap (Some l)) (VMap m) → h !! l = Some entries →
  entries !! k ≠ Some (IMap None).
Proof.
  intros Ho Hl Hk. apply owns_inv in Ho
    as (? & entries' & part & [= <-] & Hl' & Hin & Hdom & Hch & Hpart & Hdisj).
  assert (entries' = entries) as -> by congruence.
  destruct (m !! k) as [t|] eqn:Hmk; [|apply Hdom in Hmk; congruence].
  by destruct (owns_map_inv _ _ _ _ (Hch k _ _ Hk Hmk)) as (? & ? & ? & _).
Qed.

Lemma owns_unshared h fp l m entries k k' child :
  owns h fp (IMap (Some l)) (VMap m) → h !! l = Some entries →
  entries !! k = Some (IMap (Some child)) →
  entries !! k' = Some (IMap (Some child)) →
  k = k'.
Proof.
  intros Ho Hl Hk Hk'. apply owns_inv in Ho
    as (? & entries' & part & [= <-] & Hl' & Hin & Hdom & Hch & Hpart & Hdisj).
  assert (entries' = entries) as -> by congruence.
  destruct (decide (k = k')) as [|Hne]; [done|exfalso].
  assert (∀ k0, entries !! k0 = Some (IMap (Some child)) → child ∈ part k0) as Hc.
  { intros k0 Hk0.
    destruct (m !! k0) as [t|] eqn:Hmk; [|apply Hdom in Hmk; congruence].
    pose proof (Hch k0 _ _ Hk0 Hmk) as Hoc.
    destruct (owns_map_inv _ _ _ _ Hoc) as (? & mc & _ & ->).
    by apply owns_inv in Hoc as (? & ? & ? & [= <-] & _ & ? & _). }
  apply (Hdisj k k' Hne child); by apply Hc.
Qed.

(** A heap holds one tree at most at a location. *)
Lemma owns_functional t : ∀ h fp fp' v t', owns h fp v t → owns h fp' v t' → t = t'.
Proof.
  induction t as [t Ht|m IH] using value_map_ind; intros h fp fp' v t' Ho Ho'.
  - apply owns_leaf_inv in Ho; [|done].
    destruct t' as [| | | |m']; try (apply owns_leaf_inv in Ho'; [congruence|done]).
    apply owns_inv in Ho' as (? & ? & ? & -> & _). done.
  - apply owns_inv in Ho
      as (l & entries & part & -> & Hl & Hin & Hdom & Hch & Hpart & Hdisj).
    destruct (owns_map_inv _ _ _ _ Ho') as (? & m' & _ & ->).
    apply owns_inv in Ho'
      as (? & entries' & part' & [= <-] & Hl' & _ & Hdom' & Hch' & _).
    assert (entries' = entries) as -> by congruence.
    f_equal. apply map_eq. intros k.
    destruct (entries !! k) as [v0|] eqn:Hk.
    + destruct (m !! k) as [t0|] eqn:Hmk; [|apply Hdom in Hmk; congruence].
      destruct (m' !! k) as [t0'|] eqn:Hmk'; [|apply Hdom' in Hmk'; congruence].
      f_equal. eapply IH; [done|by eapply Hch|by eapply Hch'].
    + apply Hdom in Hk as Hmk. apply Hdom' in Hk as Hmk'. congruence.
Qed.

(** [Get] in place returns what [Get] on the tree returns. *)
Lemma heap_Get_loop_tree segments : ∀ h fp l m,
  owns h fp (IMap (Some l)) (VMap m) →
  match Get_loop m segments with
  | Done (t, true) =>
      ∃ v fp', heap_Get_loop h (Some l) segments = Done (v, true) ∧ owns h fp' v t
  | Done (t, false) => heap_Get_loop h (Some l) segments = Done (INil, false) ∧ t = VNil
  | Panic => heap_Get_loop h (Some l) segments = Panic
  end.
Proof.
  induction segments as [|k rest IH]; intros h fp l m Ho; [done|].
  apply owns_inv in Ho as Hinv.
  destruct Hinv as (? & entries & part & [= <-] & Hl & Hin & Hdom & Hch & Hpart & Hdisj).
  destruct (m !! k) as [t0|] eqn:Hmk.
  - destruct (entries !! k) as [v0|] eqn:Hk; [|apply Hdom in Hk; congruence].
    pose proof (Hch k _ _ Hk Hmk) as Hoc.
    destruct rest as [|k' rest].
    + cbn [Get_loop]. unfold index. rewrite Hmk, heap_Get_loop_last.
      rewrite (heap_index_at _ _ entries), Hk by done. eauto.
    + rewrite heap_Get_loop_step, (heap_index_at _ _ entries), Hk by done.
      destruct (is_map t0) eqn:Hmap.
      * destruct t0 as [| | | |mc]; try done.
        apply owns_inv in Hoc as Hinv. destruct Hinv as (child & ? & ? & -> & _).
        rewrite (Get_loop_step m k mc) by done. by eapply IH.
      * rewrite (Get_loop_not_map m k _ t0) by done.
        apply owns_leaf_inv in Hoc; [|done]. by destruct v0.
  - apply Hdom in Hmk as Hk. rewrite Get_loop_absent by done.
    split; [|done]. destruct rest as [|k' rest].
    + by rewrite heap_Get_loop_last, (heap_index_at _ _ entries), Hk.
    + by rewrite heap_Get_loop_step, (heap_index_at _ _ entries), Hk.
Qed.

Lemma holds_tree_empty l : holds_tree {[l := ∅]} l ∅.
Proof.
  unfold holds_tree. eapply owns_weaken.
  - apply owns_empty. apply lookup_singleton_eq.
  - rewrite dom_singleton_L. done.
Qed.

(** [Set] on the nil map panics: every path has a segment to assign to. *)
Lemma heap_Set_loop_nil h segments v :
  segments ≠ [] → heap_Set_loop h None segments v = Panic.
Proof.
  destruct segments as [|k [|k' rest]]; [done|done|]. intros _.
  by rewrite heap_Set_loop_step.
Qed.

(** [Set] in place on a store that is a tree, for a value that is not a
    map: it panics exactly when [Set] on the tree does, and the store is
    afterwards the tree that [Set] on the tree returns. *)
Lemma heap_Set_loop_tree h l m segments v t :
  holds_tree h l m → leaf v = Some t →
  match Set_loop m segments t with
  | Done m' => ∃ h', heap_Set_loop h (Some l) segments v = Done h' ∧ holds_tree h' l m'
  | Panic => heap_Set_loop h (Some l) segments v = Panic
  end.
Proof.
  intros Ho Hleaf.
  pose proof (heap_Set_loop_outcome segments h (dom h) l m v t Ho (reflexivity _)) as HO.
  destruct (Set_loop m segments t) as [m'|] eqn:HT; [|done].
  destruct HO as [h' HS]. exists h'. split; [done|].
  destruct (heap_Set_loop_frame _ _ _ _ _ _ _ Ho (reflexivity _) HS) as [Hd _].
  eapply owns_weaken; [by eapply heap_Set_loop_owns|].
  intros x [?|[? _]%elem_of_difference]%elem_of_union; [by apply Hd|done].
Qed.

(** Where [a] and [b] hold the same map, a write below [a] shows below [b],
    and two writes, one below each, leave what the later one wrote: such a
    store is no tree. *)
Lemma shared_map_writes_meet :
  let h : heap := {[ 1%positive := {[ "a" := IMap (Some 2%positive);
                                      "b" := IMap (Some 2%positive) ]};
                     2%positive := ∅ ]} in
  let root := Some 1%positive in
  (∀ m, ¬ holds_tree h 1%positive m) ∧
  heap_Get h root "b.x" = Done (INil, false) ∧
  (∃ h', heap_Set h root "a.x" (IString "1") = Done h' ∧
         heap_Get h' root "b.x" = Done (IString "1", true)) ∧
  (∃ h12 h21,
     (do h1 <- heap_Set h root "a.x" (IString "1"); heap_Set h1 root "b.x" (IString "2"))
     = Done h12 ∧
     (do h2 <- heap_Set h root "b.x" (IString "2"); heap_Set h2 root "a.x" (IString "1"))
     = Done h21 ∧
     heap_Get h12 root "a.x" = Done (IString "2", true) ∧
     heap_Get h21 root "a.x" = Done (IString "1", true)).
Proof.
  intros h root. split; [|split; [|split]].
  - intros m Ho.
    assert ("a" = "b") as Hab; [|done].
    eapply (owns_unshared h _ _ _ _ "a" "b" 2%positive Ho); by vm_compute.
  - by vm_compute.
  - eexists. split; by vm_compute.
  - eexists _, _. repeat split; by vm_compute.
Qed.

End trees.

Section trees_twice.
Implicit Types (h : heap) (l : loc) (v w : iface) (m : gmap string value).

(** Two writes in place of values that are not maps, against the two writes
    on the tree. *)
Lemma heap_Set_loop_twice_tree h l m p q v w tv tw :
  holds_tree h l m → leaf v = Some tv → leaf w = Some tw →
  match (do m1 <- Set_loop m p tv; Set_loop m1 q tw) with
  | Done m' =>
      ∃ h', (do h1 <- heap_Set_loop h (Some l) p v; heap_Set_loop h1 (Some l) q w)
            = Done h' ∧ holds_tree h' l m'
  | Panic =>
      (do h1 <- heap_Set_loop h (Some l) p v; heap_Set_loop h1 (Some l) q w) = Panic
  end.
Proof.
  intros Ho Hv Hw.
  pose proof (heap_Set_loop_tree h l m p v tv Ho Hv) as H1.
  destruct (Set_loop m p tv) as [m1|]; cbn [bind]; [|by rewrite H1].
  destruct H1 as (h1 & -> & Ho1). cbn [bind].
  apply (heap_Set_loop_tree h1 l m1 q w tw Ho1 Hw).
Qed.

End trees_twice.

(** ** A stand-in for the iteration order

    The runtime that ranges over every map in the order of the fold. *)

Definition example_range : MapIteration :=
  {| UpdateMask_run := nestedMap_UpdateMask;
     UpdateMask_run_returns nm :=
       ex_intro _ (buildMask (entries nm))
                (conj eq_refl (buildMask_returns_buildMask (entries nm))) |}.

(** * The nested key-path store *)

(** C1, as the code has it.  Take any store and dotted path, and an
    intermediate segment of the path reached through maps.  If the segment is
    absent there, [Get] returns "not found" (the nil value, [false]).  If it is
    bound to a value that is not a map, [Get] panics on the unchecked type
    assertion.  That is the only way [Get] panics: on a path whose bound
    proper prefixes are all maps it returns. *)
Theorem Get_intermediate_segment (nm : nestedMap) (key : string) :
  (∀ pre seg post curr,
     strings_Split key "." = pre ++ seg :: post → post ≠ [] →
     walk (VMap (entries nm)) pre = Some (VMap curr) →
     (curr !! seg = None → nestedMap_Get nm key = Done (VNil, false)) ∧
     (∀ v, curr !! seg = Some v → is_map v = false → nestedMap_Get nm key = Panic)) ∧
  (prefixes_are_maps (entries nm) (strings_Split key ".") →
     ∃ r, nestedMap_Get nm key = Done r) ∧
  (nestedMap_Get nm key = Panic →
     ∃ pre seg post curr v,
       strings_Split key "." = pre ++ seg :: post ∧ post ≠ [] ∧
       walk (VMap (entries nm)) pre = Some (VMap curr) ∧
       curr !! seg = Some v ∧ is_map v = false).
Proof.
  unfold nestedMap_Get. split; [|split].
  - intros pre seg post curr Hseg Hpost Hw. rewrite Hseg.
    rewrite (Get_loop_app _ _ _ curr) by done. split.
    + apply Get_loop_absent.
    + intros v. by apply Get_loop_not_map.
  - apply Get_loop_Done.
  - apply Get_loop_Panic.
Qed.

Lemma Get_intermediate_segment_witness :
  nestedMap_Get (Some {["a" := VMap ∅]}) "a.b.c" = Done (VNil, false).
Proof.
  destruct (Get_intermediate_segment (Some {["a" := VMap ∅]}) "a.b.c") as [H _].
  destruct (H ["a"] "b" ["c"] ∅) as [Habsent _]; [reflexivity|done|reflexivity|].
  apply Habsent. reflexivity.
Defined.

(** C1 as stated fails: in the store [{a: "x"}] the intermediate segment [a]
    of the path [a.b] is bound to a string, and [Get] panics instead of
    returning "not found". *)
Lemma Get_non_map_intermediate_panics :
  nestedMap_Get (Some {["a" := VString "x"]}) "a.b" = Panic ∧
  ¬ ∃ v, nestedMap_Get (Some {["a" := VString "x"]}) "a.b" = Done (v, false).
Proof.
  assert (nestedMap_Get (Some {["a" := VString "x"]}) "a.b" = Panic) as H
    by (vm_compute; reflexivity).
  split; [done|]. intros [v Hv]. by rewrite H in Hv.
Qed.

(** C6, as the code has it, on the store as the program holds it, with maps
    held by reference.  [Set] on the nil store panics.  Let the store at [l]
    be a tree: every nested map is non-nil and no map is held under two keys
    ([holds_tree]).  If some proper prefix of the path is bound to a value
    that is not a map, [Set] panics.  Otherwise [Set] returns; afterwards
    [Get] of the same path returns the value with "found"; every proper
    prefix of the path leads to a map; [Get] of any path that parts ways with
    the written one returns what it returned before; and, for a value that is
    not a map, the store is the tree that [Set] on the tree returns. *)
Theorem Set_then_Get (h : heap) (l : loc) (m : gmap string value) (key : string)
    (v : iface) :
  holds_tree h l m →
  heap_Set h None key v = Panic ∧
  (¬ prefixes_are_maps m (strings_Split key ".") → heap_Set h (Some l) key v = Panic) ∧
  (prefixes_are_maps m (strings_Split key ".") →
     ∃ h',
       heap_Set h (Some l) key v = Done h' ∧
       heap_Get h' (Some l) key = Done (v, true) ∧
       (∀ pre post,
          strings_Split key "." = pre ++ post → pre ≠ [] → post ≠ [] →
          ∃ level, heap_Get_loop h' (Some l) pre = Done (IMap (Some level), true)) ∧
       (∀ key',
          diverge (strings_Split key ".") (strings_Split key' ".") = true →
          heap_Get h' (Some l) key' = heap_Get h (Some l) key') ∧
       (∀ t, leaf v = Some t →
          ∃ m', nestedMap_Set (Some m) key t = Done (Some m') ∧ holds_tree h' l m')).
Proof.
  intros Ho. unfold heap_Set, heap_Get, nestedMap_Set.
  pose proof (strings_Split_nonempty key ".") as Hne.
  pose proof (heap_Set_loop_outcome (strings_Split key ".") h (dom h) l m v VNil
                Ho (reflexivity _)) as HO.
  split; [by apply heap_Set_loop_nil|split].
  - intros Hm. destruct (Set_loop m _ VNil) as [m'|] eqn:HT; [|done].
    destruct Hm. by eapply Set_loop_prefixes.
  - intros Hm. destruct (Set_loop_Done m _ VNil Hm) as [m0 HT].
    rewrite HT in HO. destruct HO as [h' HS]. exists h'.
    split; [done|split; [|split; [|split]]].
    + by eapply heap_Set_Get_loop.
    + intros pre post. by eapply heap_Set_loop_levels.
    + intros key' Hd. by eapply heap_Get_Set_loop_diverge.
    + intros t Hleaf.
      pose proof (heap_Set_loop_tree h l m (strings_Split key ".") v t Ho Hleaf) as HT'.
      destruct (Set_loop m _ t) as [m'|]; [|congruence].
      destruct HT' as (h'' & HS' & Ho'). exists m'. split; [done|]. congruence.
Qed.

Lemma Set_then_Get_witness :
  ∃ h', heap_Set {[1%positive := ∅]} (Some 1%positive) "a.b.c" (IString "v") = Done h' ∧
        heap_Get h' (Some 1%positive) "a.b.c" = Done (IString "v", true).
Proof.
  destruct (Set_then_Get {[1%positive := ∅]} 1%positive ∅ "a.b.c" (IString "v"))
    as (_ & _ & H).
  - apply holds_tree_empty.
  - destruct H as (h' & HS & HG & _).
    + intros pre post w _ Hpre _ Hw. destruct pre as [|k pre]; [done|].
      simpl in Hw. rewrite lookup_empty in Hw. done.
    + exists h'. split; [exact HS|exact HG].
Defined.

(** C6 as stated fails: in the store [{a: "x"}], [Set("a.b", true)] panics on
    the unchecked type assertion, so no store follows in which [Get("a.b")]
    would return the value; and in the store [{a: nil map}] it panics on the
    assignment into the nil map. *)
Lemma Set_through_non_map_panics :
  let h : heap := {[ 1%positive := {[ "a" := IString "x" ]} ]} in
  let h0 : heap := {[ 1%positive := {[ "a" := IMap None ]} ]} in
  heap_Set h (Some 1%positive) "a.b" (IBool true) = Panic ∧
  (¬ ∃ h', heap_Set h (Some 1%positive) "a.b" (IBool true) = Done h' ∧
           heap_Get h' (Some 1%positive) "a.b" = Done (IBool true, true)) ∧
  nestedMap_Set (Some {["a" := VString "x"]}) "a.b" (VBool true) = Panic ∧
  heap_Set h0 (Some 1%positive) "a.b" (IBool true) = Panic.
Proof.
  intros h h0.
  assert (heap_Set h (Some 1%positive) "a.b" (IBool true) = Panic) as H
    by (by vm_compute).
  split; [done|split; [|split; by vm_compute]].
  intros (h' & Hh' & _). by rewrite H in Hh'.
Qed.

(** C5.  [UpdateMask] returns, as a set, exactly the dotted paths of the
    leaves of the store, whatever the iteration order: a path is in the mask
    if and only if it joins, with dots, the keys that lead to a stored value
    that is not a map.  For a store holding a top-level leaf [x] and a nested
    leaf [a.b], the mask as a set is [{"x", "a.b"}]. *)
Theorem UpdateMask_leaves (nm : nestedMap) :
  (∃ mask, nestedMap_UpdateMask nm = Ok mask ∧ buildMask_returns (entries nm) mask) ∧
  ∀ mask,
    buildMask_returns (entries nm) mask →
    (∀ p, p ∈ mask ↔ ∃ path, leaf_at (entries nm) path ∧ p = strings_Join path ".") ∧
    (∀ vx vb,
       is_map vx = false → is_map vb = false →
       nm = Some (<["x" := vx]> (<["a" := VMap {["b" := vb]}]> ∅)) →
       list_to_set mask =@{gset string} {["x"; "a.b"]}).
Proof.
  split.
  { exists (buildMask (entries nm)). split; [done|apply buildMask_returns_buildMask]. }
  intros mask Hmask%buildMask_returns_Permutation. split.
  - intros p. rewrite Hmask. split.
    + apply buildMask_leaf.
    + intros (path & Hleaf & ->). by apply leaf_buildMask.
  - intros vx vb Hx Hb ->. simpl entries in Hmask.
    rewrite Hmask.
    destruct vx; try done; destruct vb; try done; vm_compute; reflexivity.
Qed.

Lemma UpdateMask_leaves_witness :
  ∃ mask,
    nestedMap_UpdateMask (Some (<["x" := VNil]> (<["a" := VMap {["b" := VBool true]}]> ∅)))
    = Ok mask ∧
    list_to_set mask =@{gset string} {["x"; "a.b"]}.
Proof.
  destruct (UpdateMask_leaves
              (Some (<["x" := VNil]> (<["a" := VMap {["b" := VBool true]}]> ∅))))
    as [(mask & Hmask & Hreturns) Hall].
  exists mask. split; [exact Hmask|].
  destruct (Hall mask Hreturns) as [_ Hex].
  apply (Hex VNil (VBool true)); reflexivity.
Defined.

(** * The request builders *)

(** C2.  Every sequence of setter calls yields a create builder whose store
    holds what the calls supplied, and [buildRequest] on it reports the first
    failure of the checks in the order: identifier prefix, non-empty store,
    IDP entity ID, SSO URL, certificates, RP entity ID, callback URL.  When no
    check fails it returns the store and the identifier; so it does for a
    complete request, and with one required field omitted from a complete
    request it fails with the message of that field. *)
Theorem create_buildRequest_order {lib : GoLib} (calls : list create_call) :
  ∃ config,
    create_builder calls = Done config ∧
    let id := (create_supplied calls).1 in
    let f := (create_supplied calls).2 in
    SAMLProviderConfigToCreate.id config = id ∧
    represents false (SAMLProviderConfigToCreate.params config) f ∧
    SAMLProviderConfigToCreate.buildRequest config
    = Done (match first_failure (create_checks id f) with
            | Some err => Err err
            | None => Ok (SAMLProviderConfigToCreate.params config, id)
            end) ∧
    (complete id f = true →
       SAMLProviderConfigToCreate.buildRequest config
       = Done (Ok (SAMLProviderConfigToCreate.params config, id))) ∧
    (∀ g r,
       complete id g = true → f = omit r g →
       SAMLProviderConfigToCreate.buildRequest config = Done (Err (missing_message r))).
Proof.
  destruct (create_builder_represents calls) as (config & Hrun & Hid & Hrep).
  exists config. split; [done|]. cbn zeta.
  pose proof (create_buildRequest_checks config _ Hrep) as Hbuild.
  rewrite Hid in Hbuild. do 3 (split; [done|]). split.
  - intros Hc. by rewrite Hbuild, complete_checks.
  - intros g r Hc Hf. by rewrite Hbuild, Hf, omit_checks.
Qed.

(** C3.  Every sequence of setter calls yields an update builder, and
    [buildRequest] on it reports the first failure of the checks, each of
    which is skipped when its field was not supplied.  With no call at all it
    fails with the "no parameters specified" error; when every supplied field
    is valid it returns the store; and after calls of [RequestSigningEnabled]
    only it returns a store whose update mask is [["idpConfig.signRequest"]],
    under every iteration order. *)
Theorem update_buildRequest_partial {lib : GoLib} (calls : list setter) :
  ∃ config,
    update_builder calls = Done config ∧
    let f := supplied calls in
    SAMLProviderConfigToUpdate.buildRequest config
    = Done (match first_failure (update_checks f) with
            | Some err => Err err
            | None => Ok (SAMLProviderConfigToUpdate.params config)
            end) ∧
    (calls = [] →
       SAMLProviderConfigToUpdate.buildRequest config
       = Done (Err "no parameters specified in the update request")) ∧
    (acceptable f = true →
       SAMLProviderConfigToUpdate.buildRequest config
       = Done (Ok (SAMLProviderConfigToUpdate.params config))) ∧
    (∀ b bs,
       calls = Call_RequestSigningEnabled <$> (b :: bs) →
       SAMLProviderConfigToUpdate.buildRequest config
       = Done (Ok (SAMLProviderConfigToUpdate.params config)) ∧
       nestedMap_UpdateMask (SAMLProviderConfigToUpdate.params config)
       = Ok ["idpConfig.signRequest"] ∧
       ∀ mask,
         buildMask_returns (entries (SAMLProviderConfigToUpdate.params config)) mask →
         mask = ["idpConfig.signRequest"]).
Proof.
  destruct (update_builder_represents calls) as (config & Hrun & Hrep).
  exists config. split; [done|]. cbn zeta.
  pose proof (update_buildRequest_checks config _ Hrep) as Hbuild.
  split; [done|]. split; [|split].
  - intros ->. by rewrite Hbuild.
  - intros Hf. by rewrite Hbuild, acceptable_checks.
  - intros b bs ->. split.
    + by rewrite Hbuild, acceptable_checks by apply sign_only_acceptable.
    + destruct (sign_only_builder b bs) as (config' & b' & Hrun' & Hp).
      rewrite Hrun in Hrun'. inversion Hrun'; subst config'.
      unfold nestedMap_UpdateMask. rewrite Hp. simpl entries.
      rewrite sign_only_mask. split; [done|].
      intros mask Hmask%buildMask_returns_Permutation.
      rewrite sign_only_mask in Hmask. by apply Permutation_singleton_r.
Qed.

Lemma create_buildRequest_order_witness :
  (∃ config,
     create_builder example_calls = Done config ∧
     SAMLProviderConfigToCreate.buildRequest (lib := example_lib) config
     = Done (Ok (SAMLProviderConfigToCreate.params config, "saml.provider1"))) ∧
  (∃ config,
     create_builder (Call_ID "saml.provider1" :: Call_field (Call_IDPEntityID "IDP_ENTITY_ID")
                     :: drop 3 example_calls) = Done config ∧
     SAMLProviderConfigToCreate.buildRequest (lib := example_lib) config
     = Done (Err "SSOURL must not be empty")).
Proof.
  split.
  - destruct (create_buildRequest_order (lib := example_lib) example_calls)
      as (config & Hrun & _ & _ & _ & Hcomplete & _).
    exists config. split; [exact Hrun|]. apply Hcomplete. vm_compute. reflexivity.
  - destruct (create_buildRequest_order (lib := example_lib)
                (Call_ID "saml.provider1" :: Call_field (Call_IDPEntityID "IDP_ENTITY_ID")
                 :: drop 3 example_calls))
      as (config & Hrun & _ & _ & _ & _ & Homit).
    exists config. split; [exact Hrun|].
    apply (Homit (create_supplied example_calls).2 R_ssoURL); vm_compute; reflexivity.
Defined.

Lemma update_buildRequest_partial_witness :
  ∃ config,
    update_builder [Call_RequestSigningEnabled true] = Done config ∧
    SAMLProviderConfigToUpdate.buildRequest (lib := example_lib) config
    = Done (Ok (SAMLProviderConfigToUpdate.params config)) ∧
    nestedMap_UpdateMask (SAMLProviderConfigToUpdate.params config)
    = Ok ["idpConfig.signRequest"].
Proof.
  destruct (update_buildRequest_partial (lib := example_lib) [Call_RequestSigningEnabled true])
    as (config & Hrun & _ & _ & _ & Hsign).
  exists config. split; [exact Hrun|].
  destruct (Hsign true [] eq_refl) as (Hbuild & Hmask & _).
  split; [exact Hbuild|exact Hmask].
Defined.

(** C7.  On the update builder, where the last [DisplayName] call passed
    [name], the [displayName] key is present: bound to the nil marker when
    [name] is empty and to [name] itself otherwise; and the update mask of a
    built request has the entry [displayName].  Where [DisplayName] was never
    called the key is absent and the mask has no such entry.  Both hold
    under every iteration order.  After
    [DisplayName("")] alone the request builds, its store is
    [{displayName: nil}] and its mask is [["displayName"]]. *)
Theorem update_DisplayName_marker {lib : GoLib} (calls : list setter) :
  ∃ config,
    update_builder calls = Done config ∧
    (∀ before name after,
       calls = before ++ Call_DisplayName name :: after →
       untouched F_displayName after = true →
       nestedMap_Get (SAMLProviderConfigToUpdate.params config) displayNameKey
       = Done (if String.eqb name "" then VNil else VString name, true) ∧
       ∀ body,
         SAMLProviderConfigToUpdate.buildRequest config = Done (Ok body) →
         nestedMap_Get body displayNameKey
         = Done (if String.eqb name "" then VNil else VString name, true) ∧
         ∀ mask, buildMask_returns (entries body) mask → displayNameKey ∈ mask) ∧
    (untouched F_displayName calls = true →
       nestedMap_Get (SAMLProviderConfigToUpdate.params config) displayNameKey
       = Done (VNil, false) ∧
       ∀ body,
         SAMLProviderConfigToUpdate.buildRequest config = Done (Ok body) →
         ∀ mask, buildMask_returns (entries body) mask → displayNameKey ∉ mask) ∧
    (calls = [Call_DisplayName ""] →
       SAMLProviderConfigToUpdate.buildRequest config
       = Done (Ok (Some {["displayName" := VNil]})) ∧
       nestedMap_UpdateMask (Some {["displayName" := VNil]}) = Ok ["displayName"]).
Proof.
  destruct (update_builder_represents calls) as (config & Hrun & Hrep).
  exists config. split; [done|]. pose proof Hrep as [_ HG]. split; [|split].
  - intros before name after -> Hafter.
    pose proof (HG F_displayName) as Hname.
    pose proof (stored_last_call true before (Call_DisplayName name) after Hafter) as Hst.
    cbn [field_of] in Hst. rewrite Hst in Hname.
    cbn [key_of value_of reading display_value andb] in Hname.
    split; [done|]. intros body ->%(update_buildRequest_body _ _ _ Hrep).
    split; [done|]. intros mask ->%buildMask_returns_Permutation.
    rewrite Get_displayName in Hname. unfold index in Hname.
    destruct (entries _ !! "displayName") as [v|] eqn:Hv; [|done].
    apply (top_leaf_in_mask _ _ v); [done|].
    inversion Hname; subst v. unfold display_value. simpl.
    by destruct (String.eqb name "").
  - intros Hcalls. pose proof (HG F_displayName) as Hname.
    unfold supplied in Hname. rewrite stored_untouched in Hname by done.
    cbn [key_of stored no_fields f_displayName fmap option_fmap option_map reading] in Hname.
    split; [done|]. intros body ->%(update_buildRequest_body _ _ _ Hrep).
    intros mask ->%buildMask_returns_Permutation.
    rewrite Get_displayName in Hname. unfold index in Hname.
    destruct (entries _ !! "displayName") as [v|] eqn:Hv; [done|].
    by apply absent_not_in_mask.
  - intros ->.
    assert (update_builder [Call_DisplayName ""]
            = Done {| SAMLProviderConfigToUpdate.params := Some {["displayName" := VNil]} |})
      as Hnew by (vm_compute; reflexivity).
    rewrite Hrun in Hnew. inversion Hnew; subst config.
    rewrite (update_buildRequest_checks _ _ Hrep).
    split; [done|]. vm_compute. reflexivity.
Qed.

Lemma update_DisplayName_marker_witness :
  ∃ config,
    update_builder [Call_RequestSigningEnabled true; Call_DisplayName ""] = Done config ∧
    nestedMap_Get (SAMLProviderConfigToUpdate.params config) displayNameKey
    = Done (VNil, true).
Proof.
  destruct (update_DisplayName_marker (lib := example_lib)
              [Call_RequestSigningEnabled true; Call_DisplayName ""])
    as (config & Hrun & Htouched & _).
  exists config. split; [exact Hrun|].
  destruct (Htouched [Call_RequestSigningEnabled true] "" []) as [Hget _];
    [reflexivity|reflexivity|exact Hget].
Defined.

(** C9.  On either builder, [X509Certificates] with a nil or empty slice
    binds the certificates key to the nil certificate list, so the key is
    present; [buildRequest] then fails, and the failure is the
    "X509Certificates must not be empty" error whenever the checks that come
    before the certificate check pass.  In particular the update builder
    rejects the empty list instead of skipping the check. *)
Theorem X509Certificates_empty_rejected {lib : GoLib} (certs : slice string) :
  slice_elems certs = [] →
  (∀ before after,
     untouched F_certs (field_calls after) = true →
     let calls := before ++ Call_field (Call_X509Certificates certs) :: after in
     ∃ config,
       create_builder calls = Done config ∧
       nestedMap_Get (SAMLProviderConfigToCreate.params config) idpCertsKey
       = Done (VCerts None, true) ∧
       ∃ err,
         SAMLProviderConfigToCreate.buildRequest config = Done (Err err) ∧
         (first_failure (take 4 (create_checks (create_supplied calls).1
                                               (create_supplied calls).2)) = None →
          err = "X509Certificates must not be empty")) ∧
  (∀ before after,
     untouched F_certs after = true →
     let calls := before ++ Call_X509Certificates certs :: after in
     ∃ config,
       update_builder calls = Done config ∧
       nestedMap_Get (SAMLProviderConfigToUpdate.params config) idpCertsKey
       = Done (VCerts None, true) ∧
       ∃ err,
         SAMLProviderConfigToUpdate.buildRequest config = Done (Err err) ∧
         (first_failure (take 3 (update_checks (supplied calls))) = None →
          err = "X509Certificates must not be empty")).
Proof.
  intros Hnil. split.
  - intros before after Hafter calls.
    destruct (create_builder_represents calls) as (config & Hrun & Hid & Hrep).
    exists config. split; [done|]. split.
    + destruct Hrep as [_ HG]. specialize (HG F_certs). subst calls.
      pose proof (stored_last_create_call false before (Call_X509Certificates certs) after
                    Hafter) as Hst.
      cbn [field_of] in Hst. rewrite Hst in HG.
      cbn [key_of value_of reading] in HG. by rewrite wrap_certs_nil in HG.
    + rewrite (create_buildRequest_checks _ _ Hrep), Hid.
      destruct (create_checks_empty_certs (create_supplied calls).1 (create_supplied calls).2)
        as (err & -> & Herr); [|by exists err].
      subst calls. rewrite create_f_certs_last_call by done. by rewrite Hnil.
  - intros before after Hafter calls.
    destruct (update_builder_represents calls) as (config & Hrun & Hrep).
    exists config. split; [done|]. split.
    + destruct Hrep as [_ HG]. specialize (HG F_certs). subst calls.
      pose proof (stored_last_call true before (Call_X509Certificates certs) after Hafter)
        as Hst.
      cbn [field_of] in Hst. rewrite Hst in HG.
      cbn [key_of value_of reading] in HG. by rewrite wrap_certs_nil in HG.
    + rewrite (update_buildRequest_checks _ _ Hrep).
      destruct (update_checks_empty_certs (supplied calls)) as (err & -> & Herr);
        [|by exists err].
      subst calls. rewrite (f_certs_last_call _ certs) by done. by rewrite Hnil.
Qed.

Lemma X509Certificates_empty_rejected_witness :
  ∃ config,
    update_builder [Call_X509Certificates (Some [])] = Done config ∧
    nestedMap_Get (SAMLProviderConfigToUpdate.params config) idpCertsKey
    = Done (VCerts None, true) ∧
    SAMLProviderConfigToUpdate.buildRequest (lib := example_lib) config
    = Done (Err "X509Certificates must not be empty").
Proof.
  destruct (X509Certificates_empty_rejected (lib := example_lib) (Some []) eq_refl)
    as [_ Hupdate].
  destruct (Hupdate [] [] eq_refl) as (config & Hrun & Hget & err & Hbuild & Herr).
  exists config. split; [exact Hrun|]. split; [exact Hget|].
  rewrite Hbuild, Herr; reflexivity.
Defined.

(** * The transfer object and the client *)

(** C8.  Mapping a transfer object to the read model never panics; it copies
    display name, enabled flag, IDP entity ID, SSO URL, request-signing flag,
    RP entity ID and callback URL; the certificates of the read model are the
    strings of the certificate objects, in their order; and the identifier is
    the last segment of the resource name split on ["/"]: what follows the
    last slash.  The name ["projects/p1/inboundSamlConfigs/saml.provider1"]
    gives the identifier ["saml.provider1"]. *)
Theorem toSAMLProviderConfig_fields (dao : samlProviderConfigDAO.t) :
  ∃ config,
    samlProviderConfigDAO.toSAMLProviderConfig dao = Done config ∧
    SAMLProviderConfig.DisplayName config = samlProviderConfigDAO.DisplayName dao ∧
    SAMLProviderConfig.Enabled config = samlProviderConfigDAO.Enabled dao ∧
    SAMLProviderConfig.IDPEntityID config
    = samlProviderConfigDAO.IDPEntityID (samlProviderConfigDAO.IDPConfig dao) ∧
    SAMLProviderConfig.SSOURL config
    = samlProviderConfigDAO.SSOURL (samlProviderConfigDAO.IDPConfig dao) ∧
    SAMLProviderConfig.RequestSigningEnabled config
    = samlProviderConfigDAO.SignRequest (samlProviderConfigDAO.IDPConfig dao) ∧
    SAMLProviderConfig.RPEntityID config
    = samlProviderConfigDAO.SPEntityID (samlProviderConfigDAO.SPConfig dao) ∧
    SAMLProviderConfig.CallbackURL config
    = samlProviderConfigDAO.CallbackURI (samlProviderConfigDAO.SPConfig dao) ∧
    slice_elems (SAMLProviderConfig.X509Certificates config)
    = X509Certificate
        <$> slice_elems (samlProviderConfigDAO.IDPCertificates
                           (samlProviderConfigDAO.IDPConfig dao)) ∧
    last (strings_Split (samlProviderConfigDAO.Name dao) "/")
    = Some (SAMLProviderConfig.ID config) ∧
    (∀ pre id,
       free_of "/" id = true →
       samlProviderConfigDAO.Name dao = pre +:+ String "/" id →
       SAMLProviderConfig.ID config = id) ∧
    (samlProviderConfigDAO.Name dao = "projects/p1/inboundSamlConfigs/saml.provider1" →
     SAMLProviderConfig.ID config = "saml.provider1").
Proof.
  unfold samlProviderConfigDAO.toSAMLProviderConfig.
  destruct (extractResourceID_last (samlProviderConfigDAO.Name dao)) as (id & Hid & Hlast).
  rewrite Hid. cbn [bind]. eexists. split; [done|].
  do 7 (split; [done|]). split; [|split; [done|split]].
  - exact (unwrap_certs_elems _ None).
  - intros pre id' Hfree Hname. rewrite Hname, extractResourceID_suffix in Hid by done.
    by inversion Hid.
  - intros Hname. rewrite Hname in Hid. vm_compute in Hid. by inversion Hid.
Qed.

Lemma toSAMLProviderConfig_fields_witness :
  ∃ config,
    samlProviderConfigDAO.toSAMLProviderConfig example_dao = Done config ∧
    SAMLProviderConfig.ID config = "saml.provider1" ∧
    slice_elems (SAMLProviderConfig.X509Certificates config) = ["CERT1"; "CERT2"].
Proof.
  destruct (toSAMLProviderConfig_fields example_dao)
    as (config & Hrun & _ & _ & _ & _ & _ & _ & _ & Hcerts & _ & Hsuffix & Hname).
  exists config. split; [exact Hrun|]. split.
  - apply Hname. reflexivity.
  - rewrite Hcerts. reflexivity.
Defined.

(** C4.  For an identifier that does not start with ["saml."], each of the
    four operations returns the invalid-SAML-provider-id error and hands no
    request to the transport; for create the identifier is the one set on the
    builder. *)
Theorem invalid_id_rejected {lib : GoLib} {http : HTTPClient} {range : MapIteration}
    (c : providerConfigClient.t) (id : string) :
  strings_HasPrefix id "saml." = false →
  let err := "invalid SAML provider id: " +:+ strconv_Quote id in
  providerConfigClient.SAMLProviderConfig c id = Done (Err err, []) ∧
  (∀ config,
     SAMLProviderConfigToCreate.id config = id →
     providerConfigClient.CreateSAMLProviderConfig c (Some config) = Done (Err err, [])) ∧
  (∀ config,
     providerConfigClient.UpdateSAMLProviderConfig c id config = Done (Err err, [])) ∧
  providerConfigClient.DeleteSAMLProviderConfig c id = (Some err, []).
Proof.
  intros Hid err.
  assert (validateSAMLConfigID id = Some err) as Hv.
  { unfold validateSAMLConfigID. by rewrite Hid. }
  unfold providerConfigClient.SAMLProviderConfig,
    providerConfigClient.CreateSAMLProviderConfig,
    providerConfigClient.UpdateSAMLProviderConfig,
    providerConfigClient.DeleteSAMLProviderConfig.
  rewrite Hv. repeat split; try done.
  intros config Hconfig. unfold SAMLProviderConfigToCreate.buildRequest.
  by rewrite Hconfig, Hv.
Qed.

Lemma invalid_id_rejected_witness :
  providerConfigClient.DeleteSAMLProviderConfig (lib := example_lib) (http := example_http)
    (providerConfigClient.newProviderConfigClient "p1") "oidc.provider"
  = (Some ("invalid SAML provider id: " +:+ @strconv_Quote example_lib "oidc.provider"), []).
Proof.
  destruct (invalid_id_rejected (lib := example_lib) (http := example_http) (range := example_range)
              (providerConfigClient.newProviderConfigClient "p1") "oidc.provider" eq_refl)
    as (_ & _ & _ & Hdelete).
  exact Hdelete.
Defined.

(** C10.  Identifier validation looks at the prefix only: it passes exactly
    the identifiers that are ["saml."] followed by anything, the bare
    ["saml."] among them, and rejects every other one.  With the bare
    identifier ["saml."] and a project identifier, each of the four operations
    gets past its local checks and hands its request to the transport (for
    update, when the builder builds, with the update mask in the order the
    runtime ranged; for create, when the builder holds the identifier
    ["saml."] and a complete request). *)
Theorem bare_prefix_accepted {lib : GoLib} {http : HTTPClient} {range : MapIteration}
    (c : providerConfigClient.t) :
  validateSAMLConfigID "saml." = None ∧
  (∀ rest, validateSAMLConfigID ("saml." +:+ rest) = None) ∧
  (∀ id, validateSAMLConfigID id = None ↔ ∃ rest, id = "saml." +:+ rest) ∧
  (∀ id, (∀ rest, id ≠ "saml." +:+ rest) →
         validateSAMLConfigID id = Some ("invalid SAML provider id: " +:+ strconv_Quote id)) ∧
  (providerConfigClient.projectID c ≠ "" →
   let base := providerConfigClient.endpoint c +:+ "/projects/"
               +:+ providerConfigClient.projectID c in
   (∃ r, providerConfigClient.SAMLProviderConfig c "saml."
         = Done (r, [ {| Method := "GET";
                         URL := base +:+ "/inboundSamlConfigs/saml.";
                         Body := None; Opts := [] |} ])) ∧
   (∃ r, providerConfigClient.DeleteSAMLProviderConfig c "saml."
         = (r, [ {| Method := "DELETE";
                    URL := base +:+ "/inboundSamlConfigs/saml.";
                    Body := None; Opts := [] |} ])) ∧
   (∀ config body,
      SAMLProviderConfigToUpdate.buildRequest config = Done (Ok body) →
      ∃ r mask,
        UpdateMask_run body = Ok mask ∧ buildMask_returns (entries body) mask ∧
        providerConfigClient.UpdateSAMLProviderConfig c "saml." (Some config)
        = Done (r, [ {| Method := "PATCH";
                        URL := base +:+ "/inboundSamlConfigs/saml.";
                        Body := Some body;
                        Opts := [("updateMask", strings_Join mask ",")] |} ])) ∧
   (∀ calls,
      (create_supplied calls).1 = "saml." →
      complete "saml." (create_supplied calls).2 = true →
      ∃ config r,
        create_builder calls = Done config ∧
        providerConfigClient.CreateSAMLProviderConfig c (Some config)
        = Done (r, [ {| Method := "POST";
                        URL := base +:+ "/inboundSamlConfigs";
                        Body := Some (SAMLProviderConfigToCreate.params config);
                        Opts := [("inboundSamlConfigId", "saml.")] |} ]))).
Proof.
  assert (∀ id, validateSAMLConfigID id = None ↔ ∃ rest, id = "saml." +:+ rest) as Hiff.
  { intros id. rewrite <- strings_HasPrefix_append. unfold validateSAMLConfigID.
    by destruct (strings_HasPrefix id "saml."). }
  split; [done|]. split.
  { intros rest. unfold validateSAMLConfigID, strings_HasPrefix. simpl. by destruct rest. }
  split; [exact Hiff|]. split.
  { intros id Hid. unfold validateSAMLConfigID.
    destruct (strings_HasPrefix id "saml.") eqn:Hprefix; [|done].
    apply strings_HasPrefix_append in Hprefix as [rest ->]. by destruct (Hid rest). }
  intros Hp base.
  assert (∀ req, ∃ r,
            providerConfigClient.decoded (providerConfigClient.makeRequest c req)
            = Done (r, [ {| Method := Method req; URL := base +:+ URL req;
                            Body := Body req; Opts := Opts req |} ])) as Hsend.
  { intros req. destruct (makeRequest_sends c req Hp) as [r Hr].
    destruct (decoded_Done (providerConfigClient.makeRequest c req)) as [r' Hr'].
    exists r'. rewrite Hr'. rewrite Hr. simpl. subst base.
    by rewrite !append_assoc. }
  split; [|split; [|split]].
  - apply (Hsend {| Method := "GET"; URL := "/inboundSamlConfigs/saml.";
                    Body := None; Opts := [] |}).
  - unfold providerConfigClient.DeleteSAMLProviderConfig.
    change (validateSAMLConfigID "saml.") with (@None error). cbv iota.
    destruct (makeRequest_sends c {| Method := "DELETE";
                                     URL := "/inboundSamlConfigs/" +:+ "saml.";
                                     Body := None; Opts := [] |} Hp) as [r Hr].
    rewrite Hr. subst base. rewrite !append_assoc.
    destruct r; eauto.
  - intros config body Hbuild. unfold providerConfigClient.UpdateSAMLProviderConfig.
    change (validateSAMLConfigID "saml.") with (@None error). cbv iota.
    rewrite Hbuild. cbn [bind].
    destruct (UpdateMask_run_returns body) as (mask & Hmask & Hreturns). rewrite Hmask.
    destruct (Hsend {| Method := "PATCH"; URL := "/inboundSamlConfigs/saml.";
                       Body := Some body;
                       Opts := [("updateMask", strings_Join mask ",")] |}) as [r Hr].
    exists r, mask. do 2 (split; [done|]). exact Hr.
  - intros calls Hid Hcomplete.
    destruct (create_builder_built calls) as (config & Hrun & Hid' & Hbuild).
    rewrite Hid in Hid', Hbuild. rewrite complete_checks in Hbuild by done.
    exists config. unfold providerConfigClient.CreateSAMLProviderConfig.
    rewrite Hbuild. cbn [bind].
    destruct (Hsend {| Method := "POST"; URL := "/inboundSamlConfigs";
                       Body := Some (SAMLProviderConfigToCreate.params config);
                       Opts := [("inboundSamlConfigId", "saml.")] |}) as [r Hr].
    exists r. split; [done|]. exact Hr.
Qed.

Lemma bare_prefix_accepted_witness :
  let c := providerConfigClient.newProviderConfigClient "p1" in
  (∃ r, providerConfigClient.SAMLProviderConfig (lib := example_lib) (http := example_http)
          c "saml."
        = Done (r, [ {| Method := "GET";
                        URL := "https://identitytoolkit.googleapis.com/v2beta1/projects/p1/inboundSamlConfigs/saml.";
                        Body := None; Opts := [] |} ])) ∧
  (∃ config r,
     create_builder (Call_ID "saml." :: drop 1 example_calls) = Done config ∧
     providerConfigClient.CreateSAMLProviderConfig (lib := example_lib) (http := example_http)
       c (Some config)
     = Done (r, [ {| Method := "POST";
                     URL := "https://identitytoolkit.googleapis.com/v2beta1/projects/p1/inboundSamlConfigs";
                     Body := Some (SAMLProviderConfigToCreate.params config);
                     Opts := [("inboundSamlConfigId", "saml.")] |} ])) ∧
  (∃ config r mask,
     update_builder [Call_Enabled true; Call_RPEntityID "rp"] = Done config ∧
     buildMask_returns (entries (SAMLProviderConfigToUpdate.params config)) mask ∧
     providerConfigClient.UpdateSAMLProviderConfig
       (lib := example_lib) (http := example_http) (range := example_range)
       c "saml." (Some config)
     = Done (r, [ {| Method := "PATCH";
                     URL := "https://identitytoolkit.googleapis.com/v2beta1/projects/p1/inboundSamlConfigs/saml.";
                     Body := Some (SAMLProviderConfigToUpdate.params config);
                     Opts := [("updateMask", strings_Join mask ",")] |} ])).
Proof.
  intros c.
  destruct (bare_prefix_accepted (lib := example_lib) (http := example_http)
              (range := example_range) c)
    as (_ & _ & _ & _ & Hops).
  destruct Hops as (Hget & _ & Hupdate & Hcreate); [discriminate|].
  split; [exact Hget|]. split.
  - apply (Hcreate (Call_ID "saml." :: drop 1 example_calls)); vm_compute; reflexivity.
  - destruct (update_builder_built (lib := example_lib)
                [Call_Enabled true; Call_RPEntityID "rp"]) as (config & Hrun & Hbuild).
    destruct (Hupdate config _ Hbuild) as (r & mask & _ & Hreturns & Hsent).
    exists config, r, mask. split; [exact Hrun|]. split; [exact Hreturns|exact Hsent].
Defined.

(** * Further properties of the store *)

(** X1.  [Get] returns a value with "found" exactly when the segments of the
    path lead to that value through nested maps. *)
Theorem Get_found_iff_path (nm : nestedMap) (key : string) (v : value) :
  nestedMap_Get nm key = Done (v, true) ↔
  walk (VMap (entries nm)) (strings_Split key ".") = Some v.
Proof. apply Get_found_iff_segments. Qed.


(** X3.  On a store that is a tree (every nested map non-nil, no map held
    under two keys), writes of values that are not maps to two paths that
    part ways commute: either both orders panic, or both return and leave
    the same tree, the one the two writes on the tree return. *)
Theorem Set_commutes (h : heap) (l : loc) (m : gmap string value) (key key' : string)
    (v w : iface) (tv tw : value) :
  holds_tree h l m → leaf v = Some tv → leaf w = Some tw →
  diverge (strings_Split key ".") (strings_Split key' ".") = true →
  match (do h1 <- heap_Set h (Some l) key v; heap_Set h1 (Some l) key' w),
        (do h2 <- heap_Set h (Some l) key' w; heap_Set h2 (Some l) key v) with
  | Done h12, Done h21 =>
      ∃ m', (do nm1 <- nestedMap_Set (Some m) key tv; nestedMap_Set nm1 key' tw)
            = Done (Some m') ∧
            holds_tree h12 l m' ∧ holds_tree h21 l m'
  | Panic, Panic => True
  | _, _ => False
  end.
Proof.
  intros Ho Hv Hw Hd. unfold heap_Set.
  pose proof (heap_Set_loop_twice_tree h l m (strings_Split key ".")
                (strings_Split key' ".") v w tv tw Ho Hv Hw) as H12.
  pose proof (heap_Set_loop_twice_tree h l m (strings_Split key' ".")
                (strings_Split key ".") w v tw tv Ho Hw Hv) as H21.
  rewrite <- (Set_loop_commute m _ _ tv tw Hd) in H21.
  assert ((do nm1 <- nestedMap_Set (Some m) key tv; nestedMap_Set nm1 key' tw)
          = do m' <- (do m1 <- Set_loop m (strings_Split key ".") tv;
                      Set_loop m1 (strings_Split key' ".") tw); Done (Some m')) as ->.
  { unfold nestedMap_Set. by destruct (Set_loop m (strings_Split key ".") tv). }
  destruct (do m1 <- Set_loop m (strings_Split key ".") tv;
            Set_loop m1 (strings_Split key' ".") tw) as [m'|].
  - destruct H12 as (h12 & -> & Ho12). destruct H21 as (h21 & -> & Ho21).
    by exists m'.
  - by rewrite H12, H21.
Qed.

Lemma Set_commutes_witness :
  ∃ h12 h21 m',
    (do h1 <- heap_Set {[1%positive := ∅]} (Some 1%positive) idpEntityIDKey (IString "e");
     heap_Set h1 (Some 1%positive) ssoURLKey (IString "u")) = Done h12 ∧
    (do h2 <- heap_Set {[1%positive := ∅]} (Some 1%positive) ssoURLKey (IString "u");
     heap_Set h2 (Some 1%positive) idpEntityIDKey (IString "e")) = Done h21 ∧
    holds_tree h12 1%positive m' ∧ holds_tree h21 1%positive m'.
Proof.
  pose proof (Set_commutes {[1%positive := ∅]} 1%positive ∅ idpEntityIDKey ssoURLKey
                (IString "e") (IString "u") (VString "e") (VString "u")
                (holds_tree_empty _) eq_refl eq_refl eq_refl) as H.
  destruct (do h1 <- heap_Set {[1%positive := ∅]} (Some 1%positive) idpEntityIDKey
                       (IString "e");
            heap_Set h1 (Some 1%positive) ssoURLKey (IString "u")) as [h12|] eqn:E12;
    [|by vm_compute in E12].
  destruct (do h2 <- heap_Set {[1%positive := ∅]} (Some 1%positive) ssoURLKey
                       (IString "u");
            heap_Set h2 (Some 1%positive) idpEntityIDKey (IString "e")) as [h21|] eqn:E21;
    [|by vm_compute in E21].
  destruct H as (m' & _ & H12 & H21). by exists h12, h21, m'.
Defined.



(** * Further properties of the builders *)

(** X5.  Calls of different setters can be made in either order: swapping
    two neighbouring calls that write different fields leaves the same
    builder.  On the create builder [ID] counts as a setter of its own. *)
Theorem setters_commute :
  (∀ before c1 c2 after,
     field_of c1 ≠ field_of c2 →
     update_builder (before ++ c1 :: c2 :: after)
     = update_builder (before ++ c2 :: c1 :: after)) ∧
  (∀ before c1 c2 after,
     create_field c1 ≠ create_field c2 →
     create_builder (before ++ c1 :: c2 :: after)
     = create_builder (before ++ c2 :: c1 :: after)).
Proof.
  split; intros before c1 c2 after Hne.
  - apply (run_replace update_apply _ before after [c1; c2] [c2; c1]).
    intros config. rewrite !run_two. by apply update_apply_commute.
  - apply (run_replace create_apply _ before after [c1; c2] [c2; c1]).
    intros config. rewrite !run_two. by apply create_apply_commute.
Qed.

Lemma setters_commute_witness :
  update_builder [Call_DisplayName "n"; Call_SSOURL "https://sso"; Call_Enabled true]
  = update_builder [Call_SSOURL "https://sso"; Call_DisplayName "n"; Call_Enabled true].
Proof.
  destruct setters_commute as [Hupdate _].
  apply (Hupdate [] (Call_DisplayName "n") (Call_SSOURL "https://sso") [Call_Enabled true]).
  discriminate.
Defined.

(** X6.  Of two neighbouring calls of the same setter only the second
    counts: the builder is the one reached without the first call. *)
Theorem last_call_wins :
  (∀ before c1 c2 after,
     field_of c1 = field_of c2 →
     update_builder (before ++ c1 :: c2 :: after) = update_builder (before ++ c2 :: after)) ∧
  (∀ before c1 c2 after,
     create_field c1 = create_field c2 →
     create_builder (before ++ c1 :: c2 :: after) = create_builder (before ++ c2 :: after)).
Proof.
  split; intros before c1 c2 after Heq.
  - apply (run_replace update_apply _ before after [c1; c2] [c2]).
    intros config. rewrite run_two, run_one. by apply update_apply_overwrite.
  - apply (run_replace create_apply _ before after [c1; c2] [c2]).
    intros config. rewrite run_two, run_one. by apply create_apply_overwrite.
Qed.

Lemma last_call_wins_witness :
  create_builder [Call_ID "saml.a"; Call_ID "saml.b"; Call_field (Call_Enabled true)]
  = create_builder [Call_ID "saml.b"; Call_field (Call_Enabled true)].
Proof.
  destruct last_call_wins as [_ Hcreate].
  apply (Hcreate [] (Call_ID "saml.a") (Call_ID "saml.b") [Call_field (Call_Enabled true)]).
  reflexivity.
Defined.

(** X7.  The store of a builder holds, at the wire path of every field that
    was supplied, the value stored for it, and no other leaf: a path leads to
    a leaf of the store exactly when it is the path of a supplied field, and
    the leaf is then the value of the last call. *)
Theorem builder_store_exact :
  (∀ calls,
     ∃ config,
       update_builder calls = Done config ∧
       ∀ path v,
         (walk (VMap (entries (SAMLProviderConfigToUpdate.params config))) path = Some v ∧
          is_map v = false) ↔
         ∃ fld, path = strings_Split (key_of fld) "." ∧
                stored true (supplied calls) fld = Some v) ∧
  (∀ calls,
     ∃ config,
       create_builder calls = Done config ∧
       ∀ path v,
         (walk (VMap (entries (SAMLProviderConfigToCreate.params config))) path = Some v ∧
          is_map v = false) ↔
         ∃ fld, path = strings_Split (key_of fld) "." ∧
                stored false (create_supplied calls).2 fld = Some v).
Proof.
  assert (∀ upd params f path v,
            represents upd params f → within_keys (entries params) →
            (walk (VMap (entries params)) path = Some v ∧ is_map v = false) ↔
            ∃ fld, path = strings_Split (key_of fld) "." ∧ stored upd f fld = Some v)
    as Hexact.
  { intros upd params f path v [_ HG] Hm. split.
    - intros [Hw Hv].
      assert (path ≠ []) as Hne by (intros ->; simpl in Hw; by inversion Hw; subst).
      destruct (Hm path v Hne Hw) as (fld & rest & Hsplit & Hrest).
      apply Hrest in Hv as ->. rewrite app_nil_r in Hsplit. exists fld. split; [done|].
      specialize (HG fld). unfold nestedMap_Get in HG.
      rewrite Hsplit, (Get_loop_walk _ _ v) in HG by done.
      destruct (stored upd f fld); simpl in HG; congruence.
    - intros (fld & -> & Hst). specialize (HG fld). rewrite Hst in HG.
      split; [by apply Get_loop_found|by eapply stored_leaf]. }
  split; intros calls.
  - destruct (update_run_shaped calls SAMLProviderConfigToUpdate.new no_fields)
      as (config & Hrun & Hrep & Hm);
      [apply represents_new|apply within_keys_empty|].
    exists config. split; [done|]. intros path v. by apply Hexact.
  - destruct (create_run_shaped calls SAMLProviderConfigToCreate.new ("", no_fields))
      as (config & Hrun & _ & Hrep & Hm);
      [done|apply represents_new|apply within_keys_empty|].
    exists config. split; [done|]. intros path v. by apply Hexact.
Qed.

Lemma builder_store_exact_witness :
  ∃ config,
    update_builder [Call_DisplayName ""; Call_SSOURL "https://sso"] = Done config ∧
    walk (VMap (entries (SAMLProviderConfigToUpdate.params config))) ["idpConfig"; "ssoUrl"]
    = Some (VString "https://sso") ∧
    walk (VMap (entries (SAMLProviderConfigToUpdate.params config))) ["displayName"]
    = Some VNil.
Proof.
  destruct builder_store_exact as [Hupdate _].
  destruct (Hupdate [Call_DisplayName ""; Call_SSOURL "https://sso"]) as (config & Hrun & Hleaf).
  exists config. split; [exact Hrun|]. split.
  - apply (Hleaf ["idpConfig"; "ssoUrl"] (VString "https://sso")).
    exists F_ssoURL. split; reflexivity.
  - apply (Hleaf ["displayName"] VNil). exists F_displayName. split; reflexivity.
Defined.

(** X8.  The update mask of an update builder lists exactly the wire paths
    of the setters that were called, whatever the iteration order. *)
Theorem update_mask_lists_called_setters (calls : list setter) :
  ∃ config,
    update_builder calls = Done config ∧
    ∀ mask,
      buildMask_returns (entries (SAMLProviderConfigToUpdate.params config)) mask →
      ∀ p, p ∈ mask ↔ ∃ c, c ∈ calls ∧ p = key_of (field_of c).
Proof.
  destruct (update_run_shaped calls SAMLProviderConfigToUpdate.new no_fields)
    as (config & Hrun & Hrep & Hm);
    [apply represents_new|apply within_keys_empty|].
  exists config. split; [done|].
  intros mask Hmask%buildMask_returns_Permutation p.
  rewrite Hmask, (shaped_mask true _ _ p Hrep Hm). split.
  - intros (fld & Hgiven & ->). apply stored_given in Hgiven as [Hno|(c & Hc & <-)].
    + by destruct fld.
    + by exists c.
  - intros (c & Hc & ->). exists (field_of c). split; [|done].
    apply stored_given. right. by exists c.
Qed.

Lemma update_mask_lists_called_setters_witness :
  ∃ config,
    update_builder [Call_Enabled true; Call_RPEntityID "rp"] = Done config ∧
    "spConfig.spEntityId" ∈ buildMask (entries (SAMLProviderConfigToUpdate.params config)) ∧
    "idpConfig.ssoUrl" ∉ buildMask (entries (SAMLProviderConfigToUpdate.params config)).
Proof.
  destruct (update_mask_lists_called_setters [Call_Enabled true; Call_RPEntityID "rp"])
    as (config & Hrun & Hmask).
  exists config. split; [exact Hrun|].
  specialize (Hmask _ (buildMask_returns_buildMask _)). split.
  - apply Hmask. exists (Call_RPEntityID "rp"). split; [|reflexivity].
    apply elem_of_cons. right. apply list_elem_of_singleton. reflexivity.
  - intros (c & Hc & Hkey)%Hmask.
    apply elem_of_cons in Hc as [->|Hc]; [discriminate Hkey|].
    apply list_elem_of_singleton in Hc as ->. discriminate Hkey.
Defined.

(** X9.  On the create builder [DisplayName] stores the name as the string
    it is, the empty one included: the key reads as that string, where the
    update builder would store the nil marker for the empty name. *)
Theorem create_DisplayName_kept (before after : list create_call) (name : string) :
  untouched F_displayName (field_calls after) = true →
  ∃ config,
    create_builder (before ++ Call_field (Call_DisplayName name) :: after) = Done config ∧
    nestedMap_Get (SAMLProviderConfigToCreate.params config) displayNameKey
    = Done (VString name, true) ∧
    nestedMap_GetString (SAMLProviderConfigToCreate.params config) displayNameKey
    = Done (name, true).
Proof.
  intros Hafter.
  destruct (create_builder_represents
              (before ++ Call_field (Call_DisplayName name) :: after))
    as (config & Hrun & _ & [_ HG]).
  exists config. split; [done|]. specialize (HG F_displayName).
  pose proof (stored_last_create_call false before (Call_DisplayName name) after Hafter)
    as Hst.
  cbn [field_of] in Hst. rewrite Hst in HG.
  split; [exact HG|]. unfold nestedMap_GetString.
  change displayNameKey with (key_of F_displayName). by rewrite HG.
Qed.

Lemma create_DisplayName_kept_witness :
  ∃ config,
    create_builder [Call_field (Call_DisplayName "")] = Done config ∧
    nestedMap_Get (SAMLProviderConfigToCreate.params config) displayNameKey
    = Done (VString "", true).
Proof.
  destruct (create_DisplayName_kept [] [] "" eq_refl) as (config & Hrun & Hget & _).
  exists config. split; [exact Hrun|exact Hget].
Defined.

(** X15.  [buildRequest] succeeds exactly on the requests it is meant to
    accept: on the create builder when the identifier has the prefix and the
    five required fields are present and valid; on the update builder when at
    least one setter was called and every supplied field that is checked is
    valid.  It then returns the builder's own store (and identifier). *)
Theorem buildRequest_succeeds_iff {lib : GoLib} :
  (∀ calls,
     ∃ config,
       create_builder calls = Done config ∧
       ((∃ built, SAMLProviderConfigToCreate.buildRequest config = Done (Ok built)) ↔
        complete (create_supplied calls).1 (create_supplied calls).2 = true) ∧
       ∀ built,
         SAMLProviderConfigToCreate.buildRequest config = Done (Ok built) →
         built = (SAMLProviderConfigToCreate.params config, (create_supplied calls).1)) ∧
  (∀ calls,
     ∃ config,
       update_builder calls = Done config ∧
       ((∃ built, SAMLProviderConfigToUpdate.buildRequest config = Done (Ok built)) ↔
        acceptable (supplied calls) = true) ∧
       ∀ built,
         SAMLProviderConfigToUpdate.buildRequest config = Done (Ok built) →
         built = SAMLProviderConfigToUpdate.params config).
Proof.
  split; intros calls.
  - destruct (create_builder_built calls) as (config & Hrun & Hid & Hbuild).
    exists config. split; [done|]. rewrite Hbuild.
    destruct (first_failure (create_checks _ _)) as [err|] eqn:Hchecks.
    + split; [|by intros built [=]]. split; [by intros [built [=]]|].
      intros Hc%complete_checks. congruence.
    + split; [|by intros built [= <-]]. split; [|eauto].
      intros _. by apply checks_complete.
  - destruct (update_builder_built calls) as (config & Hrun & Hbuild).
    exists config. split; [done|]. rewrite Hbuild.
    destruct (first_failure (update_checks _)) as [err|] eqn:Hchecks.
    + split; [|by intros built [=]]. split; [by intros [built [=]]|].
      intros Hc%acceptable_checks. congruence.
    + split; [|by intros built [= <-]]. split; [|eauto].
      intros _. by apply checks_acceptable.
Qed.

Lemma buildRequest_succeeds_iff_witness :
  ∃ config built,
    create_builder example_calls = Done config ∧
    SAMLProviderConfigToCreate.buildRequest (lib := example_lib) config = Done (Ok built).
Proof.
  destruct (buildRequest_succeeds_iff (lib := example_lib)) as [Hcreate _].
  destruct (Hcreate example_calls) as (config & Hrun & [_ Hcomplete] & _).
  destruct Hcomplete as [built Hbuilt]; [vm_compute; reflexivity|].
  exists config, built. split; [exact Hrun|exact Hbuilt].
Defined.

(** X16.  [GetString] returns a string with "found" exactly when the path
    leads to that string; it returns the empty string with "not found"
    exactly when [Get] returns "not found"; and where the path leads to a
    value that is not a string, it panics. *)
Theorem GetString_cases (nm : nestedMap) (key : string) :
  (∀ s, nestedMap_GetString nm key = Done (s, true) ↔
        walk (VMap (entries nm)) (strings_Split key ".") = Some (VString s)) ∧
  (nestedMap_GetString nm key = Done ("", false) ↔
   ∃ v, nestedMap_Get nm key = Done (v, false)) ∧
  (∀ v, walk (VMap (entries nm)) (strings_Split key ".") = Some v →
        (∀ s, v ≠ VString s) → nestedMap_GetString nm key = Panic).
Proof.
  unfold nestedMap_GetString. split; [|split].
  - intros s. rewrite <- Get_found_iff_segments.
    destruct (nestedMap_Get nm key) as [[v [|]]|]; cbn [bind].
    + destruct v; split; intros [=]; by subst.
    + split; intros [=].
    + split; intros [=].
  - destruct (nestedMap_Get nm key) as [[v [|]]|]; cbn [bind].
    + destruct v; split; try done; by intros [? [=]].
    + split; [eauto|done].
    + split; [done|]. by intros [? [=]].
  - intros v Hw%Get_found_iff_segments Hv. rewrite Hw. cbn [bind].
    destruct v; try done. by destruct (Hv s).
Qed.

Lemma GetString_cases_witness :
  nestedMap_GetString (Some {["enabled" := VBool true]}) enabledKey = Panic.
Proof.
  destruct (GetString_cases (Some {["enabled" := VBool true]}) enabledKey) as (_ & _ & H).
  apply (H (VBool true)); [reflexivity|discriminate].
Defined.

(** * Further properties of the mapper and the client *)

(** X10.  [extractResourceID] never panics.  The identifier it returns holds
    no slash, and is the whole name when the name holds none, and otherwise
    what follows the last slash of the name; a name that ends in a slash gives
    the empty identifier. *)
Theorem extractResourceID_after_last_slash (name : string) :
  ∃ id,
    extractResourceID name = Done id ∧
    free_of "/" id = true ∧
    (name = id ∨ ∃ pre, name = pre +:+ String "/" id) ∧
    (free_of "/" name = true → id = name) ∧
    (∀ pre, name = pre +:+ "/" → id = "").
Proof.
  destruct (strings_Split_last name "/") as (id & Hlast & Hfree & Hname).
  exists id. unfold extractResourceID. rewrite Hlast. do 3 (split; [done|]). split.
  - intros Hname'. rewrite strings_Split_free in Hlast by done. by inversion Hlast.
  - intros pre ->. rewrite (strings_Split_app pre "" "/") in Hlast.
    change (strings_Split "" "/") with [""] in Hlast.
    rewrite last_snoc in Hlast. by inversion Hlast.
Qed.

Lemma extractResourceID_after_last_slash_witness :
  extractResourceID "saml.provider1" = Done "saml.provider1".
Proof.
  destruct (extractResourceID_after_last_slash "saml.provider1")
    as (id & Hrun & _ & _ & Hwhole & _).
  rewrite Hrun. f_equal. apply Hwhole. reflexivity.
Defined.

(** X11.  Certificates passed to [X509Certificates] and mapped back by
    [toSAMLProviderConfig] come out as they went in, in their order; and the
    read model holds the nil slice exactly when there was no certificate. *)
Theorem certificates_round_trip (certs : slice string) (dao : samlProviderConfigDAO.t) :
  samlProviderConfigDAO.IDPCertificates (samlProviderConfigDAO.IDPConfig dao)
  = wrap_certs certs →
  ∃ config,
    samlProviderConfigDAO.toSAMLProviderConfig dao = Done config ∧
    slice_elems (SAMLProviderConfig.X509Certificates config) = slice_elems certs ∧
    (SAMLProviderConfig.X509Certificates config = None ↔ slice_elems certs = []).
Proof.
  intros Hdao. exists (mapped dao). split; [apply toSAMLProviderConfig_mapped|].
  unfold mapped. cbn [SAMLProviderConfig.X509Certificates]. rewrite Hdao.
  assert (slice_elems (wrap_certs certs)
          = (λ cert, {| X509Certificate := cert |}) <$> slice_elems certs) as Helems
    by apply (wrap_certs_elems (slice_elems certs)).
  split.
  - rewrite unwrap_certs_elems, Helems. simpl. rewrite <- list_fmap_compose.
    apply list_fmap_id.
  - rewrite append_all_None, Helems. by destruct (slice_elems certs).
Qed.

Lemma certificates_round_trip_witness :
  ∃ config,
    samlProviderConfigDAO.toSAMLProviderConfig example_dao = Done config ∧
    slice_elems (SAMLProviderConfig.X509Certificates config) = ["CERT1"; "CERT2"].
Proof.
  destruct (certificates_round_trip (Some ["CERT1"; "CERT2"]) example_dao eq_refl)
    as (config & Hrun & Hcerts & _).
  exists config. split; [exact Hrun|exact Hcerts].
Defined.

Section operations_behaviour.
Context {lib : GoLib} {http : HTTPClient} {range : MapIteration}.

(** X12.  The read and delete operations check the identifier, then the
    project identifier, and report the first failure without handing anything
    to the transport; otherwise they hand over exactly one request, to
    [/inboundSamlConfigs/{id}] below the project, and return what the
    transport answers: its error, or the mapped transfer object (for delete,
    no error).  The mapped transfer object is what [toSAMLProviderConfig]
    returns. *)
Theorem read_and_delete_behaviour (c : providerConfigClient.t) (id : string) :
  let get := request_to c "GET" ("/inboundSamlConfigs/" +:+ id) None [] in
  let delete := request_to c "DELETE" ("/inboundSamlConfigs/" +:+ id) None [] in
  (∀ dao, samlProviderConfigDAO.toSAMLProviderConfig dao = Done (mapped dao)) ∧
  providerConfigClient.SAMLProviderConfig c id
  = Done (match first_failure [check_id id; check_project c] with
          | Some err => (Err err, [])
          | None => (relayed (DoAndUnmarshal get), [get])
          end) ∧
  providerConfigClient.DeleteSAMLProviderConfig c id
  = match first_failure [check_id id; check_project c] with
    | Some err => (Some err, [])
    | None => (match DoAndUnmarshal delete with Err err => Some err | Ok _ => None end,
               [delete])
    end.
Proof.
  unfold providerConfigClient.SAMLProviderConfig,
    providerConfigClient.DeleteSAMLProviderConfig.
  rewrite validateSAMLConfigID_check, !makeRequest_checked. cbn [first_failure].
  split; [apply toSAMLProviderConfig_mapped|].
  destruct (check_id id); [done|]. destruct (check_project c); [done|].
  cbv zeta. rewrite decoded_relayed. split; [done|].
  cbn [Method URL Body Opts]. by destruct (DoAndUnmarshal _).
Qed.

(** X13.  The update operation checks, in this order, the identifier, that
    the builder is not nil, the builder's fields ([buildRequest]) and the
    project identifier, and reports the first failure without handing
    anything to the transport.  Otherwise it hands over exactly one PATCH
    request whose body is the builder's store and whose [updateMask]
    parameter joins, with commas, the update mask in the order the runtime
    ranged over the store: a mask that lists exactly the wire paths of the
    setters that were called, in an order the operation does not fix.  It
    returns the transport's error or the mapped transfer object. *)
Theorem UpdateSAMLProviderConfig_behaviour (c : providerConfigClient.t) (id : string)
    (calls : option (list setter)) (config : option SAMLProviderConfigToUpdate.t) :
  built_from update_builder calls config →
  let body := config ≫= SAMLProviderConfigToUpdate.params in
  ∃ mask,
    UpdateMask_run body = Ok mask ∧
    buildMask_returns (entries body) mask ∧
    (∀ p, p ∈ mask ↔ ∃ call, call ∈ default [] calls ∧ p = key_of (field_of call)) ∧
    let req := request_to c "PATCH" ("/inboundSamlConfigs/" +:+ id) (Some body)
                 [("updateMask", strings_Join mask ",")] in
    providerConfigClient.UpdateSAMLProviderConfig c id config
    = Done (match first_failure [ check_id id;
                                  check_builder calls;
                                  first_failure (update_checks (supplied (default [] calls)));
                                  check_project c ] with
            | Some err => (Err err, [])
            | None => (relayed (DoAndUnmarshal req), [req])
            end).
Proof.
  intros Hbuilt body.
  destruct (UpdateMask_run_returns body) as (mask & Hmask & Hreturns).
  exists mask. do 2 (split; [done|]). split.
  { intros p. rewrite (buildMask_returns_Permutation _ _ Hreturns).
    destruct calls as [calls|]; simpl in Hbuilt.
    - destruct Hbuilt as (b & Hrun & ->).
      destruct (update_run_shaped calls SAMLProviderConfigToUpdate.new no_fields)
        as (b' & Hrun' & Hrep & Hm);
        [apply represents_new|apply within_keys_empty|].
      unfold update_builder in Hrun. rewrite Hrun in Hrun'. inversion Hrun'; subst b'.
      change (default [] (Some calls)) with calls. subst body. cbn [mbind option_bind].
      rewrite (shaped_mask true _ _ p Hrep Hm). split.
      + intros (fld & Hgiven & ->).
        apply stored_given in Hgiven as [Hno|(call & Hcall & <-)]; [by destruct fld|].
        by exists call.
      + intros (call & Hcall & ->). exists (field_of call). split; [|done].
        apply stored_given. right. by exists call.
    - subst config body. simpl. split.
      + by intros ?%elem_of_nil.
      + intros (call & Hcall & _). by apply elem_of_nil in Hcall. }
  intros req. unfold providerConfigClient.UpdateSAMLProviderConfig.
  rewrite validateSAMLConfigID_check. cbn [first_failure].
  destruct (check_id id); [done|].
  destruct calls as [calls|]; simpl in Hbuilt.
  - destruct Hbuilt as (b & Hrun & ->).
    destruct (update_builder_built calls) as (b' & Hrun' & Hbuild).
    rewrite Hrun in Hrun'. inversion Hrun'; subst b'. rewrite Hbuild.
    change (default [] (Some calls)) with calls.
    cbn [check_builder first_failure bind].
    destruct (first_failure (update_checks (supplied calls))); [done|].
    subst body. cbn [mbind option_bind] in Hmask. rewrite Hmask.
    rewrite makeRequest_checked.
    destruct (check_project c); [done|]. cbv zeta. by rewrite decoded_relayed.
  - by subst config.
Qed.

(** X14.  The create operation checks that the builder is not nil, then the
    builder's identifier and fields ([buildRequest]), then the project
    identifier, and reports the first failure without handing anything to the
    transport.  Otherwise it hands over exactly one POST request to
    [/inboundSamlConfigs] whose body is the builder's store and whose
    [inboundSamlConfigId] parameter is the identifier (which is not part of
    the body), and returns the transport's error or the mapped transfer
    object. *)
Theorem CreateSAMLProviderConfig_behaviour (c : providerConfigClient.t)
    (calls : option (list create_call)) (config : option SAMLProviderConfigToCreate.t) :
  built_from create_builder calls config →
  let id := (create_supplied (default [] calls)).1 in
  let f := (create_supplied (default [] calls)).2 in
  let body := config ≫= SAMLProviderConfigToCreate.params in
  let req := request_to c "POST" "/inboundSamlConfigs" (Some body)
               [("inboundSamlConfigId", id)] in
  providerConfigClient.CreateSAMLProviderConfig c config
  = Done (match first_failure [ check_builder calls;
                                first_failure (create_checks id f);
                                check_project c ] with
          | Some err => (Err err, [])
          | None => (relayed (DoAndUnmarshal req), [req])
          end).
Proof.
  intros Hbuilt id f body req. unfold providerConfigClient.CreateSAMLProviderConfig.
  destruct calls as [calls|]; simpl in Hbuilt.
  - destruct Hbuilt as (b & Hrun & ->).
    destruct (create_builder_built calls) as (b' & Hrun' & Hid & Hbuild).
    rewrite Hrun in Hrun'. inversion Hrun'; subst b'. rewrite Hbuild.
    subst id f. change (default [] (Some calls)) with calls.
    cbn [check_builder first_failure bind].
    destruct (first_failure (create_checks _ _)); [done|].
    rewrite makeRequest_checked.
    destruct (check_project c); [done|]. cbv zeta. by rewrite decoded_relayed.
  - by subst config.
Qed.
End operations_behaviour.

Lemma UpdateSAMLProviderConfig_behaviour_witness :
  let c := providerConfigClient.newProviderConfigClient "p1" in
  ∃ config mask,
    update_builder [Call_Enabled true; Call_RPEntityID "rp"] = Done config ∧
    list_to_set mask =@{gset string} {["enabled"; "spConfig.spEntityId"]} ∧
    let req := request_to c "PATCH" "/inboundSamlConfigs/saml.provider1"
                 (Some (SAMLProviderConfigToUpdate.params config))
                 [("updateMask", strings_Join mask ",")] in
    providerConfigClient.UpdateSAMLProviderConfig
      (lib := example_lib) (http := example_http) (range := example_range)
      c "saml.provider1" (Some config)
    = Done (Ok (mapped example_dao), [req]).
Proof.
  intros c.
  destruct (update_builder [Call_Enabled true; Call_RPEntityID "rp"]) as [config|] eqn:Hrun;
    [|discriminate Hrun].
  destruct (UpdateSAMLProviderConfig_behaviour
              (lib := example_lib) (http := example_http) (range := example_range)
              c "saml.provider1" (Some [Call_Enabled true; Call_RPEntityID "rp"])
              (Some config))
    as (mask & _ & _ & Hlists & Hsent).
  { exists config. split; [exact Hrun|reflexivity]. }
  exists config, mask. split; [reflexivity|]. split; [|exact Hsent].
  apply set_eq. intros p. rewrite elem_of_list_to_set, Hlists.
  rewrite elem_of_union, !elem_of_singleton. split.
  - intros (call & Hcall & ->).
    apply elem_of_cons in Hcall as [->|Hcall]; [by left|].
    apply list_elem_of_singleton in Hcall as ->. by right.
  - intros [->| ->]; [exists (Call_Enabled true)|exists (Call_RPEntityID "rp")];
      (split; [|reflexivity]).
    + apply elem_of_cons. by left.
    + apply elem_of_cons. right. by apply list_elem_of_singleton.
Defined.

Lemma CreateSAMLProviderConfig_behaviour_witness :
  ∃ config,
    create_builder example_calls = Done config ∧
    providerConfigClient.CreateSAMLProviderConfig (lib := example_lib) (http := example_http)
      (providerConfigClient.newProviderConfigClient "") (Some config)
    = Done (Err "project id not available", []).
Proof.
  destruct (create_builder example_calls) as [config|] eqn:Hrun; [|discriminate Hrun].
  exists config. split; [reflexivity|].
  apply (CreateSAMLProviderConfig_behaviour (lib := example_lib) (http := example_http)
           (providerConfigClient.newProviderConfigClient "") (Some example_calls)
           (Some config)).
  exists config. split; [exact Hrun|reflexivity].
Defined.
